(** * vscode-proto3: the schema symbol engine of the hover and definition providers

    A shallow embedding of [proto3Hover.ts] (two revisions of it are in the
    repository) and [proto3Definition.ts], together with the part of the
    JavaScript string and [RegExp] semantics these files rely on.

    Text is a sequence of 8-bit code units ([list ascii]); the character
    classes below are the ECMAScript ones restricted to that range. *)

From Stdlib Require Import Ascii String.
From Stdlib Require Import List ZArith Lia Bool Arith PeanoNat.
Import ListNotations.

Set Implicit Arguments.
Set Warnings "-register-all".

(* ================================================================= *)
(** ** Outcomes of a call: a value, or an exception *)

Inductive exn := SyntaxError | TypeError | IOError.

(** [Unsupported] marks a pattern that uses RegExp syntax which this
    development does not interpret (ranges, back references, look-around,
    braced quantifiers); it is never produced for the patterns written in the
    source files. [Diverged] is the result of a recursion that ran out of
    fuel. *)
Inductive outcome (A : Type) : Type :=
| Ret (a : A)
| Throw (e : exn)
| Unsupported
| Diverged.

Arguments Ret {A} a.
Arguments Throw {A} e.
Arguments Unsupported {A}.
Arguments Diverged {A}.

Definition bind {A B} (m : outcome A) (k : A -> outcome B) : outcome B :=
  match m with
  | Ret a => k a
  | Throw e => Throw e
  | Unsupported => Unsupported
  | Diverged => Diverged
  end.

Declare Scope outcome_scope.
Delimit Scope outcome_scope with outcome.
Notation "x <- m ;; k" := (bind m (fun x => k))
  (at level 61, m at next level, right associativity) : outcome_scope.
Open Scope outcome_scope.

(* ================================================================= *)
(** ** JavaScript strings *)

Definition text := list ascii.

Definition str (s : string) : text := list_ascii_of_string s.

Definition code (c : ascii) : nat := nat_of_ascii c.

Definition LF : ascii := ascii_of_nat 10.

(** The double quote. *)
Definition DQ : ascii := ascii_of_nat 34.

Definition isDigit (c : ascii) : bool :=
  (48 <=? code c) && (code c <=? 57).

Definition isWordChar (c : ascii) : bool :=
  isDigit c
  || ((65 <=? code c) && (code c <=? 90))
  || ((97 <=? code c) && (code c <=? 122))
  || (code c =? 95).

(** WhiteSpace and LineTerminator code units below 256. *)
Definition isSpace (c : ascii) : bool :=
  ((9 <=? code c) && (code c <=? 13)) || (code c =? 32) || (code c =? 160).

Definition isLineTerminator (c : ascii) : bool :=
  (code c =? 10) || (code c =? 13).

(** Canonicalize of the RegExp semantics (flag [i], no flag [u]): the upper
    case of a code unit when that is again a single code unit of the same
    range. *)
Definition canonicalize (c : ascii) : ascii :=
  let n := code c in
  if ((97 <=? n) && (n <=? 122))
     || ((224 <=? n) && (n <=? 254) && negb (n =? 247))
  then ascii_of_nat (n - 32) else c.

Fixpoint text_eqb (a b : text) : bool :=
  match a, b with
  | [], [] => true
  | x :: a', y :: b' => Ascii.eqb x y && text_eqb a' b'
  | _, _ => false
  end.

(** [s.startsWith(p)] *)
Fixpoint startsWith (s p : text) : bool :=
  match p, s with
  | [], _ => true
  | x :: p', y :: s' => Ascii.eqb x y && startsWith s' p'
  | _ :: _, [] => false
  end.

(** [s.substring(a, b)]: arguments are clamped to [0, length] and swapped
    when out of order. *)
Definition substring (s : text) (a b : Z) : text :=
  let n := Z.of_nat (length s) in
  let a' := Z.min (Z.max a 0) n in
  let b' := Z.min (Z.max b 0) n in
  let lo := Z.min a' b' in
  let hi := Z.max a' b' in
  firstn (Z.to_nat (hi - lo)) (skipn (Z.to_nat lo) s).

(** [s.substring(a)] *)
Definition substringFrom (s : text) (a : nat) : text := skipn a s.

Fixpoint dropWhile (p : ascii -> bool) (s : text) : text :=
  match s with
  | c :: t => if p c then dropWhile p t else s
  | [] => []
  end.

(** [s.trim()] *)
Definition trim (s : text) : text :=
  rev (dropWhile isSpace (rev (dropWhile isSpace s))).

(** [s.split('\n')]: never empty, the empty text gives one empty line. *)
Fixpoint splitLines (s : text) : list text :=
  match s with
  | [] => [[]]
  | c :: t =>
      if Ascii.eqb c LF then [] :: splitLines t
      else match splitLines t with
           | l :: ls => (c :: l) :: ls
           | [] => [[c]]
           end
  end.

(** [a.join(sep)] *)
Fixpoint join (sep : text) (l : list text) : text :=
  match l with
  | [] => []
  | [x] => x
  | x :: l' => x ++ sep ++ join sep l'
  end.

(** [s.indexOf(p)], -1 when [p] does not occur. *)
Fixpoint indexOfFrom (s p : text) (i : nat) : Z :=
  if startsWith s p then Z.of_nat i
  else match s with
       | [] => (-1)%Z
       | _ :: t => indexOfFrom t p (S i)
       end.

Definition indexOf (s p : text) : Z := indexOfFrom s p 0.

(** [s.includes(p)] *)
Definition includes (s p : text) : bool := (0 <=? indexOf s p)%Z.

(** [s.lastIndexOf(c)] for a one-character search text, -1 when absent. *)
Fixpoint lastIndexOfChar (s : text) (c : ascii) (i : nat) (found : Z) : Z :=
  match s with
  | [] => found
  | x :: t =>
      lastIndexOfChar t c (S i) (if Ascii.eqb x c then Z.of_nat i else found)
  end.

Definition lastIndexOf (s : text) (c : ascii) : Z := lastIndexOfChar s c 0 (-1)%Z.

(** [s.split('.')] *)
Fixpoint splitOn (sep : ascii) (s : text) : list text :=
  match s with
  | [] => [[]]
  | c :: t =>
      if Ascii.eqb c sep then [] :: splitOn sep t
      else match splitOn sep t with
           | l :: ls => (c :: l) :: ls
           | [] => [[c]]
           end
  end.

(** [s[i]], [None] for [undefined]. *)
Definition charAt (s : text) (i : Z) : option ascii :=
  if (i <? 0)%Z then None else nth_error s (Z.to_nat i).

(* ================================================================= *)
(** ** Numbers: the value of [parseInt] on a run of decimal digits *)

(** A JavaScript number that holds an integer, or [Infinity]. *)
Inductive number := Num (z : Z) | Infinity.

Definition digitValue (c : ascii) : Z := Z.of_nat (code c - 48).

Definition decimalValue (ds : text) : Z :=
  fold_left (fun acc c => (10 * acc + digitValue c)%Z) ds 0%Z.

(** Round a non-negative integer to the nearest binary64 value, ties to
    even. *)
Definition roundToDouble (z : Z) : number :=
  if (z <? 2 ^ 53)%Z then Num z
  else
    let e := (Z.log2 z - 52)%Z in
    let q := Z.shiftr z e in
    let r := (z - Z.shiftl q e)%Z in
    let half := Z.shiftl 1 (e - 1) in
    let q' := if (r <? half)%Z then q
              else if (half <? r)%Z then (q + 1)%Z
              else if Z.even q then q else (q + 1)%Z in
    let v := Z.shiftl q' e in
    if (v <? 2 ^ 1024)%Z then Num v else Infinity.

(** [parseInt(ds)] where [ds] was captured by [(\d+)]. *)
Definition parseInt (ds : text) : number := roundToDouble (decimalValue ds).

(* ================================================================= *)
(** ** Regular expressions: syntax trees *)

Inductive citem :=
| IChar (c : ascii)
| ISpace | INotSpace
| IWord | INotWord
| IDigit | INotDigit.

Inductive quant := QStar | QPlus | QOpt.

Inductive regex :=
| Eps
| Chr (neg : bool) (items : list citem)
| Dot
| Seq (a b : regex)
| Alt (a b : regex)
| Rep (q : quant) (greedy : bool) (a : regex)
| Group (n : nat) (a : regex)
| Bol
| Eol
| WordB (neg : bool).

Definition Lit (c : ascii) : regex := Chr false [IChar c].

(** Capture groups that occur inside a term; a quantifier resets them at the
    start of each iteration. *)
Fixpoint groupsOf (r : regex) : list nat :=
  match r with
  | Seq a b | Alt a b => groupsOf a ++ groupsOf b
  | Rep _ _ a => groupsOf a
  | Group n a => n :: groupsOf a
  | _ => []
  end.

(* ================================================================= *)
(** ** Regular expressions: matching

    [ms ic r s] lists the states in which a match of [r] started in [s] can
    end, most preferred first, so that its head is the state the backtracking
    matcher of the language returns. *)

Record mstate := MState {
  before : text;               (* consumed input, last character first *)
  rest : text;                 (* input still to read *)
  caps : list (nat * text)     (* text of the capture groups set so far *)
}.

Definition itemMatches (ic : bool) (c : ascii) (i : citem) : bool :=
  match i with
  | IChar a => if ic then Ascii.eqb (canonicalize a) (canonicalize c)
               else Ascii.eqb a c
  | ISpace => isSpace c
  | INotSpace => negb (isSpace c)
  | IWord => isWordChar c
  | INotWord => negb (isWordChar c)
  | IDigit => isDigit c
  | INotDigit => negb (isDigit c)
  end.

Definition classMatches (ic neg : bool) (items : list citem) (c : ascii) : bool :=
  xorb neg (existsb (itemMatches ic c) items).

Definition advance (s : mstate) : list mstate :=
  match rest s with
  | c :: t => [MState (c :: before s) t (caps s)]
  | [] => []
  end.

Definition readIf (p : ascii -> bool) (s : mstate) : list mstate :=
  match rest s with
  | c :: _ => if p c then advance s else []
  | [] => []
  end.

Definition clearCaps (gs : list nat) (s : mstate) : mstate :=
  MState (before s) (rest s)
         (filter (fun kv => negb (existsb (Nat.eqb (fst kv)) gs)) (caps s)).

(** The text consumed between two states of one match. *)
Definition consumed (s s' : mstate) : text :=
  rev (firstn (length (before s') - length (before s)) (before s')).

Definition setCap (n : nat) (s s' : mstate) : mstate :=
  MState (before s') (rest s')
         ((n, consumed s s') :: filter (fun kv => negb (fst kv =? n)) (caps s')).

Definition progress (x y : mstate) : bool :=
  length (rest y) <? length (rest x).

(** Zero or more iterations; an iteration that consumes nothing is
    rejected, so the remaining input bounds their number. *)
Fixpoint star (body : mstate -> list mstate) (greedy : bool) (fuel : nat)
         (x : mstate) : list mstate :=
  match fuel with
  | 0 => [x]
  | S f =>
      let more := flat_map (fun y => if progress x y then star body greedy f y
                                     else []) (body x) in
      if greedy then more ++ [x] else x :: more
  end.

Definition atWordBoundary (s : mstate) : bool :=
  let a := match before s with c :: _ => isWordChar c | [] => false end in
  let b := match rest s with c :: _ => isWordChar c | [] => false end in
  xorb a b.

Fixpoint ms (ic : bool) (r : regex) (s : mstate) : list mstate :=
  match r with
  | Eps => [s]
  | Chr neg items => readIf (classMatches ic neg items) s
  | Dot => readIf (fun c => negb (isLineTerminator c)) s
  | Seq a b => flat_map (ms ic b) (ms ic a s)
  | Alt a b => ms ic a s ++ ms ic b s
  | Rep q greedy a =>
      let body := fun x => ms ic a (clearCaps (groupsOf a) x) in
      match q with
      | QStar => star body greedy (length (rest s)) s
      | QPlus => flat_map (fun y => star body greedy (length (rest y)) y) (body s)
      | QOpt =>
          let one := filter (progress s) (body s) in
          if greedy then one ++ [s] else s :: one
      end
  | Group n a => map (setCap n s) (ms ic a s)
  | Bol => match before s with [] => [s] | _ => [] end
  | Eol => match rest s with [] => [s] | _ => [] end
  | WordB neg => if xorb neg (atWordBoundary s) then [s] else []
  end.

(* ================================================================= *)
(** ** Regular expressions: reading a pattern

    The pattern grammar of the language without the [u] flag, read in one
    pass with a stack of open groups. *)

Inductive presult (A : Type) :=
| POk (a : A)
| PSyntaxError
| PUnsupported.

Arguments POk {A} a.
Arguments PSyntaxError {A}.
Arguments PUnsupported {A}.

Inductive lastKind := LNone | LAtom | LQuant.

Record frame := Frame {
  fr_group : option nat;   (* capture index, [None] for [(?:] and the top *)
  fr_alts : list regex;    (* closed alternatives, last one first *)
  fr_seq : list regex      (* terms of the open alternative, last one first *)
}.

Inductive pmode :=
| MNormal
| MEscape
| MGroupOpen
| MGroupQ
| MClassOpen
| MClass (neg : bool) (items : list citem)
| MClassEscape (neg : bool) (items : list citem).

Record pstate := PState {
  p_mode : pmode;
  p_top : frame;
  p_stack : list frame;
  p_ngroups : nat;
  p_last : lastKind
}.

Definition mkSeq (terms : list regex) : regex :=
  fold_left (fun acc t => Seq t acc) terms Eps.

Definition mkAlt (alts : list regex) (last : regex) : regex :=
  fold_left (fun acc a => Alt a acc) alts last.

Definition closeFrame (f : frame) : regex :=
  let body := mkAlt (fr_alts f) (mkSeq (fr_seq f)) in
  match fr_group f with
  | Some n => Group n body
  | None => body
  end.

Definition pushAtom (st : pstate) (a : regex) : pstate :=
  let f := p_top st in
  PState MNormal (Frame (fr_group f) (fr_alts f) (a :: fr_seq f))
         (p_stack st) (p_ngroups st) LAtom.

Definition pushAssertion (st : pstate) (a : regex) : pstate :=
  let f := p_top st in
  PState MNormal (Frame (fr_group f) (fr_alts f) (a :: fr_seq f))
         (p_stack st) (p_ngroups st) LNone.

Definition setMode (st : pstate) (m : pmode) : pstate :=
  PState m (p_top st) (p_stack st) (p_ngroups st) (p_last st).

Definition openGroup (st : pstate) (capture : bool) : pstate :=
  if capture
  then PState MNormal (Frame (Some (S (p_ngroups st))) [] [])
              (p_top st :: p_stack st) (S (p_ngroups st)) LNone
  else PState MNormal (Frame None [] [])
              (p_top st :: p_stack st) (p_ngroups st) LNone.

Definition quantify (st : pstate) (q : quant) : presult pstate :=
  let f := p_top st in
  match p_last st, fr_seq f with
  | LAtom, a :: sq =>
      POk (PState MNormal (Frame (fr_group f) (fr_alts f) (Rep q true a :: sq))
                  (p_stack st) (p_ngroups st) LQuant)
  | LQuant, Rep q' true a :: sq =>
      match q with
      | QOpt =>
          POk (PState MNormal
                      (Frame (fr_group f) (fr_alts f) (Rep q' false a :: sq))
                      (p_stack st) (p_ngroups st) LNone)
      | _ => PSyntaxError
      end
  | _, _ => PSyntaxError
  end.

Fixpoint skipDigits (l : text) : text :=
  match l with
  | c :: t => if isDigit c then skipDigits t else l
  | [] => []
  end.

(** Does the text after an opening brace complete a quantifier
    [{n}], [{n,}] or [{n,m}]? *)
Definition bracedQuantifier (t : text) : bool :=
  match t with
  | c :: _ =>
      isDigit c &&
      match skipDigits t with
      | d :: u =>
          Ascii.eqb d "}" ||
          (Ascii.eqb d "," &&
           match u with
           | e :: _ =>
               Ascii.eqb e "}" ||
               (isDigit e && match skipDigits u with
                             | g :: _ => Ascii.eqb g "}"
                             | [] => false
                             end)
           | [] => false
           end)
      | [] => false
      end
  | [] => false
  end.

Inductive token :=
| TBackslash | TOpen | TClose | TBar | TStar | TPlus | TQuestion | TDot
| TCaret | TDollar | TBracket | TBrace | TChar.

Definition classify (c : ascii) : token :=
  if Ascii.eqb c "\" then TBackslash
  else if Ascii.eqb c "(" then TOpen
  else if Ascii.eqb c ")" then TClose
  else if Ascii.eqb c "|" then TBar
  else if Ascii.eqb c "*" then TStar
  else if Ascii.eqb c "+" then TPlus
  else if Ascii.eqb c "?" then TQuestion
  else if Ascii.eqb c "." then TDot
  else if Ascii.eqb c "^" then TCaret
  else if Ascii.eqb c "$" then TDollar
  else if Ascii.eqb c "[" then TBracket
  else if Ascii.eqb c "{" then TBrace
  else TChar.

Definition stepNormal (st : pstate) (c : ascii) (t : text) : presult pstate :=
  match classify c with
  | TBackslash => POk (setMode st MEscape)
  | TOpen => POk (setMode st MGroupOpen)
  | TClose =>
      match p_stack st with
      | [] => PSyntaxError
      | parent :: up =>
          POk (PState MNormal
                      (Frame (fr_group parent) (fr_alts parent)
                             (closeFrame (p_top st) :: fr_seq parent))
                      up (p_ngroups st) LAtom)
      end
  | TBar =>
      let f := p_top st in
      POk (PState MNormal
                  (Frame (fr_group f) (mkSeq (fr_seq f) :: fr_alts f) [])
                  (p_stack st) (p_ngroups st) LNone)
  | TStar => quantify st QStar
  | TPlus => quantify st QPlus
  | TQuestion => quantify st QOpt
  | TDot => POk (pushAtom st Dot)
  | TCaret => POk (pushAssertion st Bol)
  | TDollar => POk (pushAssertion st Eol)
  | TBracket => POk (setMode st MClassOpen)
  | TBrace => if bracedQuantifier t then PUnsupported else POk (pushAtom st (Lit c))
  | TChar => POk (pushAtom st (Lit c))
  end.

(** The character after a backslash: a class, a control character, an
    identity escape, or something this development leaves out. *)
Inductive escape :=
| EItem (i : citem)
| EBoundary (neg : bool)
| EUnsupported.

Definition classifyEscape (c : ascii) (t : text) : escape :=
  if Ascii.eqb c "s" then EItem ISpace
  else if Ascii.eqb c "S" then EItem INotSpace
  else if Ascii.eqb c "w" then EItem IWord
  else if Ascii.eqb c "W" then EItem INotWord
  else if Ascii.eqb c "d" then EItem IDigit
  else if Ascii.eqb c "D" then EItem INotDigit
  else if Ascii.eqb c "b" then EBoundary false
  else if Ascii.eqb c "B" then EBoundary true
  else if Ascii.eqb c "n" then EItem (IChar (ascii_of_nat 10))
  else if Ascii.eqb c "r" then EItem (IChar (ascii_of_nat 13))
  else if Ascii.eqb c "t" then EItem (IChar (ascii_of_nat 9))
  else if Ascii.eqb c "v" then EItem (IChar (ascii_of_nat 11))
  else if Ascii.eqb c "f" then EItem (IChar (ascii_of_nat 12))
  else if Ascii.eqb c "0" then
         match t with
         | d :: _ => if isDigit d then EUnsupported else EItem (IChar (ascii_of_nat 0))
         | [] => EItem (IChar (ascii_of_nat 0))
         end
  else if isDigit c then EUnsupported
  else if Ascii.eqb c "c" || Ascii.eqb c "x" || Ascii.eqb c "u" || Ascii.eqb c "k"
       then EUnsupported
  else EItem (IChar c).

Definition step (st : pstate) (c : ascii) (t : text) : presult pstate :=
  match p_mode st with
  | MNormal => stepNormal st c t
  | MEscape =>
      match classifyEscape c t with
      | EItem i => POk (pushAtom st (Chr false [i]))
      | EBoundary neg => POk (pushAssertion st (WordB neg))
      | EUnsupported => PUnsupported
      end
  | MGroupOpen =>
      if Ascii.eqb c "?" then POk (setMode st MGroupQ)
      else stepNormal (openGroup st true) c t
  | MGroupQ =>
      if Ascii.eqb c ":" then POk (openGroup st false)
      else if Ascii.eqb c "=" || Ascii.eqb c "!" || Ascii.eqb c "<" then PUnsupported
      else PSyntaxError
  | MClassOpen =>
      if Ascii.eqb c "^" then POk (setMode st (MClass true []))
      else if Ascii.eqb c "]" then POk (pushAtom st (Chr false []))
      else if Ascii.eqb c "\" then POk (setMode st (MClassEscape false []))
      else if Ascii.eqb c "-" then PUnsupported
      else POk (setMode st (MClass false [IChar c]))
  | MClass neg items =>
      if Ascii.eqb c "]" then POk (pushAtom st (Chr neg (rev items)))
      else if Ascii.eqb c "\" then POk (setMode st (MClassEscape neg items))
      else if Ascii.eqb c "-" then PUnsupported
      else POk (setMode st (MClass neg (IChar c :: items)))
  | MClassEscape neg items =>
      match classifyEscape c t with
      | EItem i => POk (setMode st (MClass neg (i :: items)))
      | EBoundary false => POk (setMode st (MClass neg (IChar (ascii_of_nat 8) :: items)))
      | EBoundary true => POk (setMode st (MClass neg (IChar c :: items)))
      | EUnsupported => PUnsupported
      end
  end.

Definition finish (st : pstate) : presult regex :=
  match p_mode st, p_stack st with
  | MNormal, [] => POk (closeFrame (p_top st))
  | _, _ => PSyntaxError
  end.

Fixpoint parseLoop (st : pstate) (l : text) : presult regex :=
  match l with
  | [] => finish st
  | c :: t =>
      match step st c t with
      | POk st' => parseLoop st' t
      | PSyntaxError => PSyntaxError
      | PUnsupported => PUnsupported
      end
  end.

Definition initialState : pstate :=
  PState MNormal (Frame None [] []) [] 0 LNone.

Definition parsePattern (pattern : text) : presult regex :=
  parseLoop initialState pattern.

(* ================================================================= *)
(** ** RegExp objects and the methods used by the providers *)

Record RegExp := mkRegExp { re_tree : regex; re_ignoreCase : bool }.

(** [new RegExp(pattern, flags)]; only the flag [i] changes matching, the
    flag [g] is accounted for by the method that is called. *)
Definition newRegExp (pattern : text) (ignoreCase : bool) : outcome RegExp :=
  match parsePattern pattern with
  | POk r => Ret (mkRegExp r ignoreCase)
  | PSyntaxError => Throw SyntaxError
  | PUnsupported => Unsupported
  end.

(** A regular expression literal of the source file. *)
Definition literal (pattern : string) : RegExp :=
  match parsePattern (str pattern) with
  | POk r => mkRegExp r false
  | _ => mkRegExp Eps false
  end.

Record matchResult := MatchResult {
  m_index : nat;     (* [match.index] *)
  m_end : mstate     (* the state in which the match ended *)
}.

(** [match[0]] *)
Definition matched (m : matchResult) : text :=
  rev (firstn (length (before (m_end m)) - m_index m) (before (m_end m))).

(** [match[n]], [None] for [undefined]. *)
Fixpoint lookupCap (n : nat) (l : list (nat * text)) : option text :=
  match l with
  | [] => None
  | (k, v) :: l' => if k =? n then Some v else lookupCap n l'
  end.

Definition group (m : matchResult) (n : nat) : option text :=
  lookupCap n (caps (m_end m)).

(** The leftmost match at or after the position reached in [bef]. *)
Fixpoint search (re : RegExp) (bef rst : text) : option matchResult :=
  match ms (re_ignoreCase re) (re_tree re) (MState bef rst []) with
  | s :: _ => Some (MatchResult (length bef) s)
  | [] =>
      match rst with
      | [] => None
      | c :: t => search re (c :: bef) t
      end
  end.

(** [re.exec(s)] on a fresh RegExp, and [s.match(re)] without the flag [g]. *)
Definition exec (re : RegExp) (s : text) : option matchResult :=
  search re [] s.

(** [re.test(s)] *)
Definition test (re : RegExp) (s : text) : bool :=
  match exec re s with Some _ => true | None => false end.

(** [s.match(re)] with the flag [g]: the texts of all matches, left to
    right; [None] for [null]. *)
Fixpoint matchAllFrom (re : RegExp) (fuel : nat) (bef rst : text) : list text :=
  match fuel with
  | 0 => []
  | S f =>
      match search re bef rst with
      | None => []
      | Some m =>
          let e := m_end m in
          if length (before e) =? m_index m
          then matched m :: match rest e with
                            | [] => []
                            | c :: t => matchAllFrom re f (c :: before e) t
                            end
          else matched m :: matchAllFrom re f (before e) (rest e)
      end
  end.

Definition matchAll (re : RegExp) (s : text) : option (list text) :=
  match matchAllFrom re (S (length s)) [] s with
  | [] => None
  | l => Some l
  end.

(** [s.replace(re, '')] without the flag [g]: the first match is removed. *)
Definition removeFirst (re : RegExp) (s : text) : text :=
  match exec re s with
  | None => s
  | Some m => firstn (m_index m) s ++ rest (m_end m)
  end.

(* ================================================================= *)
(** ** The data model of the hover provider *)

Record FieldInfo := mkField {
  f_name : text;
  f_type : text;
  f_number : number;
  f_label : option text;
  f_comment : option text
}.

Record EnumValueInfo := mkEnumValue {
  v_name : text;
  v_number : number;
  v_comment : option text
}.

Record EnumInfo := mkEnum {
  e_name : text;
  e_values : list EnumValueInfo;
  e_comment : option text;
  e_rawSource : text
}.

Inductive MessageInfo := mkMessage {
  m_name : text;
  m_fields : list FieldInfo;
  m_nestedMessages : list MessageInfo;
  m_nestedEnums : list EnumInfo;
  m_comment : option text;
  m_rawSource : text
}.

(** [MessageInfo | EnumInfo] *)
Inductive Info := IMessage (m : MessageInfo) | IEnum (e : EnumInfo).

(* ================================================================= *)
(** ** Code shared by the two revisions of proto3Hover.ts *)

(** A value is truthy when it is neither [undefined] nor the empty text. *)
Definition truthy (o : option text) : bool :=
  match o with
  | Some (_ :: _) => true
  | _ => false
  end.

Definition orEmpty (o : option text) : text :=
  match o with Some t => t | None => [] end.

Definition countChar (c : ascii) (s : text) : Z :=
  Z.of_nat (length (filter (Ascii.eqb c) s)).

(** The pattern of [startRegex] in [parseMessage]. *)
Definition messageStartPattern (messageName : text) : text :=
  str "((?:\/\/.*\n|\/\*[\s\S]*?\*\/\s*)*)\s*message\s+" ++ messageName
  ++ str "\s*\{".

(** The pattern of [enumRegex] in [parseEnum]. *)
Definition enumPattern (enumName : text) : text :=
  str "((?:\/\/.*\n|\/\*[\s\S]*?\*\/\s*)*)\s*enum\s+" ++ enumName
  ++ str "\s*\{([\s\S]*?)\n\s*\}".

Definition commentRe : RegExp := Eval vm_compute in
  literal "(\/\/.*|\/\*[\s\S]*?\*\/)".
Definition lineCommentStartRe : RegExp := Eval vm_compute in
  literal "^\/\/\s?".
Definition blockCommentStartRe : RegExp := Eval vm_compute in
  literal "^\/\*\s?".
Definition blockCommentEndRe : RegExp := Eval vm_compute in
  literal "\s?\*\/$".

(** [c.replace(/^\/\/\s?/, '').replace(/^\/\*\s?/, '').replace(/\s?\*\/$/, '').trim()] *)
Definition cleanComment (c : text) : text :=
  trim (removeFirst blockCommentEndRe
          (removeFirst blockCommentStartRe
             (removeFirst lineCommentStartRe c))).

(** The comment stored for the run of comments in front of a declaration;
    [None] when the run holds no comment. *)
Definition leadingComment (commentPart : text) : option text :=
  match matchAll commentRe commentPart with
  | Some l => Some (join [LF] (map cleanComment l))
  | None => None
  end.

(** The brace counter of [parseMessage]: the index of the closing brace that
    brings the count back to zero, scanning [s] whose first character has
    index [i]; -1 when there is none. *)
Fixpoint findClose (s : text) (i braceCount : Z) : Z :=
  match s with
  | [] => (-1)%Z
  | c :: t =>
      if Ascii.eqb c "{" then findClose t (i + 1)%Z (braceCount + 1)%Z
      else if Ascii.eqb c "}" then
             if (braceCount - 1 =? 0)%Z then i
             else findClose t (i + 1)%Z (braceCount - 1)%Z
      else findClose t (i + 1)%Z braceCount
  end.

Definition fieldRe : RegExp := Eval vm_compute in
  literal "^\s*(optional|required|repeated)?\s*(?:(map)\s*<\s*([^<>]+)\s*,\s*([^<>]+)\s*>|(\w+(?:\.\w+)*))\s+(\w+)\s*=\s*(\d+)(?:\s*\[([\s\w=,]+)\])?\s*;(?:\s*\/\/\s*(.*))?$".

Definition commentOf (allComments : list text) : option text :=
  match allComments with
  | [] => None
  | _ => Some (join [LF] allComments)
  end.

(** The field pushed for a line matched by [fieldRe]. *)
Definition fieldOfMatch (pendingComments : list text) (m : matchResult) : FieldInfo :=
  let label := group m 1 in
  let mapKeyword := group m 2 in
  let mapKey := group m 3 in
  let mapValue := group m 4 in
  let regularType := group m 5 in
  let inlineComment := group m 9 in
  let type :=
    if truthy mapKeyword && truthy mapKey && truthy mapValue
    then str "map<" ++ orEmpty mapKey ++ str ", " ++ orEmpty mapValue ++ str ">"
    else orEmpty regularType in
  let allComments :=
    if truthy inlineComment then pendingComments ++ [trim (orEmpty inlineComment)]
    else pendingComments in
  mkField (orEmpty (group m 6)) type (parseInt (orEmpty (group m 7)))
          (if truthy label then label else None)
          (commentOf allComments).

(** The loop state of the line walk of [parseMessage]. *)
Record walk := mkWalk {
  w_fields : list FieldInfo;
  w_nestedMessages : list MessageInfo;
  w_nestedEnums : list EnumInfo;
  w_pending : list text;
  w_depth : Z
}.

Definition lineDelta (line : text) : Z :=
  (countChar "{" line - countChar "}" line)%Z.

Definition isBlankOrBrace (trimmedLine : text) : bool :=
  match trimmedLine with
  | [] => true
  | _ => text_eqb trimmedLine (str "{") || text_eqb trimmedLine (str "}")
  end.

(** The standalone comment line [// ...]: the comment is kept when it is
    not empty. *)
Definition pushComment (pending : list text) (trimmedLine : text) : list text :=
  match trim (substringFrom trimmedLine 2) with
  | [] => pending
  | comment => pending ++ [comment]
  end.

(** The loop state of the line walk of [parseEnum]. *)
Record ewalk := mkEwalk {
  ew_values : list EnumValueInfo;
  ew_pending : list text
}.

Definition valueOfMatch (pendingComments : list text) (m : matchResult) : EnumValueInfo :=
  let inlineComment := group m 3 in
  let allComments :=
    if truthy inlineComment then pendingComments ++ [trim (orEmpty inlineComment)]
    else pendingComments in
  mkEnumValue (orEmpty (group m 1)) (parseInt (orEmpty (group m 2)))
              (commentOf allComments).

Section ParseEnum.

(** The two revisions differ in the pattern of [valueMatch] only. *)
Variable valueRe : RegExp.

Definition enumLine (w : ewalk) (line : text) : ewalk :=
  let trimmedLine := trim line in
  if startsWith trimmedLine (str "//") then
    mkEwalk (ew_values w) (pushComment (ew_pending w) trimmedLine)
  else if isBlankOrBrace trimmedLine then
    mkEwalk (ew_values w) []
  else
    match exec valueRe trimmedLine with
    | Some m => mkEwalk (ew_values w ++ [valueOfMatch (ew_pending w) m]) []
    | None => mkEwalk (ew_values w) []
    end.

Definition parseEnum (enumName content : text) : outcome EnumInfo :=
  enumRegex <- newRegExp (enumPattern enumName) false ;;
  match exec enumRegex content with
  | None => Ret (mkEnum enumName [] None [])
  | Some m =>
      match group m 1, group m 2 with
      | Some commentPart, Some body =>
          let w := fold_left enumLine (splitLines body) (mkEwalk [] []) in
          Ret (mkEnum enumName (ew_values w) (leadingComment commentPart)
                      (matched m))
      | _, _ => Throw TypeError
      end
  end.

End ParseEnum.

(** The part of [parseMessage] that both revisions share: locating the
    declaration and its closing brace. *)
Record located := mkLocated {
  l_startIndex : Z;
  l_openBraceIndex : Z;
  l_endIndex : Z;
  l_commentPart : option text     (* [startMatch[1]] *)
}.

Definition locate (startRegex : RegExp) (content : text) : option located :=
  match exec startRegex content with
  | None => None
  | Some startMatch =>
      let startIndex := Z.of_nat (m_index startMatch) in
      let openBraceIndex := (startIndex + lastIndexOf (matched startMatch) "{")%Z in
      let from := Z.max 0 openBraceIndex in
      let endIndex := findClose (skipn (Z.to_nat from) content) from 0 in
      Some (mkLocated startIndex openBraceIndex endIndex (group startMatch 1))
  end.

Definition bodyContentOf (content : text) (l : located) : text :=
  substring content (l_openBraceIndex l + 1) (l_endIndex l).

Definition rawSourceOf (content : text) (l : located) : text :=
  substring content (l_startIndex l) (l_endIndex l + 1).

Definition fieldLine (w : walk) (trimmedLine : text) : walk :=
  match exec fieldRe trimmedLine with
  | Some m =>
      mkWalk (w_fields w ++ [fieldOfMatch (w_pending w) m])
             (w_nestedMessages w) (w_nestedEnums w) [] (w_depth w)
  | None =>
      mkWalk (w_fields w) (w_nestedMessages w) (w_nestedEnums w) [] (w_depth w)
  end.

Definition addDepth (w : walk) (line : text) : walk :=
  mkWalk (w_fields w) (w_nestedMessages w) (w_nestedEnums w) (w_pending w)
         (w_depth w + lineDelta line).

Definition setPending (w : walk) (pending : list text) : walk :=
  mkWalk (w_fields w) (w_nestedMessages w) (w_nestedEnums w) pending (w_depth w).

(* ================================================================= *)
(** ** proto3Hover.ts, the revision with nested types and packages
       (src/unnamed/part_000) *)

Module Hover.

Definition valueRe : RegExp := Eval vm_compute in
  literal "^\s*(\w+)\s*=\s*(\d+)\s*;(?:\s*\/\/\s*(.*))?$".

Definition parseEnum : text -> text -> outcome EnumInfo :=
  parseEnum valueRe.

Definition nestedMessageRe : RegExp := Eval vm_compute in
  literal "^message\s+(\w+)\s*\{".
Definition nestedEnumRe : RegExp := Eval vm_compute in
  literal "^enum\s+(\w+)\s*\{".

Section ParseMessage.

(** The recursive call [this.parseMessage]. *)
Variable parseNested : text -> text -> outcome MessageInfo.

Definition messageLine (bodyContent : text) (w : walk) (line : text)
  : outcome walk :=
  let trimmedLine := trim line in
  w' <-
    (if startsWith trimmedLine (str "//") && (w_depth w =? 0)%Z then
       Ret (setPending w (pushComment (w_pending w) trimmedLine))
     else if isBlankOrBrace trimmedLine then
       Ret (if (w_depth w =? 0)%Z then setPending w [] else w)
     else if (w_depth w =? 0)%Z then
       match exec nestedMessageRe trimmedLine,
             exec nestedEnumRe trimmedLine with
       | Some nm, _ =>
           nestedInfo <- parseNested (orEmpty (group nm 1)) bodyContent ;;
           Ret (mkWalk (w_fields w) (w_nestedMessages w ++ [nestedInfo])
                       (w_nestedEnums w) [] (w_depth w))
       | None, Some ne =>
           nestedInfo <- parseEnum (orEmpty (group ne 1)) bodyContent ;;
           Ret (mkWalk (w_fields w) (w_nestedMessages w)
                       (w_nestedEnums w ++ [nestedInfo]) [] (w_depth w))
       | None, None => Ret (fieldLine w trimmedLine)
       end
     else Ret w) ;;
  Ret (addDepth w' line).

Fixpoint messageLines (bodyContent : text) (w : walk) (lines : list text)
  : outcome walk :=
  match lines with
  | [] => Ret w
  | line :: lines' =>
      w' <- messageLine bodyContent w line ;;
      messageLines bodyContent w' lines'
  end.

Definition parseMessageBody (messageName content : text)
  : outcome MessageInfo :=
  startRegex <- newRegExp (messageStartPattern messageName) false ;;
  match locate startRegex content with
  | None => Ret (mkMessage messageName [] [] [] None [])
  | Some l =>
      if (l_endIndex l =? -1)%Z then
        Ret (mkMessage messageName [] [] [] None [])
      else
        match l_commentPart l with
        | None => Throw TypeError
        | Some commentPart =>
            let bodyContent := bodyContentOf content l in
            w <- messageLines bodyContent (mkWalk [] [] [] [] 0)
                              (splitLines bodyContent) ;;
            Ret (mkMessage messageName (w_fields w) (w_nestedMessages w)
                           (w_nestedEnums w) (leadingComment commentPart)
                           (rawSourceOf content l))
        end
  end.

End ParseMessage.

(** The recursion of [parseMessage] goes through [bodyContent], which is
    shorter than [content]; the length of [content] bounds its depth. *)
Fixpoint parseMessageFuel (fuel : nat) (messageName content : text)
  : outcome MessageInfo :=
  match fuel with
  | 0 => parseMessageBody (fun _ _ => Diverged) messageName content
  | S f => parseMessageBody (parseMessageFuel f) messageName content
  end.

Definition parseMessage (messageName content : text) : outcome MessageInfo :=
  parseMessageFuel (length content) messageName content.

End Hover.

(* ================================================================= *)
(** ** proto3Hover.ts, the revision without nested types
       (src/src/proto3Hover.ts) *)

Module HoverFlat.

Definition valueRe : RegExp := Eval vm_compute in
  literal "^\s*(\w+)\s*=\s*(\d+)(?:\s*;\s*\/\/\s*(.*))?$".

Definition parseEnum : text -> text -> outcome EnumInfo :=
  parseEnum valueRe.

Definition messageLine (w : walk) (line : text) : walk :=
  let trimmedLine := trim line in
  let w' :=
    if startsWith trimmedLine (str "//") && (w_depth w =? 0)%Z then
      setPending w (pushComment (w_pending w) trimmedLine)
    else if isBlankOrBrace trimmedLine then
      (if (w_depth w =? 0)%Z then setPending w [] else w)
    else if (w_depth w =? 0)%Z then fieldLine w trimmedLine
    else w in
  addDepth w' line.

Definition parseMessage (messageName content : text) : outcome MessageInfo :=
  startRegex <- newRegExp (messageStartPattern messageName) false ;;
  match locate startRegex content with
  | None => Ret (mkMessage messageName [] [] [] None [])
  | Some l =>
      if (l_endIndex l =? -1)%Z then
        Ret (mkMessage messageName [] [] [] None [])
      else
        match l_commentPart l with
        | None => Throw TypeError
        | Some commentPart =>
            let bodyContent := bodyContentOf content l in
            let w := fold_left messageLine (splitLines bodyContent)
                               (mkWalk [] [] [] [] 0) in
            Ret (mkMessage messageName (w_fields w) [] []
                           (leadingComment commentPart)
                           (rawSourceOf content l))
        end
  end.

End HoverFlat.

(* ================================================================= *)
(** ** Files and candidate lists *)

Definition path := text.

(** [fs.readFileSync]: [None] when the read fails. *)
Definition fileSystem := path -> option text.

(** What a resolution query gets from its collaborators: the path of the
    requesting document, the files found for its import statements
    ([fg(searchPaths)]) and, for every configured search root in order, the
    [*.proto] files found under it. *)
Record query := mkQuery {
  q_document : path;
  q_imported : list path;
  q_scanned : list (list path)
}.

(** [files] after the loop over [protoPaths]. *)
Definition candidateFiles (q : query) : list path :=
  (q_document q :: q_imported q) ++ concat (q_scanned q).

(** [Array.from(new Set(files))]: the first occurrence of every path, in
    order. *)
Fixpoint uniqueFrom (seen files : list path) : list path :=
  match files with
  | [] => []
  | f :: files' =>
      if existsb (text_eqb f) seen then uniqueFrom seen files'
      else f :: uniqueFrom (f :: seen) files'
  end.

Definition uniqueFiles (q : query) : list path := uniqueFrom [] (candidateFiles q).

(** [Array.prototype.find] *)
Fixpoint findFirst {A} (p : A -> bool) (l : list A) : option A :=
  match l with
  | [] => None
  | x :: l' => if p x then Some x else findFirst p l'
  end.

Definition packageNameRe : RegExp := Eval vm_compute in
  literal "package\s+([^;]+);".
Definition messageOpenersRe : RegExp := Eval vm_compute in
  literal "\bmessage\s+(\w+)\s*{".
Definition enumOpenersRe : RegExp := Eval vm_compute in
  literal "\benum\s+(\w+)\s*{".
Definition messageNameRe : RegExp := Eval vm_compute in
  literal "message\s+(\w+)\s*{".
Definition enumNameRe : RegExp := Eval vm_compute in
  literal "enum\s+(\w+)\s*{".

(** The loop over candidate files of [getMessageOrEnumInfo]: the body runs
    inside [try], a file that cannot be read or whose processing throws is
    skipped. *)
Section HoverCandidates.

Variable fs : fileSystem.
Variable inFile : text -> outcome (option Info).

Fixpoint hoverLoop (files : list path) : outcome (option Info) :=
  match files with
  | [] => Ret None
  | file :: files' =>
      match fs file with
      | None => hoverLoop files'
      | Some content =>
          match inFile content with
          | Ret (Some info) => Ret (Some info)
          | Ret None => hoverLoop files'
          | Throw _ => hoverLoop files'
          | Unsupported => Unsupported
          | Diverged => Diverged
          end
      end
  end.

End HoverCandidates.

Module HoverResolver.
Import Hover.

(** [{ ...nested, name: `${info.name}.${nested.name}` }] *)
Definition qualify (parent : text) (i : Info) : Info :=
  match i with
  | IMessage m =>
      IMessage (mkMessage (parent ++ str "." ++ m_name m) (m_fields m)
                          (m_nestedMessages m) (m_nestedEnums m)
                          (m_comment m) (m_rawSource m))
  | IEnum e =>
      IEnum (mkEnum (parent ++ str "." ++ e_name e) (e_values e)
                    (e_comment e) (e_rawSource e))
  end.

(** The loop over [matchParts[1..]]; [None] when [found] ends up false. *)
Fixpoint descend (info : Info) (names : list text) : option Info :=
  match names with
  | [] => Some info
  | nextName :: names' =>
      match info with
      | IMessage m =>
          match findFirst (fun n => text_eqb (m_name n) nextName)
                          (m_nestedMessages m) with
          | Some nestedMsg =>
              descend (qualify (m_name m) (IMessage nestedMsg)) names'
          | None =>
              match findFirst (fun e => text_eqb (e_name e) nextName)
                              (m_nestedEnums m) with
              | Some nestedEnum =>
                  descend (qualify (m_name m) (IEnum nestedEnum)) names'
              | None => None
              end
          end
      | IEnum _ => None
      end
  end.

Section InFile.

Variable targetName : text.
Variable content : text.

Definition packageName : text :=
  match exec packageNameRe content with
  | Some m => orEmpty (group m 1)
  | None => []
  end.

Definition stripsPackage : bool :=
  match packageName with
  | [] => false
  | _ => startsWith targetName (packageName ++ str ".")
  end.

Definition matchParts : list text :=
  if stripsPackage
  then splitOn "." (substringFrom targetName (length packageName + 1))
  else splitOn "." targetName.

Definition matchRoot : text := hd [] matchParts.

Definition fullNameOf (simpleName : text) : text :=
  match packageName with
  | [] => simpleName
  | _ => packageName ++ str "." ++ simpleName
  end.

(** The loop over [messageMatch]. *)
Fixpoint messageCandidates (matches : list text) : outcome (option Info) :=
  match matches with
  | [] => Ret None
  | mt :: matches' =>
      match exec messageNameRe mt with
      | Some name =>
          if truthy (group name 1) then
            let messageName := orEmpty (group name 1) in
            let fullName := fullNameOf messageName in
            if text_eqb messageName matchRoot || text_eqb fullName targetName
               || text_eqb fullName matchRoot then
              info <- parseMessage messageName content ;;
              if text_eqb fullName targetName then Ret (Some (IMessage info))
              else if (1 <? length matchParts) && text_eqb messageName matchRoot then
                match descend (IMessage info) (tl matchParts) with
                | Some found => Ret (Some found)
                | None => messageCandidates matches'
                end
              else if text_eqb messageName matchRoot && (length matchParts =? 1) then
                Ret (Some (IMessage info))
              else messageCandidates matches'
            else messageCandidates matches'
          else messageCandidates matches'
      | None => messageCandidates matches'
      end
  end.

(** The loop over [enumMatch]. *)
Fixpoint enumCandidates (matches : list text) : outcome (option Info) :=
  match matches with
  | [] => Ret None
  | mt :: matches' =>
      match exec enumNameRe mt with
      | Some name =>
          if truthy (group name 1) then
            let enumName := orEmpty (group name 1) in
            let fullName := fullNameOf enumName in
            if (text_eqb enumName matchRoot || text_eqb fullName targetName
                || text_eqb fullName matchRoot) && (length matchParts =? 1) then
              e <- parseEnum enumName content ;;
              Ret (Some (IEnum e))
            else enumCandidates matches'
          else enumCandidates matches'
      | None => enumCandidates matches'
      end
  end.

(** The body of the [try] block for one candidate file. *)
Definition infoInFile : outcome (option Info) :=
  r <- match matchAll messageOpenersRe content with
       | Some matches => messageCandidates matches
       | None => Ret None
       end ;;
  match r with
  | Some info => Ret (Some info)
  | None =>
      match matchAll enumOpenersRe content with
      | Some matches => enumCandidates matches
      | None => Ret None
      end
  end.

End InFile.

Definition getMessageOrEnumInfo (fs : fileSystem) (q : query) (targetName : text)
  : outcome (option Info) :=
  hoverLoop fs (infoInFile targetName) (uniqueFiles q).

End HoverResolver.

Module HoverFlatResolver.
Import HoverFlat.

Section InFile.

Variable targetName : text.
Variable content : text.

Fixpoint messageCandidates (matches : list text) : outcome (option Info) :=
  match matches with
  | [] => Ret None
  | mt :: matches' =>
      match exec messageNameRe mt with
      | Some name =>
          match group name 1 with
          | Some n =>
              if text_eqb n targetName then
                info <- parseMessage targetName content ;;
                Ret (Some (IMessage info))
              else messageCandidates matches'
          | None => messageCandidates matches'
          end
      | None => messageCandidates matches'
      end
  end.

Fixpoint enumCandidates (matches : list text) : outcome (option Info) :=
  match matches with
  | [] => Ret None
  | mt :: matches' =>
      match exec enumNameRe mt with
      | Some name =>
          match group name 1 with
          | Some n =>
              if text_eqb n targetName then
                e <- parseEnum targetName content ;;
                Ret (Some (IEnum e))
              else enumCandidates matches'
          | None => enumCandidates matches'
          end
      | None => enumCandidates matches'
      end
  end.

Definition infoInFile : outcome (option Info) :=
  r <- match matchAll messageOpenersRe content with
       | Some matches => messageCandidates matches
       | None => Ret None
       end ;;
  match r with
  | Some info => Ret (Some info)
  | None =>
      match matchAll enumOpenersRe content with
      | Some matches => enumCandidates matches
      | None => Ret None
      end
  end.

End InFile.

Definition getMessageOrEnumInfo (fs : fileSystem) (q : query) (targetName : text)
  : outcome (option Info) :=
  hoverLoop fs (infoInFile targetName) (uniqueFiles q).

End HoverFlatResolver.

(* ================================================================= *)
(** ** proto3Definition.ts *)

Module DefinitionProvider.

(** [vscode.Location]: the file and the range of the name token, which
    lies on one line. *)
Record Location := mkLocation {
  loc_file : path;
  loc_line : Z;
  loc_start : Z;
  loc_end : Z
}.

Definition packageLineRe : RegExp := Eval vm_compute in
  literal "^\s*package\s+([\w.]+)\s*;".
Definition lineCommentRe : RegExp := Eval vm_compute in
  literal "\/\/.*$".
Definition blockCommentRe : RegExp := Eval vm_compute in
  literal "\/\*.*\*\/".

Definition getTargetLocationInline (filePath : path) (lineIndex : Z)
           (line target : text) (definitionRegexMatch : matchResult) : Location :=
  let matchedStr := matched definitionRegexMatch in
  let index := (indexOf line matchedStr + indexOf matchedStr target)%Z in
  mkLocation filePath lineIndex index (index + Z.of_nat (length target)).

(** The loop of [findBlockEnd] over [lines] whose first line has index [i]. *)
Fixpoint blockEndLoop (lines : list text) (i braceCount total : Z) : Z :=
  match lines with
  | [] => total
  | line :: lines' =>
      let cleanLine := removeFirst blockCommentRe (removeFirst lineCommentRe line) in
      let braceCount' := (braceCount + (countChar "{" cleanLine
                                        - countChar "}" cleanLine))%Z in
      if (braceCount' <=? 0)%Z then i
      else blockEndLoop lines' (i + 1) braceCount' total
  end.

Definition findBlockEnd (lines : list text) (startLine : Z) : Z :=
  blockEndLoop (skipn (Z.to_nat startLine) lines) startLine 0
               (Z.of_nat (length lines)).

Definition definitionPattern (currentPart : text) : text :=
  str "\s*(message|enum|service)\s+" ++ currentPart ++ str "\s*\{".

(** [lines[i]] followed by a method call: a [TypeError] when the index is
    out of range. *)
Definition lineAtIndex (lines : list text) (i : Z) : outcome text :=
  match (if (i <? 0)%Z then None else nth_error lines (Z.to_nat i)) with
  | Some l => Ret l
  | None => Throw TypeError
  end.

Fixpoint findNestedDefinition (lines : list text) (parts : list text)
         (filePath : path) (startLine endLine : Z) : outcome (option Location) :=
  let endLine := if (endLine =? -1)%Z then Z.of_nat (length lines) else endLine in
  match parts with
  | [] => Ret None
  | currentPart :: remainingParts =>
      (fix loop (fuel : nat) (i : Z) {struct fuel} : outcome (option Location) :=
         match fuel with
         | 0 => Diverged
         | S fuel' =>
             if (i <? endLine)%Z then
               line <- lineAtIndex lines i ;;
               if startsWith (trim line) (str "//") then loop fuel' (i + 1)%Z
               else
                 definitionRegex <- newRegExp (definitionPattern currentPart) false ;;
                 match exec definitionRegex line with
                 | Some m =>
                     match remainingParts with
                     | [] => Ret (Some (getTargetLocationInline filePath i line
                                                                currentPart m))
                     | _ =>
                         let blockEnd := findBlockEnd lines i in
                         let actualEnd := Z.min blockEnd endLine in
                         innerLocation <- findNestedDefinition lines remainingParts
                                            filePath (i + 1) actualEnd ;;
                         match innerLocation with
                         | Some l => Ret (Some l)
                         | None => loop fuel' (blockEnd + 1)%Z
                         end
                     end
                 | None => loop fuel' (i + 1)%Z
                 end
             else Ret None
         end) (S (Z.to_nat (endLine - startLine))) startLine
  end.

Definition simplePattern (target : text) : text :=
  str "\s*(message|enum)\s*" ++ target ++ str "\s*{".

(** The loop over the lines of a file for a reference without a dot. *)
Fixpoint simpleLoop (filePath : path) (target : text) (lines : list text)
         (lineIndex : Z) : outcome (option Location) :=
  match lines with
  | [] => Ret None
  | line :: lines' =>
      re <- newRegExp (simplePattern target) false ;;
      match exec re line with
      | Some m => Ret (Some (getTargetLocationInline filePath lineIndex line target m))
      | None => simpleLoop filePath target lines' (lineIndex + 1)
      end
  end.

Fixpoint packageOfLines (lines : list text) : text :=
  match lines with
  | [] => []
  | line :: lines' =>
      match exec packageLineRe line with
      | Some m => orEmpty (group m 1)
      | None => packageOfLines lines'
      end
  end.

(** [parts] after the package prefix of the file has been taken off. *)
Definition relativeParts (packageName target : text) : list text :=
  let parts := splitOn "." target in
  match packageName with
  | [] => parts
  | _ =>
      if startsWith target (packageName ++ str ".") then
        let packageParts := splitOn "." packageName in
        if forallb (fun pq => text_eqb (fst pq) (snd pq))
                   (combine (firstn (length packageParts) parts) packageParts)
           && (length packageParts <=? length parts)
        then skipn (length packageParts) parts
        else parts
      else parts
  end.

(** The body of the loop over candidate files for one file that was read. *)
Definition definitionInFile (file : path) (data target : text)
  : outcome (option Location) :=
  let lines := splitLines data in
  let packageName := packageOfLines lines in
  if includes target (str ".") then
    findNestedDefinition lines (relativeParts packageName target) file 0 (-1)
  else simpleLoop file target lines 0.

(** The loop over candidate files: [fs.readFileSync] is not guarded here. *)
Fixpoint definitionLoop (fs : fileSystem) (target : text) (files : list path)
  : outcome (option Location) :=
  match files with
  | [] => Ret None
  | file :: files' =>
      match fs file with
      | None => Throw IOError
      | Some data =>
          r <- definitionInFile file data target ;;
          match r with
          | Some location => Ret (Some location)
          | None => definitionLoop fs target files'
          end
      end
  end.

Definition findEnumOrMessageDefinition (fs : fileSystem) (q : query) (target : text)
  : outcome (option Location) :=
  definitionLoop fs target (uniqueFiles q).

End DefinitionProvider.

(* ================================================================= *)
(** ** The enum value branch of [provideHover] *)

(** [document.lineAt(line).text]: the line without its terminator. *)
Definition stripCR (l : text) : text :=
  match rev l with
  | c :: r => if Ascii.eqb c (ascii_of_nat 13) then rev r else l
  | [] => l
  end.

Definition lineText (content : text) (line : nat) : text :=
  stripCR (nth line (splitLines content) []).

Definition enumValuePattern (targetWord : text) : text :=
  str "^\s*(" ++ targetWord ++ str ")\s*=\s*\d+".

Section EnumValueHover.

(** [parseEnum] of the revision at hand. *)
Variable parseEnumOf : text -> text -> outcome EnumInfo.

(** The loop of [getContainingEnum] over the lines [0 .. line]. *)
Fixpoint containingLoop (content : text) (lines : list text) (n : nat)
         (currentEnum : option EnumInfo) (inEnum : bool)
  : outcome (option EnumInfo) :=
  match n with
  | 0 => Ret currentEnum
  | S n' =>
      match lines with
      | [] => Throw TypeError
      | l :: lines' =>
          let trimmedLine := trim l in
          if startsWith trimmedLine (str "enum ") then
            match exec enumNameRe trimmedLine with
            | Some m =>
                e <- parseEnumOf (orEmpty (group m 1)) content ;;
                containingLoop content lines' n' (Some e) true
            | None => containingLoop content lines' n' currentEnum inEnum
            end
          else if inEnum && text_eqb trimmedLine (str "}") then
            containingLoop content lines' n' None false
          else containingLoop content lines' n' currentEnum inEnum
      end
  end.

Definition getContainingEnum (content : text) (line : nat)
  : outcome (option EnumInfo) :=
  containingLoop content (splitLines content) (S line) None false.

(** Lines 118-128 of [provideHover]: the enum and the value shown for
    the word under the cursor, [None] when this branch shows nothing. *)
Definition enumValueHover (content : text) (line : nat) (targetWord : text)
  : outcome (option (EnumInfo * EnumValueInfo)) :=
  enumValueRegex <- newRegExp (enumValuePattern targetWord) true ;;
  if test enumValueRegex (lineText content line) then
    enumInfo <- getContainingEnum content line ;;
    match enumInfo with
    | Some e =>
        match findFirst (fun v => text_eqb (v_name v) targetWord) (e_values e) with
        | Some enumValue => Ret (Some (e, enumValue))
        | None => Ret None
        end
    | None => Ret None
    end
  else Ret None.

End EnumValueHover.

(* ================================================================= *)
(** ** [getContainingMessage] (the same in both revisions of
       proto3Hover.ts) *)

Definition commentTailRe : RegExp := Eval vm_compute in
  literal "\/\/.*$".
Definition messageOpenerRe : RegExp := Eval vm_compute in
  literal "\bmessage\s+(\w+)\s*\{".

(** An entry of [messageStack]. *)
Record openMessage := mkOpenMessage {
  o_name : text;
  o_depth : Z
}.

(** The [while] loop that pops the messages that are closed, on the stack
    read from its top. *)
Fixpoint popClosed (currentDepth : Z) (fromTop : list openMessage)
  : list openMessage :=
  match fromTop with
  | top :: below =>
      if (currentDepth <=? o_depth top)%Z then popClosed currentDepth below
      else fromTop
  | [] => []
  end.

(** [messageStack] is an array: the top of the stack is its last entry. *)
Definition closeMessages (currentDepth : Z) (messageStack : list openMessage)
  : list openMessage :=
  rev (popClosed currentDepth (rev messageStack)).

(** [codeLine], and what one line adds to [currentDepth]. *)
Definition codeLineOf (lineText : text) : text := removeFirst commentTailRe lineText.

Definition braceDelta (codeLine : text) : Z :=
  (countChar "{" codeLine - countChar "}" codeLine)%Z.

(** One turn of the loop over the lines. *)
Definition stackStep (messageStack : list openMessage) (currentDepth : Z)
           (lineText : text) : list openMessage * Z :=
  let codeLine := codeLineOf lineText in
  let pushed :=
    match exec messageOpenerRe codeLine with
    | Some messageMatch =>
        messageStack ++ [mkOpenMessage (orEmpty (group messageMatch 1)) currentDepth]
    | None => messageStack
    end in
  let currentDepth' := (currentDepth + braceDelta codeLine)%Z in
  (closeMessages currentDepth' pushed, currentDepth').

(** The loop over the lines [0 .. line]: [lines[i]] is [undefined] past the
    last line, and the call of [replace] on it throws. *)
Fixpoint messageStackLoop (lines : list text) (n : nat)
         (messageStack : list openMessage) (currentDepth : Z)
  : outcome (list openMessage) :=
  match n with
  | 0 => Ret messageStack
  | S n' =>
      match lines with
      | [] => Throw TypeError
      | lineText :: lines' =>
          let (messageStack', currentDepth') :=
            stackStep messageStack currentDepth lineText in
          messageStackLoop lines' n' messageStack' currentDepth'
      end
  end.

Section ContainingMessage.

(** [parseMessage] of the revision at hand. *)
Variable parseMessageOf : text -> text -> outcome MessageInfo.

Definition getContainingMessage (content : text) (line : nat)
  : outcome (option MessageInfo) :=
  messageStack <- messageStackLoop (splitLines content) (S line) [] 0 ;;
  match rev messageStack with
  | lastMessage :: _ =>
      info <- parseMessageOf (o_name lastMessage) content ;;
      Ret (Some info)
  | [] => Ret None
  end.

End ContainingMessage.

(* ================================================================= *)
(** ** proto3Configuration.ts: the protoc options and the search roots *)

Module Configuration.

Definition isProtoPathOption (opt : text) : bool :=
  startsWith opt (str "--proto_path") || startsWith opt (str "-I").

(** [null] is [None]. *)
Definition extractProtoPathValue (opt : text) : option text :=
  if startsWith opt (str "--proto_path=") then
    Some (substringFrom opt (length (str "--proto_path=")))
  else if startsWith opt (str "-I") && (2 <? length opt) then
    Some (substringFrom opt 2)
  else None.

(** [set.has(x)] for a set of strings kept as the list of its members. *)
Definition has (set : list text) (x : text) : bool := existsb (text_eqb x) set.

(** The three accumulators of [processOptions]. *)
Record merge := mkMerge {
  mergedOptions : list text;
  seenProtoPaths : list text;
  seenOtherOptions : list text
}.

Definition processOption (acc : merge) (opt : text) : merge :=
  if isProtoPathOption opt then
    match extractProtoPathValue opt with
    | Some pathValue =>
        if truthy (Some pathValue) && negb (has (seenProtoPaths acc) pathValue) then
          mkMerge (mergedOptions acc ++ [opt])
                  (seenProtoPaths acc ++ [pathValue])
                  (seenOtherOptions acc)
        else acc
    | None => acc
    end
  else if negb (has (seenOtherOptions acc) opt) then
    mkMerge (mergedOptions acc ++ [opt])
            (seenProtoPaths acc)
            (seenOtherOptions acc ++ [opt])
  else acc.

Definition processOptions (options : list text) (acc : merge) : merge :=
  fold_left processOption options acc.

(** [getMergedProtocOptions]; [currentOptions] and [workspaceOptions] are
    the resolved values of the setting [protoc.options] for the workspace
    folder and for the workspace. *)
Definition getMergedProtocOptions (currentOptions workspaceOptions : list text)
  : list text :=
  mergedOptions
    (processOptions currentOptions
       (processOptions workspaceOptions (mkMerge [] [] []))).

Definition getProtoPathOptions (currentOptions workspaceOptions : list text)
  : list text :=
  filter (fun opt => startsWith opt (str "--proto_path") || startsWith opt (str "-I"))
         (getMergedProtocOptions currentOptions workspaceOptions).

(** [getProtocArgFiles] for the resolved value [args] of [protoc.options]. *)
Definition getProtocArgFiles (args : list text) : list text :=
  filter (fun arg => negb (startsWith arg (str "-"))) args.

(** The first loop of [getAllProtoPathsForImport]: the paths named by the
    options, where a lone [-I] takes the option that follows it. *)
Fixpoint pathsOfOptions (protoPathOptions : list text) : list text :=
  match protoPathOptions with
  | [] => []
  | opt :: rest =>
      if startsWith opt (str "--proto_path=") then
        let protoPath := substringFrom opt (length (str "--proto_path=")) in
        (if truthy (Some protoPath) then [protoPath] else []) ++ pathsOfOptions rest
      else if startsWith opt (str "-I") && (2 <? length opt) then
        let pathValue := substringFrom opt 2 in
        (if truthy (Some pathValue) then [pathValue] else []) ++ pathsOfOptions rest
      else if text_eqb opt (str "-I") then
        match rest with
        | nextOption :: rest' =>
            if negb (startsWith nextOption (str "-"))
            then nextOption :: pathsOfOptions rest'
            else pathsOfOptions rest
        | [] => []
        end
      else pathsOfOptions rest
  end.

Section SearchRoots.

(** [vscode.workspace.rootPath], [process.cwd()] and the functions of the
    module [path]. *)
Variable workspaceRoot : option text.
Variable cwd : text.
Variable isAbsolute : text -> bool.
Variable resolve : text -> text.
Variable resolveFrom : text -> text -> text.

Definition resolveSearchPath (searchPath : text) : text :=
  if isAbsolute searchPath then resolve searchPath
  else if truthy workspaceRoot then resolveFrom (orEmpty workspaceRoot) searchPath
  else resolveFrom cwd searchPath.

(** [uniquePaths.add(p)]: a set keeps its members in the order in which
    they were added. *)
Definition add (set : list text) (p : text) : list text :=
  if has set p then set else set ++ [p].

Definition getAllProtoPathsForImport (currentOptions workspaceOptions : list text)
  : list text :=
  let paths :=
    (if truthy workspaceRoot then [orEmpty workspaceRoot] else [])
    ++ pathsOfOptions (getProtoPathOptions currentOptions workspaceOptions) in
  fold_left (fun uniquePaths searchPath => add uniquePaths (resolveSearchPath searchPath))
            paths [].

End SearchRoots.

End Configuration.

(* ================================================================= *)
(** * Properties *)

(* ================================================================= *)
(** ** Candidate order *)

Lemma text_eqb_refl (a : text) : text_eqb a a = true.
Proof.
  induction a as [|c a IH]; simpl; [reflexivity|].
  now rewrite Ascii.eqb_refl, IH.
Qed.

Lemma text_eqb_eq (a b : text) : text_eqb a b = true <-> a = b.
Proof.
  split.
  - revert b; induction a as [|c a IH]; intros [|d b]; simpl; try discriminate; auto.
    intros H; apply andb_true_iff in H as [H1 H2].
    apply Ascii.eqb_eq in H1; subst; f_equal; auto.
  - intros ->; apply text_eqb_refl.
Qed.

Lemma existsb_text_eqb_In (f : path) (seen : list path) :
  existsb (text_eqb f) seen = true -> In f seen.
Proof.
  intros H; apply existsb_exists in H as [g [Hin Heq]].
  apply text_eqb_eq in Heq; now subst.
Qed.

Section HoverOrder.

Variable fs : fileSystem.
Variable inFile : text -> outcome (option Info).

(** A candidate after which the hover loop goes on to the next one. *)
Definition hoverSkips (file : path) : Prop :=
  match fs file with
  | None => True
  | Some content =>
      inFile content = Ret None \/ exists e, inFile content = Throw e
  end.

Lemma hoverLoop_skip (file : path) (files : list path) :
  hoverSkips file ->
  hoverLoop fs inFile (file :: files) = hoverLoop fs inFile files.
Proof.
  unfold hoverSkips; simpl; destruct (fs file) as [content|]; [|reflexivity].
  intros [H | [e H]]; now rewrite H.
Qed.

Lemma hoverLoop_skip_all (pre files : list path) :
  Forall hoverSkips pre ->
  hoverLoop fs inFile (pre ++ files) = hoverLoop fs inFile files.
Proof.
  induction 1 as [|g pre Hg _ IH]; [reflexivity|].
  rewrite <- app_comm_cons, hoverLoop_skip; assumption.
Qed.

Lemma hoverLoop_found (file : path) (files : list path) content info :
  fs file = Some content -> inFile content = Ret (Some info) ->
  hoverLoop fs inFile (file :: files) = Ret (Some info).
Proof. intros H1 H2; simpl; now rewrite H1, H2. Qed.

(** Dropping repeated paths does not change what the loop returns: a path
    is only reached again when it was skipped the first time. *)
Lemma hoverLoop_uniqueFrom (files seen : list path) :
  Forall hoverSkips seen ->
  hoverLoop fs inFile (uniqueFrom seen files) = hoverLoop fs inFile files.
Proof.
  revert seen; induction files as [|f files IH]; intros seen Hseen; [reflexivity|].
  simpl uniqueFrom.
  destruct (existsb (text_eqb f) seen) eqn:E.
  - apply existsb_text_eqb_In in E.
    rewrite Forall_forall in Hseen.
    rewrite hoverLoop_skip by (apply Hseen; exact E).
    apply IH; now apply Forall_forall.
  - simpl; destruct (fs f) as [content|] eqn:Ef.
    + destruct (inFile content) as [[info|]|e| |] eqn:Ei; try reflexivity;
        apply IH; constructor; auto; unfold hoverSkips; rewrite Ef; eauto.
    + apply IH; constructor; auto; unfold hoverSkips; now rewrite Ef.
Qed.

End HoverOrder.

Section DefinitionOrder.
Import DefinitionProvider.

Variable fs : fileSystem.
Variable target : text.

(** A candidate that is read and holds no definition of the target. *)
Definition definitionSkips (file : path) : Prop :=
  exists data, fs file = Some data /\ definitionInFile file data target = Ret None.

Lemma definitionLoop_skip (file : path) (files : list path) :
  definitionSkips file ->
  definitionLoop fs target (file :: files) = definitionLoop fs target files.
Proof. intros [data [H1 H2]]; simpl; now rewrite H1, H2. Qed.

Lemma definitionLoop_skip_all (pre files : list path) :
  Forall definitionSkips pre ->
  definitionLoop fs target (pre ++ files) = definitionLoop fs target files.
Proof.
  induction 1 as [|g pre Hg _ IH]; [reflexivity|].
  rewrite <- app_comm_cons, definitionLoop_skip; assumption.
Qed.

Lemma definitionLoop_found (file : path) (files : list path) data location :
  fs file = Some data -> definitionInFile file data target = Ret (Some location) ->
  definitionLoop fs target (file :: files) = Ret (Some location).
Proof. intros H1 H2; simpl; now rewrite H1, H2. Qed.

Lemma definitionLoop_uniqueFrom (files seen : list path) :
  Forall definitionSkips seen ->
  definitionLoop fs target (uniqueFrom seen files) = definitionLoop fs target files.
Proof.
  revert seen; induction files as [|f files IH]; intros seen Hseen; [reflexivity|].
  simpl uniqueFrom.
  destruct (existsb (text_eqb f) seen) eqn:E.
  - apply existsb_text_eqb_In in E.
    rewrite Forall_forall in Hseen.
    rewrite definitionLoop_skip by (apply Hseen; exact E).
    apply IH; now apply Forall_forall.
  - simpl; destruct (fs f) as [data|] eqn:Ef; [|reflexivity].
    destruct (definitionInFile f data target) as [[location|]|e| |] eqn:Ei;
      try reflexivity.
    simpl; apply IH; constructor; auto; exists data; auto.
Qed.

End DefinitionOrder.

(** The candidates in priority order, repetitions included. *)
Definition inPriorityOrder (q : query) : list path :=
  q_document q :: q_imported q ++ concat (q_scanned q).

Lemma candidateFiles_priority (q : query) : candidateFiles q = inPriorityOrder q.
Proof. reflexivity. Qed.

(** C1. Both resolvers go through the requesting document, then the files of
    its import statements, then the files found under the search roots, and
    return what the first candidate with a match gives. So a definition in
    an imported file is returned whatever the scan of the search roots
    holds, when the document and the imports in front of that file have no
    match. *)
Theorem imported_definition_takes_precedence :
  forall (fs : fileSystem) (q : query) (target : text)
         (i1 i2 : list path) (f : path),
    q_imported q = i1 ++ f :: i2 ->
    (HoverResolver.getMessageOrEnumInfo fs q target
       = hoverLoop fs (HoverResolver.infoInFile target) (inPriorityOrder q)
     /\ HoverFlatResolver.getMessageOrEnumInfo fs q target
       = hoverLoop fs (HoverFlatResolver.infoInFile target) (inPriorityOrder q)
     /\ DefinitionProvider.findEnumOrMessageDefinition fs q target
       = DefinitionProvider.definitionLoop fs target (inPriorityOrder q))
    /\ (forall content info,
          Forall (hoverSkips fs (HoverResolver.infoInFile target)) (q_document q :: i1) ->
          fs f = Some content ->
          HoverResolver.infoInFile target content = Ret (Some info) ->
          HoverResolver.getMessageOrEnumInfo fs q target = Ret (Some info))
    /\ (forall content info,
          Forall (hoverSkips fs (HoverFlatResolver.infoInFile target)) (q_document q :: i1) ->
          fs f = Some content ->
          HoverFlatResolver.infoInFile target content = Ret (Some info) ->
          HoverFlatResolver.getMessageOrEnumInfo fs q target = Ret (Some info))
    /\ (forall data location,
          Forall (definitionSkips fs target) (q_document q :: i1) ->
          fs f = Some data ->
          DefinitionProvider.definitionInFile f data target = Ret (Some location) ->
          DefinitionProvider.findEnumOrMessageDefinition fs q target
            = Ret (Some location)).
Proof.
  intros fs q target i1 i2 f Himp.
  assert (Hsplit : inPriorityOrder q
                   = (q_document q :: i1) ++ f :: (i2 ++ concat (q_scanned q))).
  { unfold inPriorityOrder; rewrite Himp, <- app_assoc; reflexivity. }
  assert (E1 : HoverResolver.getMessageOrEnumInfo fs q target
               = hoverLoop fs (HoverResolver.infoInFile target) (inPriorityOrder q)).
  { unfold HoverResolver.getMessageOrEnumInfo, uniqueFiles.
    rewrite hoverLoop_uniqueFrom by constructor; now rewrite candidateFiles_priority. }
  assert (E2 : HoverFlatResolver.getMessageOrEnumInfo fs q target
               = hoverLoop fs (HoverFlatResolver.infoInFile target) (inPriorityOrder q)).
  { unfold HoverFlatResolver.getMessageOrEnumInfo, uniqueFiles.
    rewrite hoverLoop_uniqueFrom by constructor; now rewrite candidateFiles_priority. }
  assert (E3 : DefinitionProvider.findEnumOrMessageDefinition fs q target
               = DefinitionProvider.definitionLoop fs target (inPriorityOrder q)).
  { unfold DefinitionProvider.findEnumOrMessageDefinition, uniqueFiles.
    rewrite definitionLoop_uniqueFrom by constructor;
      now rewrite candidateFiles_priority. }
  split; [auto|]. split; [|split].
  - intros content info Hpre Hf Hinfo.
    rewrite E1, Hsplit, hoverLoop_skip_all by assumption.
    eapply hoverLoop_found; eassumption.
  - intros content info Hpre Hf Hinfo.
    rewrite E2, Hsplit, hoverLoop_skip_all by assumption.
    eapply hoverLoop_found; eassumption.
  - intros data location Hpre Hf Hloc.
    rewrite E3, Hsplit, definitionLoop_skip_all by assumption.
    eapply definitionLoop_found; eassumption.
Qed.

(** A workspace in which [message Status] is declared twice: in a file the
    document imports, and in a file only the scan of the search root finds
    (and finds first). *)
Module StatusWorkspace.

Definition apiPath : path := str "/ws/api.proto".
Definition importedPath : path := str "/ws/protos/common/status.proto".
Definition vendorPath : path := str "/ws/vendor/status.proto".

Definition apiText : text :=
  str "import " ++ DQ :: str "common/status.proto" ++ DQ :: str ";" ++ LF ::
  str "message Reply {" ++ LF ::
  str "  Status status = 1;" ++ LF ::
  str "}".

Definition importedText : text :=
  str "// imported" ++ LF :: str "message Status {}".

Definition vendorText : text := str "message Status {}".

Definition fs : fileSystem := fun p =>
  if text_eqb p apiPath then Some apiText
  else if text_eqb p importedPath then Some importedText
  else if text_eqb p vendorPath then Some vendorText
  else None.

Definition q : query :=
  mkQuery apiPath [importedPath] [[vendorPath; apiPath; importedPath]].

Definition importedInfo : Info :=
  IMessage (mkMessage (str "Status") [] [] [] (Some (str "imported"))
                      importedText).

Definition importedLocation : DefinitionProvider.Location :=
  DefinitionProvider.mkLocation importedPath 1 8 14.

End StatusWorkspace.

Lemma imported_definition_takes_precedence_witness :
  HoverResolver.getMessageOrEnumInfo StatusWorkspace.fs StatusWorkspace.q (str "Status")
    = Ret (Some StatusWorkspace.importedInfo)
  /\ HoverFlatResolver.getMessageOrEnumInfo StatusWorkspace.fs StatusWorkspace.q
       (str "Status")
    = Ret (Some StatusWorkspace.importedInfo)
  /\ DefinitionProvider.findEnumOrMessageDefinition StatusWorkspace.fs
       StatusWorkspace.q (str "Status")
    = Ret (Some StatusWorkspace.importedLocation).
Proof.
  destruct (@imported_definition_takes_precedence StatusWorkspace.fs StatusWorkspace.q
              (str "Status") [] [] StatusWorkspace.importedPath eq_refl)
    as [_ [H1 [H2 H3]]].
  split; [|split].
  - apply (H1 StatusWorkspace.importedText).
    + constructor; [|constructor]. vm_compute. left; reflexivity.
    + reflexivity.
    + vm_compute; reflexivity.
  - apply (H2 StatusWorkspace.importedText).
    + constructor; [|constructor]. vm_compute. left; reflexivity.
    + reflexivity.
    + vm_compute; reflexivity.
  - apply (H3 StatusWorkspace.importedText).
    + constructor; [|constructor]. exists StatusWorkspace.apiText.
      split; vm_compute; reflexivity.
    + reflexivity.
    + vm_compute; reflexivity.
Defined.

(* ================================================================= *)
(** ** Unreadable candidates *)

(** The hover resolver goes on after a candidate that cannot be read. *)
Lemma hover_skips_unreadable :
  forall (fs : fileSystem) inFile (file : path) (files : list path),
    fs file = None ->
    hoverLoop fs inFile (file :: files) = hoverLoop fs inFile files.
Proof. intros fs inFile file files H; simpl; now rewrite H. Qed.

(** A search root that holds a file which cannot be read, listed in front
    of the file that declares [Status]. *)
Module LockedWorkspace.

Definition apiPath : path := str "/ws/api.proto".
Definition lockedPath : path := str "/ws/locked.proto".
Definition statusPath : path := str "/ws/status.proto".

Definition apiText : text :=
  str "message Reply {" ++ LF :: str "  Status status = 1;" ++ LF :: str "}".

Definition statusText : text := str "message Status {}".

Definition fs : fileSystem := fun p =>
  if text_eqb p apiPath then Some apiText
  else if text_eqb p statusPath then Some statusText
  else None.

Definition q : query := mkQuery apiPath [] [[apiPath; lockedPath; statusPath]].

Definition statusInfo : Info :=
  IMessage (mkMessage (str "Status") [] [] [] None statusText).

End LockedWorkspace.

(** C5. For a reference to [Status] in the workspace above the hover
    resolver skips the unreadable file and answers from the next candidate;
    the definition resolver reads the same candidates without a guard and
    the query ends with the exception of the failed read. *)
Theorem definition_lookup_aborts_on_unreadable_candidate :
  HoverResolver.getMessageOrEnumInfo LockedWorkspace.fs LockedWorkspace.q (str "Status")
    = Ret (Some LockedWorkspace.statusInfo)
  /\ HoverFlatResolver.getMessageOrEnumInfo LockedWorkspace.fs LockedWorkspace.q
       (str "Status")
     = Ret (Some LockedWorkspace.statusInfo)
  /\ DefinitionProvider.findEnumOrMessageDefinition LockedWorkspace.fs
       LockedWorkspace.q (str "Status")
     = Throw IOError.
Proof. repeat split; vm_compute; reflexivity. Qed.

(* ================================================================= *)
(** ** Examples of the specification *)

Definition fooText : text :=
  str "message Foo { int32 x = 1; // note" ++ LF :: str " }".

(** C6. [parseMessage("Foo", T)] for the text [T] of the example yields one
    field: [x] of type [int32] with number 1 and the comment [note]. *)
Theorem parseMessage_Foo_one_field :
  (exists m, Hover.parseMessage (str "Foo") fooText = Ret m
             /\ m_fields m = [mkField (str "x") (str "int32") (Num 1) None
                                      (Some (str "note"))])
  /\ (exists m, HoverFlat.parseMessage (str "Foo") fooText = Ret m
                /\ m_fields m = [mkField (str "x") (str "int32") (Num 1) None
                                         (Some (str "note"))]).
Proof.
  split; eexists; (split; [vm_compute; reflexivity | reflexivity]).
Qed.

(** The enum of the example: the closing brace stands on the line of the
    last value. *)
Definition colorText : text :=
  str "enum Color { RED = 0; // primary" ++ LF :: str "BLUE = 1; }".

(** The same enum with the closing brace on a line of its own. *)
Definition colorTextClosed : text :=
  str "enum Color { RED = 0; // primary" ++ LF :: str "BLUE = 1;" ++ LF :: str "}".

(** C8, as stated: the enum pattern asks for a closing brace at the start of
    a line, the enum of the example is not found, and hovering [BLUE] shows
    no enum value, in either revision. *)
Lemma hover_BLUE_shows_nothing :
  Hover.parseEnum (str "Color") colorText = Ret (mkEnum (str "Color") [] None [])
  /\ enumValueHover Hover.parseEnum colorText 1 (str "BLUE") = Ret None
  /\ enumValueHover HoverFlat.parseEnum colorText 1 (str "BLUE") = Ret None.
Proof. repeat split; vm_compute; reflexivity. Qed.

(** C8, amended: with the closing brace on its own line, hovering [BLUE]
    shows the value [BLUE] with number 1 and no comment; the comment
    [primary] stays with [RED]. *)
Theorem hover_BLUE_closed_enum :
  exists e,
    enumValueHover Hover.parseEnum colorTextClosed 1 (str "BLUE")
      = Ret (Some (e, mkEnumValue (str "BLUE") (Num 1) None))
    /\ e_name e = str "Color"
    /\ e_values e = [mkEnumValue (str "RED") (Num 0) (Some (str "primary"));
                     mkEnumValue (str "BLUE") (Num 1) None].
Proof. eexists; split; [vm_compute; reflexivity | split; reflexivity]. Qed.

(** In the revision without nested types the semicolon of a value line is
    part of the optional comment group, and [BLUE = 1;] is not a value. *)
Lemma flat_revision_needs_comment_after_semicolon :
  enumValueHover HoverFlat.parseEnum colorTextClosed 1 (str "BLUE") = Ret None
  /\ exists e, HoverFlat.parseEnum (str "Color") colorTextClosed = Ret e
               /\ e_values e = [mkEnumValue (str "RED") (Num 0)
                                            (Some (str "primary"))].
Proof. split; [|eexists; split]; vm_compute; reflexivity. Qed.

Definition signedEnumText : text :=
  str "enum Sign {" ++ LF :: str "  NEG = -1;" ++ LF :: str "  POS = 1;" ++ LF
  :: str "}".

(** C9, as stated: the number of a value line is read by [(\d+)], a line
    with a negative number is not a value line. *)
Lemma negative_enum_value_not_recorded :
  exists e, Hover.parseEnum (str "Sign") signedEnumText = Ret e
            /\ e_values e = [mkEnumValue (str "POS") (Num 1) None].
Proof. eexists; split; vm_compute; reflexivity. Qed.

(** C10, as stated: the name is spliced into a pattern, and a name that is
    not a well-formed piece of pattern makes the constructor of the pattern
    throw. *)
Lemma parse_throws_on_open_parenthesis :
  Hover.parseMessage (str "(") [] = Throw SyntaxError
  /\ HoverFlat.parseMessage (str "(") [] = Throw SyntaxError
  /\ Hover.parseEnum (str "(") [] = Throw SyntaxError
  /\ HoverFlat.parseEnum (str "(") [] = Throw SyntaxError.
Proof. repeat split; vm_compute; reflexivity. Qed.

(** C7, as stated: a name that is read as a pattern can match text beyond
    the closing brace, which the extracted span does not hold. *)
Lemma reparse_differs_for_pattern_name :
  let N := str "A\{int32 a=1;\}x|z" in
  let T := str "message A{int32 a=1;}x" in
  exists m m',
    Hover.parseMessage N T = Ret m
    /\ m_rawSource m = str "message A{int32 a=1;}"
    /\ m_fields m = [mkField (str "a") (str "int32") (Num 1) None None]
    /\ Hover.parseMessage N (m_rawSource m) = Ret m'
    /\ m_fields m' = [].
Proof.
  do 2 eexists; split; [vm_compute; reflexivity|].
  repeat split; vm_compute; reflexivity.
Qed.

(* ================================================================= *)
(** ** Qualified references *)

Module PackageWorkspace.

(** The file of the example, on one line. *)
Definition oneLine : text := str "package a.b; message M { message N {} }".

(** The same declarations, one per line. *)
Definition perLine : text :=
  str "package a.b;" ++ LF :: str "message M {" ++ LF ::
  str "  message N {}" ++ LF :: str "}".

Definition filePath : path := str "/ws/f.proto".

Definition q : query := mkQuery filePath [] [].

Definition nestedInfo (rawSource : text) : Info :=
  IMessage (mkMessage (str "M.N") [] [] [] None rawSource).

(** A document of the same package that refers to [M.N] and imports the
    file. *)
Definition mainPath : path := str "/ws/main.proto".

Definition mainText : text :=
  str "package a.b;" ++ LF :: str "message Req {" ++ LF ::
  str "  M.N n = 1;" ++ LF :: str "}".

Definition fs : fileSystem := fun p =>
  if text_eqb p mainPath then Some mainText
  else if text_eqb p filePath then Some perLine
  else None.

Definition mainQuery : query := mkQuery mainPath [filePath] [].

End PackageWorkspace.

(** C2, as stated: the search for a nested declaration starts on the line
    after the opener of the enclosing one; when both stand on one line the
    definition resolver finds nothing, for the only candidate there is. *)
Lemma qualified_reference_not_found_on_one_line :
  DefinitionProvider.findEnumOrMessageDefinition
    (fun _ => Some PackageWorkspace.oneLine) PackageWorkspace.q (str "a.b.M.N")
  = Ret None.
Proof. vm_compute; reflexivity. Qed.

(** C2, amended: with one declaration per line, [a.b.M.N] and [M.N] resolve
    to the name [N] on the third line of the file, from every document for
    which the candidates in front of the file are read and hold no match;
    the hover resolver returns the description of [N] under the name [M.N]. *)
Theorem qualified_reference_resolves :
  forall (fs : fileSystem) (q : query) (pre post : list path) (f : path)
         (target : text),
    target = str "a.b.M.N" \/ target = str "M.N" ->
    inPriorityOrder q = pre ++ f :: post ->
    fs f = Some PackageWorkspace.perLine ->
    (Forall (definitionSkips fs target) pre ->
     DefinitionProvider.findEnumOrMessageDefinition fs q target
       = Ret (Some (DefinitionProvider.mkLocation f 2 10 11)))
    /\ (Forall (hoverSkips fs (HoverResolver.infoInFile target)) pre ->
        HoverResolver.getMessageOrEnumInfo fs q target
          = Ret (Some (PackageWorkspace.nestedInfo
                         (LF :: str "  message N {}")))).
Proof.
  intros fs q pre post f target Ht Hq Hf.
  split; intros Hpre.
  - unfold DefinitionProvider.findEnumOrMessageDefinition, uniqueFiles.
    rewrite definitionLoop_uniqueFrom by constructor.
    rewrite candidateFiles_priority, Hq, definitionLoop_skip_all by assumption.
    eapply definitionLoop_found; [eassumption|].
    destruct Ht as [-> | ->]; vm_compute; reflexivity.
  - unfold HoverResolver.getMessageOrEnumInfo, uniqueFiles.
    rewrite hoverLoop_uniqueFrom by constructor.
    rewrite candidateFiles_priority, Hq, hoverLoop_skip_all by assumption.
    eapply hoverLoop_found; [eassumption|].
    destruct Ht as [-> | ->]; vm_compute; reflexivity.
Qed.

Lemma qualified_reference_resolves_witness :
  DefinitionProvider.findEnumOrMessageDefinition PackageWorkspace.fs
    PackageWorkspace.mainQuery (str "M.N")
    = Ret (Some (DefinitionProvider.mkLocation PackageWorkspace.filePath 2 10 11))
  /\ HoverResolver.getMessageOrEnumInfo PackageWorkspace.fs
       PackageWorkspace.mainQuery (str "M.N")
     = Ret (Some (PackageWorkspace.nestedInfo (LF :: str "  message N {}"))).
Proof.
  destruct (@qualified_reference_resolves PackageWorkspace.fs
              PackageWorkspace.mainQuery [PackageWorkspace.mainPath] []
              PackageWorkspace.filePath (str "M.N")
              (or_intror eq_refl) eq_refl eq_refl) as [H1 H2].
  split.
  - apply H1. constructor; [|constructor].
    exists PackageWorkspace.mainText; split; vm_compute; reflexivity.
  - apply H2. constructor; [|constructor].
    vm_compute. left; reflexivity.
Defined.

(** A candidate in front of the file that declares the same qualified name
    is the one the reference resolves to. *)
Lemma earlier_candidate_shadows :
  let fs : fileSystem := fun p =>
    if text_eqb p (str "/ws/g.proto") then Some PackageWorkspace.perLine
    else if text_eqb p PackageWorkspace.filePath then Some PackageWorkspace.perLine
    else None in
  DefinitionProvider.findEnumOrMessageDefinition fs
    (mkQuery (str "/ws/g.proto") [PackageWorkspace.filePath] []) (str "a.b.M.N")
  = Ret (Some (DefinitionProvider.mkLocation (str "/ws/g.proto") 2 10 11)).
Proof. vm_compute; reflexivity. Qed.

(* ================================================================= *)
(** ** The matcher: how a match advances through the input *)

(** [s'] is reached from [s] by reading the text [w]. *)
Definition reads (s : mstate) (w : text) (s' : mstate) : Prop :=
  before s' = rev w ++ before s /\ rest s = w ++ rest s'.

Definition extends (s s' : mstate) : Prop := exists w, reads s w s'.

Lemma reads_refl (s : mstate) : reads s [] s.
Proof. split; reflexivity. Qed.

Lemma reads_trans (s1 s2 s3 : mstate) (u v : text) :
  reads s1 u s2 -> reads s2 v s3 -> reads s1 (u ++ v) s3.
Proof.
  intros [H1 H2] [H3 H4]; split.
  - rewrite H3, H1, rev_app_distr, app_assoc; reflexivity.
  - rewrite H2, H4, app_assoc; reflexivity.
Qed.

Lemma extends_refl (s : mstate) : extends s s.
Proof. exists []; apply reads_refl. Qed.

Lemma extends_trans (s1 s2 s3 : mstate) :
  extends s1 s2 -> extends s2 s3 -> extends s1 s3.
Proof. intros [u Hu] [v Hv]; exists (u ++ v); eapply reads_trans; eauto. Qed.

Lemma extends_length (s s' : mstate) :
  extends s s' -> length (rest s') <= length (rest s)
                  /\ length (before s') + length (rest s')
                     = length (before s) + length (rest s).
Proof.
  intros [w [H1 H2]]; rewrite H1, H2, !length_app, length_rev; lia.
Qed.

Lemma readIf_reads (p : ascii -> bool) (s s' : mstate) :
  In s' (readIf p s) ->
  exists c, p c = true /\ reads s [c] s' /\ caps s' = caps s.
Proof.
  unfold readIf, advance; destruct (rest s) as [|c t] eqn:E; [intros []|].
  destruct (p c) eqn:Ep; [|intros []].
  intros [<- | []]; exists c; repeat split; simpl; auto.
Qed.

Lemma star_extends (body : mstate -> list mstate) (greedy : bool) :
  (forall x y, In y (body x) -> extends x y) ->
  forall fuel x s', In s' (star body greedy fuel x) -> extends x s'.
Proof.
  intros Hbody; induction fuel as [|f IH]; intros x s' Hin; simpl in Hin.
  - destruct Hin as [<- | []]; apply extends_refl.
  - assert (Hmore : forall s'',
               In s'' (flat_map (fun y => if progress x y then star body greedy f y
                                          else []) (body x)) -> extends x s'').
    { intros s'' H; apply in_flat_map in H as [y [Hy H]].
      destruct (progress x y); [|destruct H].
      eapply extends_trans; [apply Hbody; eassumption | apply IH; assumption]. }
    destruct greedy.
    + apply in_app_or in Hin as [H | [<- | []]]; [auto | apply extends_refl].
    + destruct Hin as [<- | H]; [apply extends_refl | auto].
Qed.

Lemma ms_extends (ic : bool) (r : regex) :
  forall s s', In s' (ms ic r s) -> extends s s'.
Proof.
  induction r as [|neg items| |a IHa b IHb|a IHa b IHb|q greedy a IHa|n a IHa| | |neg];
    intros s s' Hin; simpl in Hin.
  - destruct Hin as [<- | []]; apply extends_refl.
  - apply readIf_reads in Hin as [c [_ [H _]]]; now exists [c].
  - apply readIf_reads in Hin as [c [_ [H _]]]; now exists [c].
  - apply in_flat_map in Hin as [s1 [H1 H2]]; eapply extends_trans; eauto.
  - apply in_app_or in Hin as [H | H]; auto.
  - assert (Hbody : forall x y, In y (ms ic a (clearCaps (groupsOf a) x)) -> extends x y).
    { intros x y H; apply IHa in H as [w [H1 H2]]; exists w; split; assumption. }
    destruct q.
    + exact (@star_extends _ greedy Hbody _ _ _ Hin).
    + apply in_flat_map in Hin as [y [Hy H]].
      eapply extends_trans; [apply Hbody; eassumption|].
      exact (@star_extends _ greedy Hbody _ _ _ H).
    + destruct greedy.
      * apply in_app_or in Hin as [H | [<- | []]]; [|apply extends_refl].
        apply filter_In in H as [H _]; auto.
      * destruct Hin as [<- | H]; [apply extends_refl|].
        apply filter_In in H as [H _]; auto.
  - apply in_map_iff in Hin as [s1 [<- H]].
    apply IHa in H as [w [H1 H2]]; exists w; split; assumption.
  - destruct (before s); [destruct Hin as [<- | []]; apply extends_refl | destruct Hin].
  - destruct (rest s); [destruct Hin as [<- | []]; apply extends_refl | destruct Hin].
  - destruct (xorb neg (atWordBoundary s));
      [destruct Hin as [<- | []]; apply extends_refl | destruct Hin].
Qed.

(* ================================================================= *)
(** ** The matcher: capture groups *)

Lemma star_invariant (P : mstate -> Prop) (body : mstate -> list mstate)
      (greedy : bool) :
  (forall x y, P x -> In y (body x) -> P y) ->
  forall fuel x s', P x -> In s' (star body greedy fuel x) -> P s'.
Proof.
  intros Hbody; induction fuel as [|f IH]; intros x s' Hx Hin; simpl in Hin.
  - destruct Hin as [<- | []]; assumption.
  - assert (Hmore : forall s'',
               In s'' (flat_map (fun y => if progress x y then star body greedy f y
                                          else []) (body x)) -> P s'').
    { intros s'' H; apply in_flat_map in H as [y [Hy H]].
      destruct (progress x y); [|destruct H].
      eapply IH; [eapply Hbody; eassumption | assumption]. }
    destruct greedy.
    + apply in_app_or in Hin as [H | [<- | []]]; auto.
    + destruct Hin as [<- | H]; auto.
Qed.

(** An invariant of the states that holds along every match of [r] when
    the steps of the matcher keep it. *)
Lemma rep_invariant (P : mstate -> Prop) (ic : bool) (q : quant) (greedy : bool)
      (a : regex) :
  (forall x y, P x -> In y (ms ic a (clearCaps (groupsOf a) x)) -> P y) ->
  forall s s', P s -> In s' (ms ic (Rep q greedy a) s) -> P s'.
Proof.
  intros Hbody s s' Hs Hin; simpl in Hin; destruct q.
  - exact (@star_invariant P _ greedy Hbody _ _ _ Hs Hin).
  - apply in_flat_map in Hin as [y [Hy H]].
    exact (@star_invariant P _ greedy Hbody _ _ _ (Hbody _ _ Hs Hy) H).
  - destruct greedy.
    + apply in_app_or in Hin as [H | [<- | []]]; [|assumption].
      apply filter_In in H as [H _]; eauto.
    + destruct Hin as [<- | H]; [assumption|].
      apply filter_In in H as [H _]; eauto.
Qed.

Lemma lookupCap_filter (p : nat -> bool) (n : nat) (l : list (nat * text)) :
  lookupCap n (filter (fun kv => p (fst kv)) l)
  = if p n then lookupCap n l else None.
Proof.
  induction l as [|[k v] l IH]; simpl; [now destruct (p n)|].
  destruct (p k) eqn:Ek; simpl; destruct (k =? n) eqn:E; try assumption;
    apply Nat.eqb_eq in E; rewrite E in Ek; rewrite Ek in *; [reflexivity | assumption].
Qed.

Lemma lookupCap_clearCaps (gs : list nat) (n : nat) (s : mstate) :
  lookupCap n (caps (clearCaps gs s))
  = if existsb (Nat.eqb n) gs then None else lookupCap n (caps s).
Proof.
  unfold clearCaps; simpl.
  rewrite (lookupCap_filter (fun k => negb (existsb (Nat.eqb k) gs))).
  now destruct (existsb (Nat.eqb n) gs).
Qed.

Lemma lookupCap_setCap (k n : nat) (s s' : mstate) :
  lookupCap n (caps (setCap k s s'))
  = if k =? n then Some (consumed s s') else lookupCap n (caps s').
Proof.
  unfold setCap; simpl. destruct (k =? n) eqn:E; [reflexivity|].
  rewrite (lookupCap_filter (fun j => negb (j =? k))).
  rewrite Nat.eqb_sym, E; reflexivity.
Qed.

Lemma existsb_eqb_In (n : nat) (gs : list nat) :
  existsb (Nat.eqb n) gs = true <-> In n gs.
Proof.
  rewrite existsb_exists; split.
  - intros [x [Hin E]]; apply Nat.eqb_eq in E; now subst.
  - intros H; exists n; split; [assumption | apply Nat.eqb_refl].
Qed.

(** A term leaves alone the groups that do not occur in it. *)
Lemma ms_keeps_group (ic : bool) (n : nat) (r : regex) :
  ~ In n (groupsOf r) ->
  forall s s', In s' (ms ic r s) -> lookupCap n (caps s') = lookupCap n (caps s).
Proof.
  induction r as [|neg items| |a IHa b IHb|a IHa b IHb|q greedy a IHa|k a IHa| | |neg];
    intros Hn s s' Hin; simpl in Hn.
  - destruct Hin as [<- | []]; reflexivity.
  - apply readIf_reads in Hin as [c [_ [_ H]]]; now rewrite H.
  - apply readIf_reads in Hin as [c [_ [_ H]]]; now rewrite H.
  - simpl in Hin; apply in_flat_map in Hin as [s1 [H1 H2]].
    rewrite (IHb (fun H => Hn (in_or_app _ _ _ (or_intror H))) _ _ H2).
    apply (IHa (fun H => Hn (in_or_app _ _ _ (or_introl H))) _ _ H1).
  - simpl in Hin; apply in_app_or in Hin as [H | H].
    + apply (IHa (fun H => Hn (in_or_app _ _ _ (or_introl H))) _ _ H).
    + apply (IHb (fun H => Hn (in_or_app _ _ _ (or_intror H))) _ _ H).
  - refine (@rep_invariant
              (fun x => lookupCap n (caps x) = lookupCap n (caps s))
              ic q greedy a _ s s' eq_refl Hin).
    intros x y Hx Hy; rewrite (IHa Hn _ _ Hy), lookupCap_clearCaps.
    destruct (existsb (Nat.eqb n) (groupsOf a)) eqn:E; [|assumption].
    apply existsb_eqb_In in E; contradiction.
  - simpl in Hin; apply in_map_iff in Hin as [s1 [<- H]].
    rewrite lookupCap_setCap.
    destruct (k =? n) eqn:E; [apply Nat.eqb_eq in E; subst; tauto|].
    apply IHa; [tauto | assumption].
  - simpl in Hin; destruct (before s); [destruct Hin as [<- | []]; reflexivity | destruct Hin].
  - simpl in Hin; destruct (rest s); [destruct Hin as [<- | []]; reflexivity | destruct Hin].
  - simpl in Hin; destruct (xorb neg (atWordBoundary s));
      [destruct Hin as [<- | []]; reflexivity | destruct Hin].
Qed.

(** A sequence that contains the group [n] outside quantifiers and
    alternatives sets it in every match. *)
Fixpoint setsGroup (n : nat) (r : regex) : bool :=
  match r with
  | Seq a b =>
      setsGroup n b || (setsGroup n a && negb (existsb (Nat.eqb n) (groupsOf b)))
  | Group k a => (k =? n) || setsGroup n a
  | _ => false
  end.

Lemma ms_sets_group (ic : bool) (n : nat) (r : regex) :
  setsGroup n r = true ->
  forall s s', In s' (ms ic r s) -> lookupCap n (caps s') <> None.
Proof.
  induction r as [|neg items| |a IHa b IHb|a IHa b IHb|q greedy a IHa|k a IHa| | |neg];
    intros Hset s s' Hin; simpl in Hset; try discriminate.
  - simpl in Hin; apply in_flat_map in Hin as [s1 [H1 H2]].
    apply orb_true_iff in Hset as [Hb | Ha]; [eapply IHb; eauto|].
    apply andb_true_iff in Ha as [Ha Hnb].
    rewrite (@ms_keeps_group ic n b) with (s := s1) by
        (try assumption; rewrite <- existsb_eqb_In; now destruct (existsb _ _)).
    eapply IHa; eauto.
  - simpl in Hin; apply in_map_iff in Hin as [s1 [<- H]].
    rewrite lookupCap_setCap.
    destruct (k =? n) eqn:E; [discriminate|].
    simpl in Hset; eapply IHa; eauto.
Qed.

Lemma reads_consumed (s s' : mstate) (w : text) :
  reads s w s' -> consumed s s' = w.
Proof.
  intros [H _]; unfold consumed; rewrite H, length_app, length_rev.
  replace (length w + length (before s) - length (before s)) with (length (rev w))
    by (rewrite length_rev; lia).
  rewrite firstn_app, Nat.sub_diag, firstn_all; simpl.
  now rewrite app_nil_r, rev_involutive.
Qed.

(** The text of group [n] satisfies [P] whenever every group [n] of the
    term reads a text that satisfies [P]. *)
Fixpoint groupReads (ic : bool) (P : text -> Prop) (n : nat) (r : regex) : Prop :=
  match r with
  | Seq a b | Alt a b => groupReads ic P n a /\ groupReads ic P n b
  | Rep _ _ a => groupReads ic P n a
  | Group k a =>
      groupReads ic P n a
      /\ (k = n -> forall s s' w, In s' (ms ic a s) -> reads s w s' -> P w)
  | _ => True
  end.

Definition capSatisfies (P : text -> Prop) (n : nat) (s : mstate) : Prop :=
  forall w, lookupCap n (caps s) = Some w -> P w.

Lemma ms_group_reads (ic : bool) (P : text -> Prop) (n : nat) (r : regex) :
  groupReads ic P n r ->
  forall s s', capSatisfies P n s -> In s' (ms ic r s) -> capSatisfies P n s'.
Proof.
  induction r as [|neg items| |a IHa b IHb|a IHa b IHb|q greedy a IHa|k a IHa| | |neg];
    intros Hg s s' Hs Hin; simpl in Hg.
  - destruct Hin as [<- | []]; assumption.
  - apply readIf_reads in Hin as [c [_ [_ H]]]; unfold capSatisfies; now rewrite H.
  - apply readIf_reads in Hin as [c [_ [_ H]]]; unfold capSatisfies; now rewrite H.
  - simpl in Hin; apply in_flat_map in Hin as [s1 [H1 H2]].
    destruct Hg as [Ha Hb]; exact (IHb Hb s1 s' (IHa Ha s s1 Hs H1) H2).
  - simpl in Hin; destruct Hg as [Ha Hb]; apply in_app_or in Hin as [H | H];
      [exact (IHa Ha _ _ Hs H) | exact (IHb Hb _ _ Hs H)].
  - refine (@rep_invariant (capSatisfies P n) ic q greedy a _ s s' Hs Hin).
    intros x y Hx Hy; eapply IHa; [assumption | | eassumption].
    intros w Hw; rewrite lookupCap_clearCaps in Hw.
    destruct (existsb _ _); [discriminate | auto].
  - simpl in Hin; apply in_map_iff in Hin as [s1 [<- H]].
    destruct Hg as [Ha Hk]; intros w Hw; rewrite lookupCap_setCap in Hw.
    destruct (k =? n) eqn:E.
    + apply Nat.eqb_eq in E; injection Hw as <-.
      destruct (ms_extends _ _ _ _ H) as [u Hu].
      rewrite (reads_consumed Hu); eapply Hk; eauto.
    + eapply IHa; eauto.
  - simpl in Hin; destruct (before s); [destruct Hin as [<- | []]; assumption | destruct Hin].
  - simpl in Hin; destruct (rest s); [destruct Hin as [<- | []]; assumption | destruct Hin].
  - simpl in Hin; destruct (xorb neg (atWordBoundary s));
      [destruct Hin as [<- | []]; assumption | destruct Hin].
Qed.

(* ================================================================= *)
(** ** Patterns built from a name *)

(** A name made of word characters, as the captures [(\w+)] that the
    callers pass. *)
Definition wordText (name : text) : bool := forallb isWordChar name.

(** The terms of a sequence, first one first. *)
Definition seqOf (terms : list regex) : regex := fold_right Seq Eps terms.

Lemma mkSeq_seqOf (l : list regex) : mkSeq l = seqOf (rev l).
Proof. unfold mkSeq, seqOf; symmetry; apply fold_left_rev_right. Qed.

Lemma classify_word (c : ascii) : isWordChar c = true -> classify c = TChar.
Proof.
  destruct c as [[] [] [] [] [] [] [] []]; intros H; try reflexivity;
    vm_compute in H; discriminate.
Qed.

(** The reader after a run of word characters: one literal each. *)
Definition pushLits (st : pstate) (name : text) : pstate :=
  let f := p_top st in
  PState MNormal (Frame (fr_group f) (fr_alts f) (rev (map Lit name) ++ fr_seq f))
         (p_stack st) (p_ngroups st)
         (match name with [] => p_last st | _ => LAtom end).

Lemma parseLoop_word (name : text) :
  forall st post,
    p_mode st = MNormal -> wordText name = true ->
    parseLoop st (name ++ post) = parseLoop (pushLits st name) post.
Proof.
  induction name as [|c name IH]; intros st post Hm Hw.
  - destruct st as [m [g a s] stk n l]; simpl in *; subst; reflexivity.
  - simpl in Hw; apply andb_true_iff in Hw as [Hc Hw].
    simpl; unfold step; rewrite Hm; unfold stepNormal; rewrite (classify_word _ Hc).
    rewrite IH by auto.
    f_equal; unfold pushLits, pushAtom; simpl.
    rewrite <- app_assoc; simpl; destruct name; reflexivity.
Qed.

Definition commentsPrefix : text := Eval vm_compute in
  str "((?:\/\/.*\n|\/\*[\s\S]*?\*\/\s*)*)\s*".

(** The run of comments in front of a declaration, group 1 of both
    patterns, followed by [\s*]. *)
Definition commentsTerms : list regex := Eval vm_compute in
  match parsePattern commentsPrefix with
  | POk r => (fix terms r := match r with Seq a b => a :: terms b | _ => [] end) r
  | _ => []
  end.

Definition keywordTerms (keyword : string) : list regex :=
  map Lit (str keyword) ++ [Rep QPlus true (Chr false [ISpace])].

(** The tree of [startRegex] for a name of word characters. *)
Definition messageStartTree (name : text) : regex :=
  seqOf (commentsTerms ++ keywordTerms "message" ++ map Lit name
         ++ [Rep QStar true (Chr false [ISpace]); Lit "{"]).

(** The tree of [enumRegex] for a name of word characters. *)
Definition enumTree (name : text) : regex :=
  seqOf (commentsTerms ++ keywordTerms "enum" ++ map Lit name
         ++ [Rep QStar true (Chr false [ISpace]); Lit "{";
             Group 2 (seqOf [Rep QStar false (Chr false [ISpace; INotSpace])]);
             Lit LF; Rep QStar true (Chr false [ISpace]); Lit "}"]).

Definition messagePrefixState : pstate := Eval vm_compute in
  match (fix go st l :=
           match l with
           | [] => POk st
           | c :: t => match step st c t with POk st' => go st' t | e => e end
           end) initialState
          (str "((?:\/\/.*\n|\/\*[\s\S]*?\*\/\s*)*)\s*message\s+") with
  | POk st => st
  | _ => initialState
  end.

Definition enumPrefixState : pstate := Eval vm_compute in
  match (fix go st l :=
           match l with
           | [] => POk st
           | c :: t => match step st c t with POk st' => go st' t | e => e end
           end) initialState
          (str "((?:\/\/.*\n|\/\*[\s\S]*?\*\/\s*)*)\s*enum\s+") with
  | POk st => st
  | _ => initialState
  end.

Lemma parsePattern_messageStart (name : text) :
  wordText name = true ->
  parsePattern (messageStartPattern name) = POk (messageStartTree name).
Proof.
  intros Hw; unfold parsePattern, messageStartPattern.
  transitivity (parseLoop messagePrefixState (name ++ str "\s*\{")); [reflexivity|].
  rewrite parseLoop_word by auto.
  lazy -[rev map app mkSeq seqOf messageStartTree].
  rewrite mkSeq_seqOf; simpl rev.
  rewrite !rev_app_distr, rev_involutive; simpl rev.
  rewrite <- !app_assoc; reflexivity.
Qed.

Lemma parsePattern_enum (name : text) :
  wordText name = true ->
  parsePattern (enumPattern name) = POk (enumTree name).
Proof.
  intros Hw; unfold parsePattern, enumPattern.
  transitivity (parseLoop enumPrefixState (name ++ str "\s*\{([\s\S]*?)\n\s*\}"));
    [reflexivity|].
  rewrite parseLoop_word by auto.
  lazy -[rev map app mkSeq seqOf enumTree].
  rewrite !mkSeq_seqOf; simpl rev.
  rewrite !rev_app_distr, rev_involutive; simpl rev.
  rewrite <- !app_assoc; reflexivity.
Qed.

(* ================================================================= *)
(** ** The leftmost match *)

(** The state in which the search tries a match [k] characters further. *)
Definition startAt (bef rst : text) (k : nat) : mstate :=
  MState (rev (firstn k rst) ++ bef) (skipn k rst) [].

Lemma search_found (re : RegExp) (rst : text) :
  forall bef m,
    search re bef rst = Some m ->
    exists k tl,
      k <= length rst
      /\ m_index m = length bef + k
      /\ ms (re_ignoreCase re) (re_tree re) (startAt bef rst k) = m_end m :: tl.
Proof.
  induction rst as [|c t IH]; intros bef m H; simpl in H.
  - destruct (ms _ _ _) as [|s tl] eqn:E; [discriminate|].
    injection H as <-; exists 0, tl; simpl; repeat split; auto.
  - destruct (ms _ _ (MState bef (c :: t) [])) as [|s tl] eqn:E.
    + apply IH in H as [k [tl [Hk [Hi Hms]]]].
      exists (S k), tl; repeat split; [simpl; lia | simpl in *; lia |].
      unfold startAt in *; simpl; rewrite <- app_assoc; exact Hms.
    + injection H as <-; exists 0, tl; simpl; repeat split; auto; lia.
Qed.

Lemma exec_found (re : RegExp) (content : text) (m : matchResult) :
  exec re content = Some m ->
  exists k tl,
    k <= length content /\ m_index m = k
    /\ ms (re_ignoreCase re) (re_tree re) (startAt [] content k) = m_end m :: tl.
Proof.
  intros H; apply search_found in H as [k [tl [H1 [H2 H3]]]]; eauto.
Qed.

(* ================================================================= *)
(** ** Groups of a sequence of terms *)

Lemma groupsOf_seqOf (l : list regex) : groupsOf (seqOf l) = flat_map groupsOf l.
Proof.
  induction l as [|a l IH]; simpl; [reflexivity | now rewrite IH].
Qed.

Lemma groupsOf_lits (name : text) : flat_map groupsOf (map Lit name) = [].
Proof. induction name; simpl; auto. Qed.

Lemma setsGroup_seqOf_head (n : nat) (a : regex) (l : list regex) :
  setsGroup n a = true -> ~ In n (flat_map groupsOf l) ->
  setsGroup n (seqOf (a :: l)) = true.
Proof.
  intros Ha Hl; simpl; rewrite Ha, groupsOf_seqOf.
  destruct (existsb (Nat.eqb n) (flat_map groupsOf l)) eqn:E.
  - apply existsb_eqb_In in E; contradiction.
  - apply orb_true_r.
Qed.

Lemma setsGroup_seqOf_app (n : nat) (l1 l2 : list regex) :
  setsGroup n (seqOf l2) = true -> setsGroup n (seqOf (l1 ++ l2)) = true.
Proof.
  intros H; induction l1 as [|a l1 IH]; simpl; [assumption|].
  change (fold_right Seq Eps (l1 ++ l2)) with (seqOf (l1 ++ l2)); now rewrite IH.
Qed.

Definition commentsGroup : regex := Eval vm_compute in hd Eps commentsTerms.

Lemma commentsTerms_eq :
  commentsTerms = [commentsGroup; Rep QStar true (Chr false [ISpace])].
Proof. reflexivity. Qed.

Lemma messageStartTree_sets_1 (name : text) :
  setsGroup 1 (messageStartTree name) = true.
Proof.
  unfold messageStartTree; rewrite commentsTerms_eq.
  apply (@setsGroup_seqOf_head 1 commentsGroup
           ([Rep QStar true (Chr false [ISpace])] ++ keywordTerms "message"
            ++ map Lit name ++ [Rep QStar true (Chr false [ISpace]); Lit "{"]));
    [reflexivity|].
  rewrite !flat_map_app, groupsOf_lits; simpl; tauto.
Qed.

Lemma enumTree_sets_1 (name : text) : setsGroup 1 (enumTree name) = true.
Proof.
  unfold enumTree; rewrite commentsTerms_eq.
  apply (@setsGroup_seqOf_head 1 commentsGroup
           ([Rep QStar true (Chr false [ISpace])] ++ keywordTerms "enum"
            ++ map Lit name
            ++ [Rep QStar true (Chr false [ISpace]); Lit "{";
                Group 2 (seqOf [Rep QStar false (Chr false [ISpace; INotSpace])]);
                Lit LF; Rep QStar true (Chr false [ISpace]); Lit "}"]));
    [reflexivity|].
  rewrite !flat_map_app, groupsOf_lits; simpl; intros [H | []]; discriminate.
Qed.

Lemma enumTree_sets_2 (name : text) : setsGroup 2 (enumTree name) = true.
Proof.
  unfold enumTree.
  do 3 apply setsGroup_seqOf_app; reflexivity.
Qed.

(* ================================================================= *)
(** ** What a term reads *)

Fixpoint readsOnly (ic : bool) (p : ascii -> bool) (r : regex) : Prop :=
  match r with
  | Chr neg items => forall c, classMatches ic neg items c = true -> p c = true
  | Dot => forall c, negb (isLineTerminator c) = true -> p c = true
  | Seq a b | Alt a b => readsOnly ic p a /\ readsOnly ic p b
  | Rep _ _ a | Group _ a => readsOnly ic p a
  | _ => True
  end.

Lemma reads_unique (s s' : mstate) (w w' : text) :
  reads s w s' -> reads s w' s' -> w = w'.
Proof.
  intros [_ H1] [_ H2]; rewrite H1 in H2; now apply app_inv_tail in H2.
Qed.

Lemma ms_reads_only (ic : bool) (p : ascii -> bool) (r : regex) :
  readsOnly ic p r ->
  forall s s', In s' (ms ic r s) -> exists w, reads s w s' /\ forallb p w = true.
Proof.
  induction r as [|neg items| |a IHa b IHb|a IHa b IHb|q greedy a IHa|n a IHa| | |neg];
    intros Hr s s' Hin; simpl in Hr.
  - destruct Hin as [<- | []]; exists []; split; [apply reads_refl | reflexivity].
  - apply readIf_reads in Hin as [c [Hc [H _]]]; exists [c]; split; auto.
    simpl; now rewrite (Hr c Hc).
  - apply readIf_reads in Hin as [c [Hc [H _]]]; exists [c]; split; auto.
    simpl; now rewrite (Hr c Hc).
  - simpl in Hin; apply in_flat_map in Hin as [s1 [H1 H2]]; destruct Hr as [Ha Hb].
    destruct (IHa Ha _ _ H1) as [u [Hu Pu]], (IHb Hb _ _ H2) as [v [Hv Pv]].
    exists (u ++ v); split; [eapply reads_trans; eauto|].
    rewrite forallb_app, Pu, Pv; reflexivity.
  - simpl in Hin; destruct Hr as [Ha Hb]; apply in_app_or in Hin as [H | H]; eauto.
  - refine (@rep_invariant (fun x => exists w, reads s w x /\ forallb p w = true)
              ic q greedy a _ s s' _ Hin).
    + intros x y [u [Hu Pu]] Hy; destruct (IHa Hr _ _ Hy) as [v [[Hv1 Hv2] Pv]].
      exists (u ++ v); split; [eapply reads_trans; [eassumption | split; assumption]|].
      rewrite forallb_app, Pu, Pv; reflexivity.
    + exists []; split; [apply reads_refl | reflexivity].
  - simpl in Hin; apply in_map_iff in Hin as [s1 [<- H]].
    destruct (IHa Hr _ _ H) as [w [[H1 H2] Pw]]; exists w; repeat split; assumption.
  - simpl in Hin; destruct (before s); [|destruct Hin].
    destruct Hin as [<- | []]; exists []; split; [apply reads_refl | reflexivity].
  - simpl in Hin; destruct (rest s); [|destruct Hin].
    destruct Hin as [<- | []]; exists []; split; [apply reads_refl | reflexivity].
  - simpl in Hin; destruct (xorb neg (atWordBoundary s)); [|destruct Hin].
    destruct Hin as [<- | []]; exists []; split; [apply reads_refl | reflexivity].
Qed.

(** The name captured by [(\w+)] in the patterns of nested declarations is
    made of word characters. *)
Lemma word_group_reads (ic : bool) :
  forall s s' w,
    In s' (ms ic (Seq (Rep QPlus true (Chr false [IWord])) Eps) s) ->
    reads s w s' -> wordText w = true.
Proof.
  intros s s' w Hin Hw.
  destruct (@ms_reads_only ic isWordChar
              (Seq (Rep QPlus true (Chr false [IWord])) Eps)) with (s := s) (s' := s')
    as [u [Hu Pu]]; [|assumption|].
  - simpl; split; [|exact I].
    intros c; unfold classMatches; simpl; now rewrite orb_false_r.
  - now rewrite (reads_unique Hw Hu).
Qed.

Lemma captured_name_is_word (re : RegExp) (line : text) (m : matchResult) :
  groupReads (re_ignoreCase re) (fun w => wordText w = true) 1 (re_tree re) ->
  exec re line = Some m ->
  wordText (orEmpty (group m 1)) = true.
Proof.
  intros Hg H; apply exec_found in H as [k [tl [_ [_ H]]]].
  unfold group; destruct (lookupCap 1 (caps (m_end m))) as [w|] eqn:E; [|reflexivity].
  simpl; refine (@ms_group_reads _ _ 1 _ Hg (startAt [] line k) (m_end m) _ _ w E).
  - intros w' Hw'; discriminate.
  - rewrite H; left; reflexivity.
Qed.

Lemma nestedMessageRe_name_is_word (line : text) (m : matchResult) :
  exec Hover.nestedMessageRe line = Some m ->
  wordText (orEmpty (group m 1)) = true.
Proof.
  apply captured_name_is_word.
  cbv [groupReads re_tree re_ignoreCase Hover.nestedMessageRe].
  repeat split; intros _; apply word_group_reads.
Qed.

Lemma nestedEnumRe_name_is_word (line : text) (m : matchResult) :
  exec Hover.nestedEnumRe line = Some m ->
  wordText (orEmpty (group m 1)) = true.
Proof.
  apply captured_name_is_word.
  cbv [groupReads re_tree re_ignoreCase Hover.nestedEnumRe].
  repeat split; intros _; apply word_group_reads.
Qed.

(* ================================================================= *)
(** ** The brace counter and the extracted spans *)

Lemma findClose_range (s : text) :
  forall i c E,
    findClose s i c = E -> E <> (-1)%Z -> (0 <= i)%Z ->
    (i <= E < i + Z.of_nat (length s))%Z.
Proof.
  induction s as [|x t IH]; intros i c E H HE Hi; simpl in H; [congruence|].
  assert (Hrec : forall c', findClose t (i + 1) c' = E ->
                            (i <= E < i + Z.of_nat (length (x :: t)))%Z).
  { intros c' H'; apply IH in H'; auto; simpl length; lia. }
  destruct (Ascii.eqb x "{"); [eauto|].
  destruct (Ascii.eqb x "}"); [|eauto].
  destruct (c - 1 =? 0)%Z; [|eauto].
  subst; simpl length; lia.
Qed.

Lemma findClose_after (s : text) (i c E : Z) :
  findClose s i c = E -> E <> (-1)%Z -> c <> 1%Z -> (0 <= i)%Z -> (i < E)%Z.
Proof.
  destruct s as [|x t]; intros H HE Hc Hi; simpl in H; [congruence|].
  assert (Hrec : forall c', findClose t (i + 1) c' = E -> (i < E)%Z).
  { intros c' H'; apply (@findClose_range t (i + 1)%Z c' E) in H'; auto; lia. }
  destruct (Ascii.eqb x "{"); [eauto|].
  destruct (Ascii.eqb x "}"); [|eauto].
  destruct (c - 1 =? 0)%Z eqn:E0; [lia | eauto].
Qed.

Lemma locate_inv (re : RegExp) (content : text) (l : located) :
  locate re content = Some l ->
  exists startMatch,
    exec re content = Some startMatch
    /\ l_startIndex l = Z.of_nat (m_index startMatch)
    /\ l_openBraceIndex l
       = (l_startIndex l + lastIndexOf (matched startMatch) "{")%Z
    /\ l_endIndex l
       = findClose (skipn (Z.to_nat (Z.max 0 (l_openBraceIndex l))) content)
                   (Z.max 0 (l_openBraceIndex l)) 0
    /\ l_commentPart l = group startMatch 1.
Proof.
  unfold locate; destruct (exec re content) as [m|]; [|discriminate].
  intros H; injection H as <-; exists m; simpl; repeat split; reflexivity.
Qed.

Lemma located_end_range (re : RegExp) (content : text) (l : located) :
  locate re content = Some l -> l_endIndex l <> (-1)%Z ->
  (Z.max 0 (l_openBraceIndex l) < l_endIndex l < Z.of_nat (length content))%Z.
Proof.
  intros H HE; apply locate_inv in H as [m [_ [_ [_ [He _]]]]].
  pose proof (@findClose_range _ _ _ _ (eq_sym He) HE ltac:(lia)) as Hr.
  pose proof (@findClose_after _ _ _ _ (eq_sym He) HE ltac:(lia) ltac:(lia)) as Ha.
  rewrite length_skipn in Hr; lia.
Qed.

Lemma length_substring (s : text) (a b : Z) :
  (0 <= a <= b)%Z -> (b <= Z.of_nat (length s))%Z ->
  length (substring s a b) = Z.to_nat (b - a).
Proof.
  intros Ha Hb; unfold substring.
  rewrite length_firstn, length_skipn; lia.
Qed.

(** The body handed to the nested calls is shorter than the text it was
    taken from. *)
Lemma bodyContent_shorter (re : RegExp) (content : text) (l : located) :
  locate re content = Some l -> l_endIndex l <> (-1)%Z ->
  length (bodyContentOf content l) < length content.
Proof.
  intros H HE; pose proof (@located_end_range _ _ _ H HE) as Hr.
  unfold bodyContentOf, substring; rewrite length_firstn, length_skipn; lia.
Qed.

(* ================================================================= *)
(** ** Calls with a name of word characters return *)

Lemma exec_sets_group (re : RegExp) (content : text) (m : matchResult) (n : nat) :
  setsGroup n (re_tree re) = true -> exec re content = Some m ->
  exists w, group m n = Some w.
Proof.
  intros Hs H; apply exec_found in H as [k [tl [_ [_ H]]]].
  unfold group; destruct (lookupCap n (caps (m_end m))) as [w|] eqn:E; [eauto|].
  exfalso; refine (@ms_sets_group _ n _ Hs _ (m_end m) _ E).
  rewrite H; left; reflexivity.
Qed.

Lemma newRegExp_messageStart (name : text) :
  wordText name = true ->
  newRegExp (messageStartPattern name) false
  = Ret (mkRegExp (messageStartTree name) false).
Proof. intros H; unfold newRegExp; now rewrite parsePattern_messageStart. Qed.

Lemma newRegExp_enum (name : text) :
  wordText name = true ->
  newRegExp (enumPattern name) false = Ret (mkRegExp (enumTree name) false).
Proof. intros H; unfold newRegExp; now rewrite parsePattern_enum. Qed.

Lemma parseEnum_returns (valueRe : RegExp) (name content : text) :
  wordText name = true -> exists e, parseEnum valueRe name content = Ret e.
Proof.
  intros Hw; unfold parseEnum; rewrite newRegExp_enum by assumption; simpl.
  destruct (exec _ content) as [m|] eqn:E; [|eauto].
  destruct (@exec_sets_group (mkRegExp (enumTree name) false) _ _ 1
              (enumTree_sets_1 name) E) as [c ->].
  destruct (@exec_sets_group (mkRegExp (enumTree name) false) _ _ 2
              (enumTree_sets_2 name) E) as [b ->].
  eauto.
Qed.

Lemma locate_commentPart (name content : text) (l : located) :
  locate (mkRegExp (messageStartTree name) false) content = Some l ->
  exists commentPart, l_commentPart l = Some commentPart.
Proof.
  intros H; apply locate_inv in H as [m [E [_ [_ [_ ->]]]]].
  exact (@exec_sets_group (mkRegExp (messageStartTree name) false) _ _ 1
           (messageStartTree_sets_1 name) E).
Qed.

Section HoverReturns.
Import Hover.

Variable parseNested : text -> text -> outcome MessageInfo.
Variable bodyContent : text.
Hypothesis nested_returns :
  forall name, wordText name = true -> exists m, parseNested name bodyContent = Ret m.

Lemma messageLine_returns (w : walk) (line : text) :
  exists w', messageLine parseNested bodyContent w line = Ret w'.
Proof.
  unfold messageLine.
  destruct (startsWith (trim line) (str "//") && (w_depth w =? 0)%Z); [simpl; eauto|].
  destruct (isBlankOrBrace (trim line)); [simpl; eauto|].
  destruct (w_depth w =? 0)%Z; [|simpl; eauto].
  destruct (exec nestedMessageRe (trim line)) as [nm|] eqn:Em.
  - destruct (nested_returns _ (@nestedMessageRe_name_is_word _ _ Em)) as [m ->].
    simpl; eauto.
  - destruct (exec nestedEnumRe (trim line)) as [ne|] eqn:Ee; [|simpl; eauto].
    destruct (@parseEnum_returns valueRe _ bodyContent
                (@nestedEnumRe_name_is_word _ _ Ee)) as [e He].
    unfold parseEnum; rewrite He; simpl; eauto.
Qed.

Lemma messageLines_returns (lines : list text) :
  forall w, exists w', messageLines parseNested bodyContent w lines = Ret w'.
Proof.
  induction lines as [|line lines IH]; intros w; simpl; [eauto|].
  destruct (messageLine_returns w line) as [w' ->]; simpl; apply IH.
Qed.

End HoverReturns.

Lemma parseMessageBody_returns (parseNested : text -> text -> outcome MessageInfo)
      (name content : text) :
  wordText name = true ->
  (forall l nested,
      locate (mkRegExp (messageStartTree name) false) content = Some l ->
      l_endIndex l <> (-1)%Z -> wordText nested = true ->
      exists m, parseNested nested (bodyContentOf content l) = Ret m) ->
  exists m, Hover.parseMessageBody parseNested name content = Ret m.
Proof.
  intros Hw Hrec; unfold Hover.parseMessageBody.
  rewrite newRegExp_messageStart by assumption; simpl.
  destruct (locate _ content) as [l|] eqn:El; [|eauto].
  destruct (l_endIndex l =? -1)%Z eqn:Ee; [eauto|].
  apply Z.eqb_neq in Ee.
  destruct (@locate_commentPart _ _ _ El) as [commentPart ->].
  destruct (@messageLines_returns parseNested (bodyContentOf content l)
              (fun nested H => Hrec l nested eq_refl Ee H)
              (splitLines (bodyContentOf content l)) (mkWalk [] [] [] [] 0))
    as [w ->].
  simpl; eauto.
Qed.

Lemma parseMessageFuel_returns (fuel : nat) :
  forall name content,
    length content <= fuel -> wordText name = true ->
    exists m, Hover.parseMessageFuel fuel name content = Ret m.
Proof.
  induction fuel as [|f IH]; intros name content Hlen Hw; simpl;
    apply parseMessageBody_returns; auto; intros l nested El Ee Hn;
    pose proof (@bodyContent_shorter _ _ _ El Ee) as Hs.
  - lia.
  - apply IH; [lia | assumption].
Qed.

Lemma flat_parseMessage_returns (name content : text) :
  wordText name = true -> exists m, HoverFlat.parseMessage name content = Ret m.
Proof.
  intros Hw; unfold HoverFlat.parseMessage.
  rewrite newRegExp_messageStart by assumption; simpl.
  destruct (locate _ content) as [l|] eqn:El; [|eauto].
  destruct (l_endIndex l =? -1)%Z; [eauto|].
  destruct (@locate_commentPart _ _ _ El) as [commentPart ->]; eauto.
Qed.

(** C10, amended. For every name made of word characters and every text,
    [parseMessage] and [parseEnum] of both revisions return a record: the
    pattern built from the name is well formed, the groups they read are
    set by every match, and the recursion through nested messages ends. *)
Theorem parse_total_for_word_names :
  forall name content : text,
    wordText name = true ->
    (exists m, Hover.parseMessage name content = Ret m)
    /\ (exists m, HoverFlat.parseMessage name content = Ret m)
    /\ (exists e, Hover.parseEnum name content = Ret e)
    /\ (exists e, HoverFlat.parseEnum name content = Ret e).
Proof.
  intros name content Hw; repeat split.
  - apply parseMessageFuel_returns; auto.
  - apply flat_parseMessage_returns; auto.
  - apply parseEnum_returns; auto.
  - apply parseEnum_returns; auto.
Qed.

Lemma parse_total_for_word_names_witness :
  (exists m, Hover.parseMessage (str "Foo") (str "message Foo { message Foo {") = Ret m)
  /\ (exists m, HoverFlat.parseMessage (str "Foo") (str "message Foo { message Foo {")
                = Ret m)
  /\ (exists e, Hover.parseEnum (str "Foo") (str "message Foo { message Foo {") = Ret e)
  /\ (exists e, HoverFlat.parseEnum (str "Foo") (str "message Foo { message Foo {")
                = Ret e).
Proof.
  apply (@parse_total_for_word_names (str "Foo") (str "message Foo { message Foo {")).
  reflexivity.
Defined.



(* ================================================================= *)
(** ** The preferred match of a term *)

(** The state the backtracking matcher ends in: the head of the list. *)
Definition firstOf (ic : bool) (r : regex) (s : mstate) : option mstate :=
  hd_error (ms ic r s).

Lemma hd_error_app_some {A} (l l' : list A) (x : A) :
  hd_error l = Some x -> hd_error (l ++ l') = Some x.
Proof. destruct l; simpl; [discriminate | auto]. Qed.

Lemma first_seq (ic : bool) (a b : regex) (s s1 s2 : mstate) :
  firstOf ic a s = Some s1 -> firstOf ic b s1 = Some s2 ->
  firstOf ic (Seq a b) s = Some s2.
Proof.
  unfold firstOf; simpl; destruct (ms ic a s) as [|x l]; simpl; [discriminate|].
  intros H; injection H as ->; apply hd_error_app_some.
Qed.

Lemma first_eps (ic : bool) (s : mstate) : firstOf ic Eps s = Some s.
Proof. reflexivity. Qed.

Lemma first_group (ic : bool) (n : nat) (a : regex) (s s1 : mstate) :
  firstOf ic a s = Some s1 -> firstOf ic (Group n a) s = Some (setCap n s s1).
Proof.
  unfold firstOf; simpl; destruct (ms ic a s); simpl; [discriminate|].
  now intros H; injection H as ->.
Qed.

Lemma first_lit (c : ascii) (bef t : text) (cs : list (nat * text)) :
  firstOf false (Lit c) (MState bef (c :: t) cs) = Some (MState (c :: bef) t cs).
Proof.
  unfold firstOf, Lit; simpl; unfold readIf, classMatches; simpl.
  now rewrite Ascii.eqb_refl.
Qed.

Lemma first_bol (ic : bool) (rst : text) (cs : list (nat * text)) :
  firstOf ic Bol (MState [] rst cs) = Some (MState [] rst cs).
Proof. reflexivity. Qed.

Lemma first_eol (ic : bool) (bef : text) (cs : list (nat * text)) :
  firstOf ic Eol (MState bef [] cs) = Some (MState bef [] cs).
Proof. reflexivity. Qed.

Lemma filter_all {A} (p : A -> bool) (l : list A) :
  (forall x, p x = true) -> filter p l = l.
Proof.
  intros H; induction l as [|x l IH]; simpl; [reflexivity | now rewrite H, IH].
Qed.

Lemma clearCaps_nil (s : mstate) : clearCaps [] s = s.
Proof.
  destruct s as [b r c]; unfold clearCaps; simpl; f_equal.
  apply filter_all; reflexivity.
Qed.

(** The next character does not belong to the class, or there is none. *)
Definition stopsAt (p : ascii -> bool) (t : text) : bool :=
  match t with
  | [] => true
  | c :: _ => negb (p c)
  end.

Lemma readIf_cons (p : ascii -> bool) (bef : text) (c : ascii) (t : text)
      (cs : list (nat * text)) :
  readIf p (MState bef (c :: t) cs)
  = if p c then [MState (c :: bef) t cs] else [].
Proof. reflexivity. Qed.

Lemma readIf_stop (p : ascii -> bool) (bef t : text) (cs : list (nat * text)) :
  stopsAt p t = true -> readIf p (MState bef t cs) = [].
Proof.
  destruct t as [|d t']; [reflexivity|].
  simpl; intros H; rewrite readIf_cons; now destruct (p d).
Qed.

(** A greedy run over a class reads the longest run there is. *)
Lemma star_class_first (p : ascii -> bool) (run : text) :
  forall fuel bef t cs,
    length run <= fuel -> forallb p run = true -> stopsAt p t = true ->
    hd_error (star (fun x => readIf p (clearCaps [] x)) true fuel
                   (MState bef (run ++ t) cs))
    = Some (MState (rev run ++ bef) t cs).
Proof.
  induction run as [|c run IH]; intros fuel bef t cs Hf Hp Ht.
  - simpl app; destruct fuel as [|f]; [reflexivity|].
    simpl star; rewrite clearCaps_nil, readIf_stop by assumption; reflexivity.
  - destruct fuel as [|f]; [simpl in Hf; lia|].
    simpl in Hp; apply andb_true_iff in Hp as [Hc Hp].
    simpl star; rewrite clearCaps_nil; simpl app; rewrite readIf_cons, Hc.
    simpl flat_map; unfold progress; simpl rest; simpl length.
    replace (length (run ++ t) <? S (length (run ++ t))) with true
      by (symmetry; apply Nat.ltb_lt; lia).
    rewrite app_nil_r; apply hd_error_app_some.
    rewrite <- app_assoc; apply IH; auto; simpl in Hf; lia.
Qed.

Lemma first_star_class (ic neg : bool) (items : list citem) (run bef t : text)
      (cs : list (nat * text)) :
  forallb (classMatches ic neg items) run = true ->
  stopsAt (classMatches ic neg items) t = true ->
  firstOf ic (Rep QStar true (Chr neg items)) (MState bef (run ++ t) cs)
  = Some (MState (rev run ++ bef) t cs).
Proof.
  intros Hp Ht; unfold firstOf; simpl ms.
  apply star_class_first; auto; rewrite length_app; lia.
Qed.

Lemma first_plus_class (ic neg : bool) (items : list citem) (c : ascii)
      (run bef t : text) (cs : list (nat * text)) :
  forallb (classMatches ic neg items) (c :: run) = true ->
  stopsAt (classMatches ic neg items) t = true ->
  firstOf ic (Rep QPlus true (Chr neg items)) (MState bef ((c :: run) ++ t) cs)
  = Some (MState (rev (c :: run) ++ bef) t cs).
Proof.
  intros Hp Ht; unfold firstOf; simpl ms.
  simpl in Hp; apply andb_true_iff in Hp as [Hc Hp].
  rewrite clearCaps_nil; simpl app; rewrite readIf_cons, Hc.
  simpl flat_map; rewrite app_nil_r; simpl rest.
  rewrite <- app_assoc; apply star_class_first; auto; rewrite length_app; lia.
Qed.

Lemma first_opt_none (ic : bool) (a : regex) (s : mstate) :
  ms ic a (clearCaps (groupsOf a) s) = [] ->
  firstOf ic (Rep QOpt true a) s = Some s.
Proof. intros H; unfold firstOf; simpl; now rewrite H. Qed.

Lemma exec_first (re : RegExp) (line : text) (e : mstate) :
  firstOf (re_ignoreCase re) (re_tree re) (MState [] line []) = Some e ->
  exec re line = Some (MatchResult 0 e).
Proof.
  unfold firstOf, exec; destruct line; simpl;
    destruct (ms _ _ _); simpl; try discriminate; now intros H; injection H as ->.
Qed.

(* ================================================================= *)
(** ** Trimming *)

Definition spaces (t : text) : bool := forallb isSpace t.

Lemma dropWhile_spaces (sp t : text) :
  spaces sp = true -> stopsAt isSpace t = true ->
  dropWhile isSpace (sp ++ t) = t.
Proof.
  intros Hs Ht; induction sp as [|c sp IH]; simpl in *.
  - destruct t as [|d t']; simpl in *; [reflexivity|].
    now destruct (isSpace d).
  - apply andb_true_iff in Hs as [-> Hs]; auto.
Qed.

Lemma spaces_rev (sp : text) : spaces (rev sp) = spaces sp.
Proof.
  unfold spaces; induction sp as [|c sp IH]; simpl; [reflexivity|].
  rewrite forallb_app, IH; simpl; rewrite andb_true_r; apply andb_comm.
Qed.

(** Trimming takes off the white space around a text that starts and ends
    with other characters. *)
Lemma trim_core (ind trail core : text) (first last : ascii) (middle : text) :
  core = first :: middle ++ [last] ->
  isSpace first = false -> isSpace last = false ->
  spaces ind = true -> spaces trail = true ->
  trim (ind ++ core ++ trail) = core.
Proof.
  intros -> Hf Hl Hi Ht; unfold trim.
  rewrite dropWhile_spaces; auto; [|simpl; now rewrite Hf].
  replace (rev ((first :: middle ++ [last]) ++ trail))
    with (rev trail ++ last :: rev (first :: middle))
    by (rewrite rev_app_distr; f_equal;
        change (first :: middle ++ [last]) with ((first :: middle) ++ [last]);
        now rewrite rev_app_distr).
  rewrite dropWhile_spaces; [| now rewrite spaces_rev | simpl; now rewrite Hl].
  change (last :: rev (first :: middle)) with ([last] ++ rev (first :: middle)).
  rewrite <- (rev_involutive [last]), <- rev_app_distr, rev_involutive.
  simpl; reflexivity.
Qed.

(* ================================================================= *)
(** ** Value lines of an enum *)

Lemma class_single (ic : bool) (i : citem) (c : ascii) :
  classMatches ic false [i] c = itemMatches ic c i.
Proof. unfold classMatches; simpl; now rewrite orb_false_r. Qed.

Lemma forallb_eq {A} (p q : A -> bool) (l : list A) :
  (forall x, p x = q x) -> forallb p l = forallb q l.
Proof. intros H; induction l; simpl; [reflexivity | now rewrite H, IHl]. Qed.

Lemma word_not_space (c : ascii) : isWordChar c = true -> isSpace c = false.
Proof.
  destruct c as [[] [] [] [] [] [] [] []]; intros H; try reflexivity;
    vm_compute in H; discriminate.
Qed.

Lemma space_not_word (c : ascii) : isSpace c = true -> isWordChar c = false.
Proof.
  intros H; destruct (isWordChar c) eqn:E; [|reflexivity].
  apply word_not_space in E; congruence.
Qed.

Lemma digit_is_word (c : ascii) : isDigit c = true -> isWordChar c = true.
Proof. intros H; unfold isWordChar; now rewrite H. Qed.

Lemma space_not_digit (c : ascii) : isSpace c = true -> isDigit c = false.
Proof.
  intros H; destruct (isDigit c) eqn:E; [|reflexivity].
  apply digit_is_word, word_not_space in E; congruence.
Qed.

(** After a run of white space and a character outside the class, the
    class stops. *)
Lemma stopsAt_after_spaces (p : ascii -> bool) (sp : text) (c : ascii) (t : text) :
  (forall x, isSpace x = true -> p x = false) -> p c = false ->
  spaces sp = true -> stopsAt p (sp ++ c :: t) = true.
Proof.
  intros Hs Hc Hsp; destruct sp as [|x sp]; simpl in *; [now rewrite Hc|].
  apply andb_true_iff in Hsp as [Hx _]; now rewrite (Hs x Hx).
Qed.

Lemma first_group_state (ic : bool) (n : nat) (a : regex) (bef rst bef' rst' : text)
      (cs cs' : list (nat * text)) :
  firstOf ic a (MState bef rst cs) = Some (MState bef' rst' cs') ->
  firstOf ic (Group n a) (MState bef rst cs)
  = Some (MState bef' rst'
                 ((n, rev (firstn (length bef' - length bef) bef'))
                    :: filter (fun kv => negb (fst kv =? n)) cs')).
Proof. intros H; now rewrite (@first_group ic n a _ _ H). Qed.

Lemma consumed_rev_app (w b : text) :
  rev (firstn (length (rev w ++ b) - length b) (rev w ++ b)) = w.
Proof.
  rewrite length_app, Nat.add_sub, firstn_app, Nat.sub_diag, firstn_all; simpl.
  now rewrite app_nil_r, rev_involutive.
Qed.

Definition digitsText (ds : text) : bool := forallb isDigit ds.

(** A value line [NAME = number;], with any white space around the equals
    sign and in front of the semicolon. *)
Definition valueLineCore (name sp1 sp2 digits sp3 : text) : text :=
  name ++ sp1 ++ "="%char :: sp2 ++ digits ++ sp3 ++ [";"%char].

Lemma valueRe_matches_value_line (n0 d0 : ascii) (name' digits' sp1 sp2 sp3 : text) :
  wordText (n0 :: name') = true -> digitsText (d0 :: digits') = true ->
  spaces sp1 = true -> spaces sp2 = true -> spaces sp3 = true ->
  exists e,
    exec Hover.valueRe (valueLineCore (n0 :: name') sp1 sp2 (d0 :: digits') sp3)
    = Some (MatchResult 0 e)
    /\ lookupCap 1 (caps e) = Some (n0 :: name')
    /\ lookupCap 2 (caps e) = Some (d0 :: digits')
    /\ lookupCap 3 (caps e) = None.
Proof.
  intros Hn Hd H1 H2 H3.
  assert (Hn0 : isWordChar n0 = true) by (simpl in Hn; now apply andb_true_iff in Hn).
  assert (Hd0 : isDigit d0 = true) by (simpl in Hd; now apply andb_true_iff in Hd).
  eexists; split; [apply exec_first|].
  - unfold Hover.valueRe, valueLineCore; simpl re_tree; simpl re_ignoreCase.
    eapply first_seq; [apply first_bol|].
    eapply first_seq;
      [apply (@first_star_class false false [ISpace] [] [] _ []); [reflexivity|]|].
    { cbn [app stopsAt]; rewrite class_single; cbn [itemMatches].
      now rewrite (@word_not_space _ Hn0). }
    eapply first_seq.
    { apply first_group_state; eapply first_seq; [|apply first_eps].
      apply first_plus_class.
      - rewrite (forallb_eq _ isWordChar); [exact Hn | intros; apply class_single].
      - apply stopsAt_after_spaces; auto.
        intros x Hx; rewrite class_single; cbn [itemMatches]; now apply space_not_word. }
    eapply first_seq.
    { apply first_star_class.
      - rewrite (forallb_eq _ isSpace); [exact H1 | intros; apply class_single].
      - reflexivity. }
    eapply first_seq; [apply first_lit|].
    eapply first_seq.
    { apply first_star_class.
      - rewrite (forallb_eq _ isSpace); [exact H2 | intros; apply class_single].
      - cbn [app stopsAt]; rewrite class_single; cbn [itemMatches].
        now rewrite (@word_not_space _ (@digit_is_word _ Hd0)). }
    eapply first_seq.
    { apply first_group_state; eapply first_seq; [|apply first_eps].
      apply first_plus_class.
      - rewrite (forallb_eq _ isDigit); [exact Hd | intros; apply class_single].
      - apply stopsAt_after_spaces; auto.
        intros x Hx; rewrite class_single; cbn [itemMatches]; now apply space_not_digit. }
    eapply first_seq.
    { apply first_star_class.
      - rewrite (forallb_eq _ isSpace); [exact H3 | intros; apply class_single].
      - reflexivity. }
    eapply first_seq; [apply first_lit|].
    eapply first_seq; [apply first_opt_none; reflexivity|].
    eapply first_seq; [apply first_eol | apply first_eps].
  - simpl caps; simpl lookupCap.
    repeat split.
    + f_equal. apply (consumed_rev_app (n0 :: name')).
    + f_equal. apply (consumed_rev_app (d0 :: digits')).
Qed.

Lemma word_char_differs (c x : ascii) :
  isWordChar c = true -> isWordChar x = false ->
  Ascii.eqb c x = false /\ Ascii.eqb x c = false.
Proof.
  intros Hc Hx; split; destruct (Ascii.eqb _ _) eqn:E; auto;
    apply Ascii.eqb_eq in E; subst; congruence.
Qed.

(** A text that starts with a word character is neither a comment line nor
    a blank or brace-only line. *)
Lemma word_start_not_comment (c : ascii) (t : text) :
  isWordChar c = true -> startsWith (c :: t) (str "//") = false.
Proof.
  intros H; unfold str; cbn [list_ascii_of_string startsWith].
  now destruct (@word_char_differs c "/" H eq_refl) as [_ ->].
Qed.

Lemma word_start_not_blank (c : ascii) (t : text) :
  isWordChar c = true -> isBlankOrBrace (c :: t) = false.
Proof.
  intros H; unfold isBlankOrBrace, str; cbn [list_ascii_of_string text_eqb].
  destruct (@word_char_differs c "{" H eq_refl) as [-> _].
  destruct (@word_char_differs c "}" H eq_refl) as [-> _].
  reflexivity.
Qed.

Lemma valueLineCore_shape (n0 : ascii) (name' sp1 sp2 digits sp3 : text) :
  valueLineCore (n0 :: name') sp1 sp2 digits sp3
  = n0 :: (name' ++ sp1 ++ "="%char :: sp2 ++ digits ++ sp3) ++ [";"%char].
Proof.
  unfold valueLineCore; simpl; f_equal.
  rewrite <- !app_assoc; simpl; f_equal; f_equal; f_equal.
  now rewrite <- !app_assoc.
Qed.

Lemma parseInt_exact (digits : text) :
  (decimalValue digits < 2 ^ 53)%Z -> parseInt digits = Num (decimalValue digits).
Proof.
  intros H; unfold parseInt, roundToDouble.
  now apply Z.ltb_lt in H; rewrite H.
Qed.

(** The line walk of [parseEnum] only adds values. *)
Lemma enumLine_keeps (valueRe : RegExp) (w : ewalk) (line : text) (v : EnumValueInfo) :
  In v (ew_values w) -> In v (ew_values (enumLine valueRe w line)).
Proof.
  intros H; unfold enumLine.
  destruct (startsWith _ _); [exact H|].
  destruct (isBlankOrBrace _); [exact H|].
  destruct (exec _ _); simpl; [apply in_or_app; now left | exact H].
Qed.

Lemma enumLines_keep (valueRe : RegExp) (lines : list text) :
  forall w v, In v (ew_values w) ->
              In v (ew_values (fold_left (enumLine valueRe) lines w)).
Proof.
  induction lines as [|l lines IH]; intros w v H; simpl; [exact H|].
  apply IH, enumLine_keeps, H.
Qed.

(** The line: indentation, [NAME = number;], trailing white space. *)
Definition valueLine (name digits sp1 sp2 sp3 ind trail : text) : text :=
  ind ++ valueLineCore name sp1 sp2 digits sp3 ++ trail.

Lemma enumLine_value_line (name digits sp1 sp2 sp3 ind trail : text) (w : ewalk) :
  wordText name = true -> name <> [] ->
  digitsText digits = true -> digits <> [] ->
  spaces sp1 = true -> spaces sp2 = true -> spaces sp3 = true ->
  spaces ind = true -> spaces trail = true ->
  enumLine Hover.valueRe w (valueLine name digits sp1 sp2 sp3 ind trail)
  = mkEwalk (ew_values w
             ++ [mkEnumValue name (parseInt digits) (commentOf (ew_pending w))])
            [].
Proof.
  intros name_word Hn digits_digits Hd H1 H2 H3 Hi Ht.
  destruct name as [|n0 name']; [congruence|].
  destruct digits as [|d0 digits']; [congruence|].
  assert (Hn0 : isWordChar n0 = true)
    by (simpl in name_word; now apply andb_true_iff in name_word).
  destruct (@valueRe_matches_value_line n0 d0 name' digits' sp1 sp2 sp3)
    as [e [He [C1 [C2 C3]]]]; auto.
  unfold enumLine, valueLine; cbv zeta.
  rewrite (@trim_core ind trail _ n0 ";"
             (name' ++ sp1 ++ "="%char :: sp2 ++ (d0 :: digits') ++ sp3));
    auto using valueLineCore_shape, word_not_space.
  rewrite valueLineCore_shape.
  rewrite word_start_not_comment, word_start_not_blank by assumption.
  rewrite <- valueLineCore_shape, He.
  unfold valueOfMatch, group; simpl m_end; rewrite C1, C2, C3; reflexivity.
Qed.

(** C9, amended. A value line [NAME = number;] with a non-negative decimal
    number (below 2^53, so that the number type holds it exactly) is
    recorded with that number: the line walk of [parseEnum] adds the value,
    and the values of the enum whose body holds the line contain it. *)
Theorem nonnegative_enum_value_recorded :
  forall (name digits sp1 sp2 sp3 ind trail : text),
    wordText name = true -> name <> [] ->
    digitsText digits = true -> digits <> [] ->
    spaces sp1 = true -> spaces sp2 = true -> spaces sp3 = true ->
    spaces ind = true -> spaces trail = true ->
    (decimalValue digits < 2 ^ 53)%Z ->
    let line := valueLine name digits sp1 sp2 sp3 ind trail in
    (forall w,
        enumLine Hover.valueRe w line
        = mkEwalk (ew_values w ++ [mkEnumValue name (Num (decimalValue digits))
                                               (commentOf (ew_pending w))]) [])
    /\ (forall enumName content enumRegex m commentPart body,
           newRegExp (enumPattern enumName) false = Ret enumRegex ->
           exec enumRegex content = Some m ->
           group m 1 = Some commentPart -> group m 2 = Some body ->
           In line (splitLines body) ->
           exists e v,
             Hover.parseEnum enumName content = Ret e
             /\ In v (e_values e)
             /\ v_name v = name /\ v_number v = Num (decimalValue digits)).
Proof.
  intros name digits sp1 sp2 sp3 ind trail Hn Hn0 Hd Hd0 H1 H2 H3 Hi Ht Hv line.
  assert (Hline : forall w,
             enumLine Hover.valueRe w line
             = mkEwalk (ew_values w ++ [mkEnumValue name (Num (decimalValue digits))
                                                    (commentOf (ew_pending w))]) []).
  { intros w; unfold line; rewrite enumLine_value_line by assumption.
    now rewrite parseInt_exact. }
  split; [exact Hline|].
  intros enumName content enumRegex m commentPart body Hre Hexec Hc Hb Hin.
  apply in_split in Hin as [l1 [l2 Hl]].
  unfold Hover.parseEnum, parseEnum; rewrite Hre; simpl; rewrite Hexec, Hc, Hb, Hl.
  rewrite fold_left_app; simpl fold_left; rewrite Hline.
  eexists;
    exists (mkEnumValue name (Num (decimalValue digits))
              (commentOf (ew_pending (fold_left (enumLine Hover.valueRe) l1
                                                (mkEwalk [] [])))));
    split; [reflexivity|]; split; [|split; reflexivity].
  simpl e_values; apply enumLines_keep; simpl; apply in_or_app; right; now left.
Qed.

Lemma nonnegative_enum_value_recorded_witness :
  enumLine Hover.valueRe (mkEwalk [] []) (str "  POS = 1;")
  = mkEwalk [mkEnumValue (str "POS") (Num 1) None] []
  /\ exists e v,
      Hover.parseEnum (str "Sign") signedEnumText = Ret e
      /\ In v (e_values e) /\ v_name v = str "POS" /\ v_number v = Num 1.
Proof.
  destruct (@nonnegative_enum_value_recorded
              (str "POS") (str "1") (str " ") (str " ") [] (str "  ") [])
    as [H1 H2]; try reflexivity; try discriminate.
  split.
  - exact (H1 (mkEwalk [] [])).
  - apply (H2 (str "Sign") signedEnumText (mkRegExp (enumTree (str "Sign")) false)
              (MatchResult 0
                 (MState (rev signedEnumText) []
                    [(2, LF :: str "  NEG = -1;" ++ LF :: str "  POS = 1;");
                     (1, [])]))
              [] (LF :: str "  NEG = -1;" ++ LF :: str "  POS = 1;"));
      try (vm_compute; reflexivity).
    vm_compute; right; right; left; reflexivity.
Defined.

(* ================================================================= *)
(** ** Field lines without a numeric tag *)

Lemma ms_seq_inv (ic : bool) (a b : regex) (s s' : mstate) :
  In s' (ms ic (Seq a b) s) ->
  exists s1, In s1 (ms ic a s) /\ In s' (ms ic b s1).
Proof. simpl; intros H; now apply in_flat_map in H. Qed.

(** The sequence without its first [k] terms. *)
Fixpoint skipTerms (k : nat) (r : regex) : regex :=
  match k, r with
  | S k', Seq _ b => skipTerms k' b
  | _, _ => r
  end.

Lemma ms_skipTerms (ic : bool) (k : nat) :
  forall r s s',
    In s' (ms ic r s) ->
    exists s1, extends s s1 /\ In s' (ms ic (skipTerms k r) s1).
Proof.
  induction k as [|k IH]; intros r s s' H; simpl.
  - exists s; split; [apply extends_refl | assumption].
  - destruct r; try (exists s; split; [apply extends_refl | assumption]).
    apply ms_seq_inv in H as [s1 [H1 H2]].
    destruct (IH _ _ _ H2) as [s2 [He H3]].
    exists s2; split; [|assumption].
    eapply extends_trans; [eapply ms_extends; eassumption | assumption].
Qed.

Lemma ms_lit_inv (c : ascii) (s s' : mstate) :
  In s' (ms false (Lit c) s) -> reads s [c] s'.
Proof.
  unfold Lit; simpl; intros H.
  apply readIf_reads in H as [x [Hx [H _]]].
  rewrite class_single in Hx; simpl in Hx; apply Ascii.eqb_eq in Hx; now subst.
Qed.

Lemma ms_spaces_inv (ic : bool) (s s' : mstate) :
  In s' (ms ic (Rep QStar true (Chr false [ISpace])) s) ->
  exists sp, reads s sp s' /\ spaces sp = true.
Proof.
  apply ms_reads_only; cbn [readsOnly]; intros c; now rewrite class_single.
Qed.

Lemma ms_plus_class_progress (ic greedy neg : bool) (items : list citem)
      (s s' : mstate) :
  In s' (ms ic (Rep QPlus greedy (Chr neg items)) s) ->
  length (rest s') < length (rest s).
Proof.
  simpl; intros H; apply in_flat_map in H as [y [Hy H]].
  apply readIf_reads in Hy as [c [_ [[_ Hy] _]]].
  assert (He : extends y s').
  { eapply star_extends; [|exact H].
    intros x z Hz; apply readIf_reads in Hz as [d [_ [[Hz1 Hz2] _]]].
    exists [d]; split; assumption. }
  apply extends_length in He as [He _].
  simpl in Hy; rewrite Hy; simpl; lia.
Qed.

Lemma ms_digits_inv (ic : bool) (n : nat) (s s' : mstate) :
  In s' (ms ic (Group n (Seq (Rep QPlus true (Chr false [IDigit])) Eps)) s) ->
  exists d ds, reads s (d :: ds) s' /\ digitsText (d :: ds) = true.
Proof.
  intros H.
  destruct (@ms_reads_only ic isDigit
              (Group n (Seq (Rep QPlus true (Chr false [IDigit])) Eps))) with
    (s := s) (s' := s') as [w [Hw Pw]]; [| exact H |].
  - cbn [readsOnly]; split; [|exact I]; intros c; now rewrite class_single.
  - simpl in H; apply in_map_iff in H as [s1 [<- H]].
    apply in_flat_map in H as [s2 [H2 [<- | []]]].
    apply (@ms_plus_class_progress ic true false [IDigit]) in H2.
    destruct w as [|d ds]; [|eauto].
    destruct Hw as [_ Hw]; simpl in Hw; rewrite Hw in H2; simpl in H2; lia.
Qed.

Lemma ms_opt_inv (ic greedy : bool) (a : regex) (s s' : mstate) :
  In s' (ms ic (Rep QOpt greedy a) s) ->
  s' = s \/ In s' (ms ic a (clearCaps (groupsOf a) s)).
Proof.
  simpl; destruct greedy; intros H.
  - apply in_app_or in H as [H | [<- | []]]; [|now left].
    apply filter_In in H as [H _]; now right.
  - destruct H as [<- | H]; [now left|].
    apply filter_In in H as [H _]; now right.
Qed.

(** The first character of white space followed by [c]. *)
Lemma head_after_spaces (sp : text) (c : ascii) (t : text) :
  spaces sp = true ->
  exists h t', sp ++ c :: t = h :: t' /\ (isSpace h = true \/ h = c).
Proof.
  destruct sp as [|x sp]; simpl; intros H; [eauto|].
  apply andb_true_iff in H as [Hx _]; eauto.
Qed.

(** What follows the name of a field in [fieldRe]: the equals sign, the
    tag, the options in brackets and the semicolon. *)
Definition tagTail (n : nat) (afterBracket afterSemicolon : regex) : regex :=
  Seq (Lit "=")
      (Seq (Rep QStar true (Chr false [ISpace]))
           (Seq (Group n (Seq (Rep QPlus true (Chr false [IDigit])) Eps))
                (Seq (Rep QOpt true
                          (Seq (Rep QStar true (Chr false [ISpace]))
                               (Seq (Lit "[") afterBracket)))
                     (Seq (Rep QStar true (Chr false [ISpace]))
                          (Seq (Lit ";") afterSemicolon))))).

Definition tagDelimiter (c : ascii) : bool :=
  isSpace c || Ascii.eqb c "[" || Ascii.eqb c ";".

Lemma tagTail_reads (n : nat) (afterBracket afterSemicolon : regex)
      (s s' : mstate) :
  In s' (ms false (tagTail n afterBracket afterSemicolon) s) ->
  exists sp ds c v,
    rest s = "="%char :: sp ++ ds ++ c :: v
    /\ spaces sp = true /\ digitsText ds = true /\ ds <> []
    /\ tagDelimiter c = true.
Proof.
  unfold tagTail; intros H.
  apply ms_seq_inv in H as [s1 [H1 H]]; apply ms_lit_inv in H1 as [_ E1].
  apply ms_seq_inv in H as [s2 [H2 H]]; apply ms_spaces_inv in H2 as [sp [[_ E2] Hsp]].
  apply ms_seq_inv in H as [s3 [H3 H]];
    apply ms_digits_inv in H3 as [d [ds [[_ E3] Hds]]].
  exists sp, (d :: ds).
  assert (Hrest : exists c v, rest s3 = c :: v /\ tagDelimiter c = true).
  { apply ms_seq_inv in H as [s4 [H4 H]].
    apply ms_opt_inv in H4 as [-> | H4]; [|clear H].
    2: {
      apply ms_seq_inv in H4 as [s5 [H5 H4]].
      apply ms_spaces_inv in H5 as [sp' [[_ E5] Hsp']].
      apply ms_seq_inv in H4 as [s6 [H6 _]]; apply ms_lit_inv in H6 as [_ E6].
      simpl in E5; rewrite E6 in E5; simpl in E5.
      destruct (@head_after_spaces sp' "["%char (rest s6) Hsp') as [h [t' [Eh Hh]]].
      exists h, t'; split; [congruence|].
      unfold tagDelimiter; destruct Hh as [-> | ->]; [reflexivity|].
      now rewrite orb_true_r. }
    { apply ms_seq_inv in H as [s5 [H5 H]].
      apply ms_spaces_inv in H5 as [sp' [[_ E5] Hsp']].
      apply ms_seq_inv in H as [s6 [H6 _]]; apply ms_lit_inv in H6 as [_ E6].
      rewrite E6 in E5; simpl in E5.
      destruct (@head_after_spaces sp' ";"%char (rest s6) Hsp') as [h [t' [Eh Hh]]].
      exists h, t'; split; [congruence|].
      unfold tagDelimiter; destruct Hh as [-> | ->]; [reflexivity|].
      now rewrite orb_true_r. } }
  destruct Hrest as [c [v [E4 Hc]]]; exists c, v.
  repeat split; auto; [|discriminate].
  rewrite E1, E2, E3, E4; reflexivity.
Qed.

(** Is the text after an equals sign a decimal number followed by white
    space, an opening bracket or a semicolon? *)
Definition numberThenDelimiter (t : text) : bool :=
  match dropWhile isSpace t with
  | d :: t' =>
      isDigit d && match dropWhile isDigit t' with
                   | c :: _ => tagDelimiter c
                   | [] => false
                   end
  | [] => false
  end.

(** Does some equals sign of the line have a numeric tag after it? *)
Fixpoint hasNumericTag (line : text) : bool :=
  match line with
  | [] => false
  | c :: t => (Ascii.eqb c "=" && numberThenDelimiter t) || hasNumericTag t
  end.

Lemma tagDelimiter_not_digit (c : ascii) : tagDelimiter c = true -> isDigit c = false.
Proof.
  unfold tagDelimiter; intros H.
  apply orb_true_iff in H as [H | H]; [apply orb_true_iff in H as [H | H]|].
  - now apply space_not_digit.
  - apply Ascii.eqb_eq in H; now subst.
  - apply Ascii.eqb_eq in H; now subst.
Qed.

Lemma dropWhile_run (p : ascii -> bool) (run t : text) :
  forallb p run = true -> stopsAt p t = true -> dropWhile p (run ++ t) = t.
Proof.
  intros Hr Ht; induction run as [|c run IH]; simpl in *.
  - destruct t as [|d t']; simpl in *; [reflexivity | now destruct (p d)].
  - apply andb_true_iff in Hr as [-> Hr]; auto.
Qed.

Lemma hasNumericTag_intro (u sp ds : text) (c : ascii) (v : text) :
  spaces sp = true -> digitsText ds = true -> ds <> [] -> tagDelimiter c = true ->
  hasNumericTag (u ++ "="%char :: sp ++ ds ++ c :: v) = true.
Proof.
  intros Hsp Hds Hne Hc; induction u as [|x u IH]; simpl.
  - destruct ds as [|d ds]; [congruence|].
    simpl in Hds; apply andb_true_iff in Hds as [Hd Hds].
    unfold numberThenDelimiter.
    rewrite (@dropWhile_run isSpace sp); auto;
      [|simpl; now rewrite (@word_not_space _ (@digit_is_word _ Hd))].
    simpl; rewrite Hd, (@dropWhile_run isDigit ds);
      [now rewrite Hc | assumption | simpl; now rewrite tagDelimiter_not_digit].
  - rewrite IH; apply orb_true_r.
Qed.

Lemma search_none (re : RegExp) (rst : text) :
  forall bef,
    (forall k, k <= length rst ->
               ms (re_ignoreCase re) (re_tree re) (startAt bef rst k) = []) ->
    search re bef rst = None.
Proof.
  induction rst as [|c t IH]; intros bef H;
    pose proof (H 0 ltac:(simpl; lia)) as H0; unfold startAt in H0;
    cbn [firstn skipn rev app] in H0; cbn [search]; rewrite H0; [reflexivity|].
  apply IH; intros k Hk; specialize (H (S k) ltac:(simpl; lia)).
  unfold startAt in *; cbn [firstn skipn rev] in H; now rewrite <- app_assoc in H.
Qed.

(** C4, the heart of it: [fieldRe] does not match a line in which no equals
    sign has a numeric tag after it. *)
Lemma fieldRe_needs_numeric_tag (line : text) :
  hasNumericTag line = false -> exec fieldRe line = None.
Proof.
  intros Hno; apply search_none; intros k Hk.
  destruct (ms _ _ _) as [|s' tl] eqn:E; [reflexivity | exfalso].
  assert (Hin : In s' (ms (re_ignoreCase fieldRe) (re_tree fieldRe) (startAt [] line k)))
    by (rewrite E; now left).
  clear E; unfold fieldRe in Hin; simpl re_tree in Hin; simpl re_ignoreCase in Hin.
  apply (@ms_skipTerms false 8) in Hin as [s1 [[u [_ Hu]] Hin]].
  cbv [skipTerms] in Hin.
  apply (@tagTail_reads 7) in Hin as [sp [ds [c [v [Hr [Hsp [Hds [Hne Hc]]]]]]]].
  simpl in Hu; rewrite Hr in Hu.
  assert (Hline : line = (firstn k line ++ u) ++ "="%char :: sp ++ ds ++ c :: v).
  { rewrite <- app_assoc, <- Hu; symmetry; apply firstn_skipn. }
  rewrite Hline, (@hasNumericTag_intro _ _ _ _ _ Hsp Hds Hne Hc) in Hno.
  discriminate.
Qed.

(* ================================================================= *)
(** ** A field line with a malformed tag *)

Definition isBrace (c : ascii) : bool := Ascii.eqb c "{" || Ascii.eqb c "}".

Definition startsWithWord (t : text) : bool :=
  match t with
  | c :: _ => isWordChar c
  | [] => false
  end.

(** A line that looks like a field but has no numeric tag: its text starts
    with a word character, it holds no brace, and no equals sign in it is
    followed by a decimal number and then white space, a bracket or a
    semicolon. [string x = abc;] is such a line. *)
Definition malformedFieldLine (line : text) : bool :=
  startsWithWord (trim line)
  && negb (existsb isBrace line)
  && negb (hasNumericTag (trim line)).

Lemma dropWhile_In (p : ascii -> bool) (c : ascii) (l : text) :
  In c (dropWhile p l) -> In c l.
Proof.
  induction l as [|x l IH]; simpl; [auto|].
  destruct (p x); [intros H; right; auto | auto].
Qed.

Lemma trim_In (c : ascii) (l : text) : In c (trim l) -> In c l.
Proof.
  unfold trim; intros H.
  apply in_rev, dropWhile_In, in_rev, dropWhile_In in H; exact H.
Qed.

Lemma no_brace_count (c : ascii) (line : text) :
  isBrace c = true -> existsb isBrace line = false -> countChar c line = 0%Z.
Proof.
  intros Hc H; unfold countChar.
  replace (filter (Ascii.eqb c) line) with (@nil ascii); [reflexivity|].
  induction line as [|x line IH]; simpl in *; [reflexivity|].
  apply orb_false_iff in H as [Hx H].
  destruct (Ascii.eqb c x) eqn:E; [|auto].
  apply Ascii.eqb_eq in E; subst; congruence.
Qed.

Lemma no_brace_delta (line : text) :
  existsb isBrace line = false -> lineDelta line = 0%Z.
Proof.
  intros H; unfold lineDelta.
  now rewrite !no_brace_count by (auto; reflexivity).
Qed.

(** A pattern whose last term is an opening brace finds nothing in a text
    without braces. *)
Lemma exec_needs_brace (re : RegExp) (k : nat) (line : text) :
  re_ignoreCase re = false ->
  skipTerms k (re_tree re) = Seq (Lit "{") Eps ->
  existsb isBrace line = false ->
  exec re line = None.
Proof.
  intros Hic Hk Hno; apply search_none; intros j Hj.
  destruct (ms _ _ _) as [|s' tl] eqn:E; [reflexivity | exfalso].
  assert (Hin : In s' (ms (re_ignoreCase re) (re_tree re) (startAt [] line j)))
    by (rewrite E; now left).
  rewrite Hic in Hin.
  apply (@ms_skipTerms false k) in Hin as [s1 [[u [_ Hu]] Hin]].
  rewrite Hk in Hin; apply ms_seq_inv in Hin as [s2 [H2 _]].
  apply ms_lit_inv in H2 as [_ H2].
  simpl in Hu; rewrite H2 in Hu.
  assert (Hb : In "{"%char line).
  { rewrite <- (firstn_skipn j line), Hu.
    apply in_or_app; right; apply in_or_app; right; now left. }
  assert (Ht : existsb isBrace line = true)
    by (apply existsb_exists; exists "{"%char; split; [assumption | reflexivity]).
  congruence.
Qed.

Lemma trim_no_brace (line : text) :
  existsb isBrace line = false -> existsb isBrace (trim line) = false.
Proof.
  intros H; destruct (existsb isBrace (trim line)) eqn:E; [|reflexivity].
  apply existsb_exists in E as [c [Hin Hc]].
  rewrite <- H; symmetry; apply existsb_exists; exists c; split; auto using trim_In.
Qed.

Section MalformedLine.

Variable line : text.
Hypothesis malformed : malformedFieldLine line = true.

Lemma malformed_parts :
  startsWithWord (trim line) = true
  /\ existsb isBrace line = false
  /\ hasNumericTag (trim line) = false.
Proof.
  unfold malformedFieldLine in malformed.
  apply andb_true_iff in malformed as [H H3].
  apply andb_true_iff in H as [H1 H2].
  repeat split; [assumption | |]; now apply negb_true_iff.
Qed.

Lemma malformed_not_comment : startsWith (trim line) (str "//") = false.
Proof.
  destruct malformed_parts as [H _]; destruct (trim line); [discriminate|].
  now apply word_start_not_comment.
Qed.

Lemma malformed_not_blank : isBlankOrBrace (trim line) = false.
Proof.
  destruct malformed_parts as [H _]; destruct (trim line); [discriminate|].
  now apply word_start_not_blank.
Qed.

Lemma malformed_fieldLine (w : walk) :
  fieldLine w (trim line) = setPending w [].
Proof.
  destruct malformed_parts as [_ [_ H]].
  unfold fieldLine; now rewrite fieldRe_needs_numeric_tag.
Qed.

Lemma malformed_hover_line (parseNested : text -> text -> outcome MessageInfo)
      (bodyContent : text) (w : walk) :
  Hover.messageLine parseNested bodyContent w line
  = Ret (mkWalk (w_fields w) (w_nestedMessages w) (w_nestedEnums w)
                (if (w_depth w =? 0)%Z then [] else w_pending w) (w_depth w)).
Proof.
  destruct malformed_parts as [_ [Hb _]].
  unfold Hover.messageLine; cbv zeta.
  rewrite malformed_not_comment, malformed_not_blank; simpl andb.
  rewrite (@exec_needs_brace Hover.nestedMessageRe 11) by
      (auto using trim_no_brace; reflexivity).
  rewrite (@exec_needs_brace Hover.nestedEnumRe 8) by
      (auto using trim_no_brace; reflexivity).
  rewrite malformed_fieldLine.
  destruct (w_depth w =? 0)%Z; cbn [bind]; unfold addDepth, setPending;
    cbn [w_fields w_nestedMessages w_nestedEnums w_pending w_depth];
    now rewrite no_brace_delta, Z.add_0_r by assumption.
Qed.

Lemma malformed_flat_line (w : walk) :
  HoverFlat.messageLine w line
  = mkWalk (w_fields w) (w_nestedMessages w) (w_nestedEnums w)
           (if (w_depth w =? 0)%Z then [] else w_pending w) (w_depth w).
Proof.
  destruct malformed_parts as [_ [Hb _]].
  unfold HoverFlat.messageLine; cbv zeta.
  rewrite malformed_not_comment, malformed_not_blank; simpl andb.
  rewrite malformed_fieldLine.
  destruct (w_depth w =? 0)%Z; unfold addDepth, setPending;
    cbn [w_fields w_nestedMessages w_nestedEnums w_pending w_depth];
    now rewrite no_brace_delta, Z.add_0_r by assumption.
Qed.

End MalformedLine.

Lemma hover_blank_line (parseNested : text -> text -> outcome MessageInfo)
      (bodyContent : text) (w : walk) :
  Hover.messageLine parseNested bodyContent w []
  = Ret (mkWalk (w_fields w) (w_nestedMessages w) (w_nestedEnums w)
                (if (w_depth w =? 0)%Z then [] else w_pending w) (w_depth w)).
Proof.
  unfold Hover.messageLine; cbv zeta; simpl trim.
  change (startsWith [] (str "//")) with false; simpl andb.
  change (isBlankOrBrace []) with true; cbv iota.
  unfold addDepth, setPending.
  destruct (w_depth w =? 0)%Z; simpl; now rewrite Z.add_0_r.
Qed.

Lemma flat_blank_line (w : walk) :
  HoverFlat.messageLine w []
  = mkWalk (w_fields w) (w_nestedMessages w) (w_nestedEnums w)
           (if (w_depth w =? 0)%Z then [] else w_pending w) (w_depth w).
Proof.
  unfold HoverFlat.messageLine; cbv zeta; simpl trim.
  change (startsWith [] (str "//")) with false; simpl andb.
  change (isBlankOrBrace []) with true; cbv iota.
  unfold addDepth, setPending.
  destruct (w_depth w =? 0)%Z; simpl; now rewrite Z.add_0_r.
Qed.

Lemma hover_messageLines_app (parseNested : text -> text -> outcome MessageInfo)
      (bodyContent : text) (l1 l2 : list text) :
  forall w,
    Hover.messageLines parseNested bodyContent w (l1 ++ l2)
    = (w' <- Hover.messageLines parseNested bodyContent w l1 ;;
       Hover.messageLines parseNested bodyContent w' l2).
Proof.
  induction l1 as [|l l1 IH]; intros w; simpl; [reflexivity|].
  destruct (Hover.messageLine parseNested bodyContent w l); simpl; auto.
Qed.

(* ================================================================= *)
(** ** Matching a span of the text on its own

    A term without assertions sees only the text it reads. The matches of
    such a term on a span cut out of a text are the matches on the whole
    text that stay inside the span, in the same order. *)

Fixpoint local (r : regex) : bool :=
  match r with
  | Eps | Chr _ _ | Dot => true
  | Seq a b | Alt a b => local a && local b
  | Rep _ _ a | Group _ a => local a
  | Bol | Eol | WordB _ => false
  end.

Lemma flat_map_nil {A B} (f : A -> list B) (l : list A) :
  (forall x, In x l -> f x = []) -> flat_map f l = [].
Proof.
  induction l as [|x l IH]; simpl; intros H; [reflexivity|].
  rewrite (H x (or_introl eq_refl)), IH; auto.
Qed.

Lemma flat_map_agree {A B} (f g : A -> list B) (l : list A) :
  (forall x, In x l -> f x = g x) -> flat_map f l = flat_map g l.
Proof.
  induction l as [|x l IH]; simpl; intros H; [reflexivity|].
  rewrite (H x (or_introl eq_refl)), IH; auto.
Qed.

(** The number of iterations allowed to [star] does not matter once it
    exceeds the length of the input left. *)
Lemma star_fuel (body : mstate -> list mstate) (greedy : bool) :
  (forall x y, In y (body x) -> extends x y) ->
  forall f f' x,
    length (rest x) <= f -> length (rest x) <= f' ->
    star body greedy f x = star body greedy f' x.
Proof.
  intros Hbody.
  assert (Hzero : forall f x, length (rest x) = 0 ->
                              star body greedy f x = [x]).
  { intros [|f] x Hx; simpl; [reflexivity|].
    rewrite flat_map_nil; [now destruct greedy|].
    intros y Hy; unfold progress; rewrite Hx.
    now destruct (length (rest y) <? 0) eqn:E; [apply Nat.ltb_lt in E; lia|]. }
  induction f as [|f IH]; intros f' x Hf Hf'.
  - rewrite !Hzero by lia; reflexivity.
  - destruct f' as [|f'']; [rewrite !Hzero by lia; reflexivity|].
    simpl; f_equal.
    replace (flat_map (fun y => if progress x y then star body greedy f y else [])
                      (body x))
      with (flat_map (fun y => if progress x y then star body greedy f'' y else [])
                     (body x)); [reflexivity|].
    apply flat_map_agree; intros y Hy.
    destruct (progress x y) eqn:E; [|reflexivity].
    apply Nat.ltb_lt in E; symmetry; apply IH; lia.
Qed.

Section Span.

Variables bef1 bef2 : text.   (* what precedes the start in both texts *)
Variable n : nat.             (* the length of the span *)

(** [t] is the state on the span that corresponds to [s] on the text. *)
Definition sim (s t : mstate) : Prop :=
  exists w,
    before s = w ++ bef1 /\ before t = w ++ bef2 /\ length w <= n
    /\ rest t = firstn (n - length w) (rest s) /\ caps t = caps s.

(** [s] has not left the span. *)
Definition fits (s : mstate) : bool :=
  length (before s) <=? n + length bef1.

Lemma sim_fits (s t : mstate) : sim s t -> fits s = true.
Proof.
  intros [w [H1 [_ [H3 _]]]]; unfold fits; rewrite H1, length_app.
  apply Nat.leb_le; lia.
Qed.

Lemma extends_not_fits (s s' : mstate) :
  extends s s' -> fits s = false -> fits s' = false.
Proof.
  intros [u [H _]] Hs; unfold fits in *; rewrite H, length_app, length_rev.
  apply Nat.leb_gt in Hs; apply Nat.leb_gt; lia.
Qed.

Lemma filter_fits_outside (l : list mstate) (s : mstate) :
  (forall s', In s' l -> extends s s') -> fits s = false -> filter fits l = [].
Proof.
  intros H Hs; induction l as [|x l IH]; simpl; [reflexivity|].
  rewrite (extends_not_fits (H x (or_introl eq_refl)) Hs); auto with datatypes.
Qed.

Lemma sim_flat_map (F G : mstate -> list mstate) (L : list mstate) :
  forall L',
    Forall2 sim (filter fits L) L' ->
    (forall s1, In s1 L -> fits s1 = false -> filter fits (F s1) = []) ->
    (forall s1 t1, In s1 L -> sim s1 t1 ->
                   Forall2 sim (filter fits (F s1)) (G t1)) ->
    Forall2 sim (filter fits (flat_map F L)) (flat_map G L').
Proof.
  induction L as [|x L IH]; intros L' HL Hout Hin; simpl in *.
  - inversion HL; subst; constructor.
  - rewrite filter_app.
    destruct (fits x) eqn:Ex.
    + inversion HL as [|? t ? L'' Hxt HL']; subst; simpl.
      apply Forall2_app; [apply Hin; auto | apply IH; auto].
    + rewrite (Hout x (or_introl eq_refl) Ex); simpl; apply IH; auto.
Qed.

Lemma sim_filter (p q : mstate -> bool) (L L' : list mstate) :
  Forall2 sim L L' ->
  (forall s t, In s L -> sim s t -> p s = q t) ->
  Forall2 sim (filter p L) (filter q L').
Proof.
  induction 1 as [|s t L L' Hst HL IH]; intros Hpq; simpl; [constructor|].
  rewrite <- (Hpq s t (or_introl eq_refl) Hst).
  destruct (p s); [constructor; auto with datatypes | auto with datatypes].
Qed.

Lemma filter_comm {A} (p q : A -> bool) (l : list A) :
  filter p (filter q l) = filter q (filter p l).
Proof.
  induction l as [|x l IH]; simpl; [reflexivity|].
  destruct (q x) eqn:Eq, (p x) eqn:Ep; simpl; rewrite ?Eq, ?Ep, IH; reflexivity.
Qed.

(** Related states that are one match apart make the same progress. *)
Lemma sim_progress (x tx y ty : mstate) :
  sim x tx -> sim y ty -> extends x y -> progress x y = progress tx ty.
Proof.
  intros [wx [X1 [_ [X3 [X4 _]]]]] [wy [Y1 [_ [Y3 [Y4 _]]]]] [u [U1 U2]].
  unfold progress; rewrite X4, Y4, !length_firstn.
  assert (Hw : length wy = length u + length wx).
  { rewrite Y1, X1, app_assoc in U1; apply app_inv_tail in U1.
    now rewrite U1, length_app, length_rev. }
  rewrite U2, length_app.
  destruct (length (rest y) <? length u + length (rest y)) eqn:E1;
    destruct (Nat.min (n - length wy) (length (rest y))
              <? Nat.min (n - length wx) (length u + length (rest y))) eqn:E2;
    try reflexivity;
    [apply Nat.ltb_lt in E1; apply Nat.ltb_ge in E2
    |apply Nat.ltb_ge in E1; apply Nat.ltb_lt in E2]; lia.
Qed.

Lemma sim_clearCaps (gs : list nat) (s t : mstate) :
  sim s t -> sim (clearCaps gs s) (clearCaps gs t).
Proof.
  intros [w [H1 [H2 [H3 [H4 H5]]]]]; exists w; unfold clearCaps; simpl.
  now rewrite H5.
Qed.

Lemma sim_setCap (k : nat) (s t s1 t1 : mstate) :
  sim s t -> sim s1 t1 -> extends s s1 -> sim (setCap k s s1) (setCap k t t1).
Proof.
  intros [w [H1 [H2 [H3 [H4 H5]]]]] [w1 [K1 [K2 [K3 [K4 K5]]]]] [u [U1 _]].
  exists w1; unfold setCap, consumed; simpl; repeat split; auto.
  rewrite K5; f_equal; f_equal; f_equal.
  assert (Hw : w1 = rev u ++ w).
  { rewrite K1, H1, app_assoc in U1; now apply app_inv_tail in U1. }
  rewrite K1, K2, H1, H2, !length_app, Hw, length_app.
  replace (length (rev u) + length w + length bef1 - (length w + length bef1))
    with (length (rev u)) by lia.
  replace (length (rev u) + length w + length bef2 - (length w + length bef2))
    with (length (rev u)) by lia.
  rewrite <- !app_assoc, !firstn_app, !Nat.sub_diag, !firstn_all; simpl.
  now rewrite !app_nil_r.
Qed.

Section Star.

Variable body : mstate -> list mstate.
Variable greedy : bool.
Hypothesis body_extends : forall x y, In y (body x) -> extends x y.
Hypothesis body_sim :
  forall x tx, sim x tx -> Forall2 sim (filter fits (body x)) (body tx).

Lemma star_sim (f : nat) :
  forall x tx,
    sim x tx ->
    Forall2 sim (filter fits (star body greedy f x)) (star body greedy f tx).
Proof.
  induction f as [|f IH]; intros x tx Hx; simpl.
  - rewrite (sim_fits Hx); constructor; [assumption | constructor].
  - assert (Hmore :
             Forall2 sim
               (filter fits
                  (flat_map (fun y => if progress x y then star body greedy f y
                                      else []) (body x)))
               (flat_map (fun y => if progress tx y then star body greedy f y
                                   else []) (body tx))).
    { apply sim_flat_map; [apply body_sim; assumption | |].
      - intros y Hy Hfit; destruct (progress x y); [|reflexivity].
        eapply filter_fits_outside; [|eassumption].
        intros z Hz; exact (@star_extends body greedy body_extends _ _ _ Hz).
      - intros y ty Hy Hyt.
        rewrite <- (sim_progress Hx Hyt (body_extends _ _ Hy)).
        destruct (progress x y); [apply IH; assumption | constructor]. }
    destruct greedy.
    + rewrite filter_app; apply Forall2_app; [assumption|].
      simpl; rewrite (sim_fits Hx); constructor; [assumption | constructor].
    + simpl; rewrite (sim_fits Hx); constructor; assumption.
Qed.

End Star.

Lemma sim_rest_length (s t : mstate) :
  sim s t -> length (rest t) <= length (rest s).
Proof.
  intros [w [_ [_ [_ [H _]]]]]; rewrite H, length_firstn; lia.
Qed.

Lemma sim_readIf (p : ascii -> bool) (s t : mstate) :
  sim s t -> Forall2 sim (filter fits (readIf p s)) (readIf p t).
Proof.
  intros [w [H1 [H2 [H3 [H4 H5]]]]]; unfold readIf, advance.
  destruct (rest s) as [|c u] eqn:Es.
  - rewrite firstn_nil in H4; rewrite H4; constructor.
  - destruct (n - length w) as [|k] eqn:Ek.
    + simpl in H4; rewrite H4.
      destruct (p c); [|constructor].
      assert (Hf : fits (MState (c :: before s) u (caps s)) = false).
      { unfold fits; cbn [before length]; rewrite H1, length_app.
        apply Nat.leb_gt; lia. }
      cbn [filter]; rewrite Hf; constructor.
    + simpl in H4; rewrite H4.
      destruct (p c); [|constructor].
      assert (Hf : fits (MState (c :: before s) u (caps s)) = true).
      { unfold fits; cbn [before length]; rewrite H1, length_app.
        apply Nat.leb_le; lia. }
      cbn [filter]; rewrite Hf; constructor; [|constructor].
      exists (c :: w); cbn [before rest caps length app].
      rewrite H1, H2, H5; repeat split; auto; [lia|].
      f_equal; lia.
Qed.

Lemma ms_sim (ic : bool) (r : regex) :
  local r = true ->
  forall s t, sim s t -> Forall2 sim (filter fits (ms ic r s)) (ms ic r t).
Proof.
  induction r as [|neg items| |a IHa b IHb|a IHa b IHb|q greedy a IHa|k a IHa| | |neg];
    intros Hl s t Hst; simpl in Hl; try discriminate.
  - simpl; rewrite (sim_fits Hst); constructor; [assumption | constructor].
  - apply sim_readIf; assumption.
  - apply sim_readIf; assumption.
  - apply andb_true_iff in Hl as [Ha Hb]; simpl.
    apply sim_flat_map; [apply IHa; assumption | |].
    + intros s1 _ Hfit; eapply filter_fits_outside; [|eassumption].
      intros s' Hs'; eapply ms_extends; eassumption.
    + intros s1 t1 _ H1; apply IHb; assumption.
  - apply andb_true_iff in Hl as [Ha Hb]; simpl.
    rewrite filter_app; apply Forall2_app; [apply IHa | apply IHb]; assumption.
  - set (body := fun x => ms ic a (clearCaps (groupsOf a) x)).
    assert (Hext : forall x y, In y (body x) -> extends x y).
    { intros x y Hy; apply ms_extends in Hy as [w [H1 H2]]; exists w; split; assumption. }
    assert (Hsim : forall x tx, sim x tx ->
                                Forall2 sim (filter fits (body x)) (body tx)).
    { intros x tx Hx; apply IHa; [assumption | apply sim_clearCaps; assumption]. }
    destruct q; simpl; fold body.
    + rewrite (@star_fuel body greedy Hext (length (rest t)) (length (rest s)) t)
        by (pose proof (sim_rest_length Hst); lia).
      apply star_sim; assumption.
    + apply sim_flat_map; [apply Hsim; assumption | |].
      * intros y Hy Hfit; eapply filter_fits_outside; [|eassumption].
        intros z Hz; exact (@star_extends body greedy Hext _ _ _ Hz).
      * intros y ty Hy Hyt.
        rewrite (@star_fuel body greedy Hext (length (rest ty)) (length (rest y)) ty)
          by (pose proof (sim_rest_length Hyt); lia).
        apply star_sim; assumption.
    + assert (Hone : Forall2 sim (filter fits (filter (progress s) (body s)))
                             (filter (progress t) (body t))).
      { rewrite filter_comm; apply sim_filter; [apply Hsim; assumption|].
        intros y ty Hy Hyt; apply filter_In in Hy as [Hy _].
        apply sim_progress; auto. }
      destruct greedy.
      * rewrite filter_app; apply Forall2_app; [assumption|].
        simpl; rewrite (sim_fits Hst); constructor; [assumption | constructor].
      * simpl; rewrite (sim_fits Hst); constructor; assumption.
  - simpl.
    assert (Hmap : forall L L',
               (forall s1, In s1 L -> extends s s1) ->
               Forall2 sim (filter fits L) L' ->
               Forall2 sim (filter fits (map (setCap k s) L)) (map (setCap k t) L')).
    { induction L as [|x L IHL]; intros L' Hext HL; simpl in *.
      - inversion HL; subst; constructor.
      - change (fits (setCap k s x)) with (fits x).
        destruct (fits x).
        + inversion HL as [|? y ? L'' Hxy HL']; subst; simpl.
          constructor; [apply sim_setCap; auto | apply IHL; auto].
        + apply IHL; auto. }
    apply Hmap; [intros s1 H1; eapply ms_extends; eassumption | apply IHa; assumption].
Qed.

End Span.

(* ================================================================= *)
(** ** Re-parsing the extracted span *)

Lemma local_seqOf (l : list regex) : local (seqOf l) = forallb local l.
Proof. induction l as [|a l IH]; simpl; [reflexivity | now rewrite IH]. Qed.

Lemma local_lits (name : text) : forallb local (map Lit name) = true.
Proof. induction name; simpl; auto. Qed.

Lemma messageStartTree_local (name : text) : local (messageStartTree name) = true.
Proof.
  unfold messageStartTree; rewrite local_seqOf, !forallb_app, local_lits.
  reflexivity.
Qed.

Lemma ms_seqOf_app_inv (ic : bool) (l1 l2 : list regex) :
  forall s s',
    In s' (ms ic (seqOf (l1 ++ l2)) s) ->
    exists s1, In s1 (ms ic (seqOf l1) s) /\ In s' (ms ic (seqOf l2) s1).
Proof.
  induction l1 as [|a l1 IH]; intros s s' H.
  - exists s; split; [now left | exact H].
  - change (seqOf ((a :: l1) ++ l2)) with (Seq a (seqOf (l1 ++ l2))) in H.
    apply ms_seq_inv in H as [s0 [H0 H]].
    apply IH in H as [s1 [H1 H2]].
    exists s1; split; [|assumption].
    change (seqOf (a :: l1)) with (Seq a (seqOf l1)); simpl.
    apply in_flat_map; eauto.
Qed.

(** Every match of the start pattern ends with the opening brace. *)
Lemma messageStartTree_ends_with_brace (name : text) (s s' : mstate) :
  In s' (ms false (messageStartTree name) s) ->
  exists u, reads s (u ++ ["{"%char]) s'.
Proof.
  unfold messageStartTree; intros H.
  replace (commentsTerms ++ keywordTerms "message" ++ map Lit name
           ++ [Rep QStar true (Chr false [ISpace]); Lit "{"])
    with ((commentsTerms ++ keywordTerms "message" ++ map Lit name
           ++ [Rep QStar true (Chr false [ISpace])]) ++ [Lit "{"]) in H
    by (rewrite <- !app_assoc; reflexivity).
  apply ms_seqOf_app_inv in H as [s1 [H1 H2]].
  apply ms_extends in H1 as [u Hu].
  change (seqOf [Lit "{"]) with (Seq (Lit "{") Eps) in H2.
  apply ms_seq_inv in H2 as [s2 [H2 [<- | []]]].
  apply ms_lit_inv in H2.
  exists u; eapply reads_trans; eassumption.
Qed.

Lemma lastIndexOfChar_last (l : text) (c : ascii) :
  forall i found, lastIndexOfChar (l ++ [c]) c i found = Z.of_nat (i + length l).
Proof.
  induction l as [|x l IH]; intros i found; simpl.
  - rewrite Ascii.eqb_refl; f_equal; lia.
  - rewrite IH; f_equal; lia.
Qed.

Lemma lastIndexOf_last (l : text) (c : ascii) :
  lastIndexOf (l ++ [c]) c = Z.of_nat (length l).
Proof. unfold lastIndexOf; now rewrite lastIndexOfChar_last. Qed.

Lemma findClose_firstn (s : text) :
  forall i c E k,
    findClose s i c = E -> E <> (-1)%Z -> (0 <= i)%Z ->
    (E - i < Z.of_nat k)%Z ->
    findClose (firstn k s) i c = E.
Proof.
  induction s as [|x t IH]; intros i c E k H HE Hi Hk; simpl in H; [congruence|].
  destruct k as [|k].
  - pose proof (@findClose_range (x :: t) i c E H HE Hi); lia.
  - simpl.
    assert (Hrec : forall c', findClose t (i + 1) c' = E ->
                              findClose (firstn k t) (i + 1) c' = E).
    { intros c' H'; apply IH; auto; lia. }
    destruct (Ascii.eqb x "{"); [auto|].
    destruct (Ascii.eqb x "}"); [|auto].
    destruct (c - 1 =? 0)%Z; auto.
Qed.

Lemma findClose_shift (s : text) :
  forall i j c E,
    findClose s i c = E -> E <> (-1)%Z ->
    findClose s j c = (E - i + j)%Z.
Proof.
  induction s as [|x t IH]; intros i j c E H HE; simpl in *; [congruence|].
  assert (Hrec : forall c', findClose t (i + 1) c' = E ->
                            findClose t (j + 1) c' = (E - i + j)%Z).
  { intros c' H'; rewrite (IH (i + 1)%Z (j + 1)%Z c' E H' HE); lia. }
  destruct (Ascii.eqb x "{"); [auto|].
  destruct (Ascii.eqb x "}"); [|auto].
  destruct (c - 1 =? 0)%Z; [lia | auto].
Qed.

Lemma substring_firstn_skipn (s : text) (a b : Z) :
  (0 <= a <= b)%Z -> (b <= Z.of_nat (length s))%Z ->
  substring s a b = firstn (Z.to_nat b - Z.to_nat a) (skipn (Z.to_nat a) s).
Proof.
  intros Ha Hb; unfold substring.
  replace (Z.min (Z.max a 0) (Z.of_nat (length s))) with a by lia.
  replace (Z.min (Z.max b 0) (Z.of_nat (length s))) with b by lia.
  replace (Z.min a b) with a by lia.
  replace (Z.max a b) with b by lia.
  f_equal; lia.
Qed.

Lemma skipn_firstn_span (A : Type) (a n : nat) (l : list A) :
  skipn a (firstn n l) = firstn (n - a) (skipn a l).
Proof.
  revert n l; induction a as [|a IH]; intros n l; simpl.
  - now rewrite Nat.sub_0_r.
  - destruct n as [|n]; simpl; [reflexivity|].
    destruct l as [|x l]; simpl; [now rewrite firstn_nil | apply IH].
Qed.

Lemma firstn_firstn_min (A : Type) (a b : nat) (l : list A) :
  firstn a (firstn b l) = firstn (Nat.min a b) l.
Proof. apply firstn_firstn. Qed.

Lemma startAt_before_length (T : text) (i : nat) :
  i <= length T -> length (before (startAt [] T i)) = i.
Proof.
  intros H; unfold startAt; simpl.
  rewrite app_nil_r, length_rev, length_firstn; lia.
Qed.

Lemma matched_reads (T : text) (i : nat) (e : mstate) (w : text) :
  i <= length T -> reads (startAt [] T i) w e ->
  matched (MatchResult i e) = w.
Proof.
  intros Hi Hr; unfold matched; simpl.
  rewrite <- (reads_consumed Hr) at 1; unfold consumed.
  now rewrite startAt_before_length.
Qed.

Lemma exec_head (re : RegExp) (content : text) (e : mstate) (tl : list mstate) :
  ms (re_ignoreCase re) (re_tree re) (MState [] content []) = e :: tl ->
  exec re content = Some (MatchResult 0 e).
Proof.
  intros H; apply exec_first; unfold firstOf; now rewrite H.
Qed.

(** The span from the start of the match to the closing brace is located
    in the same way when it is parsed on its own. *)
Lemma locate_span (name T : text) (l : located) :
  locate (mkRegExp (messageStartTree name) false) T = Some l ->
  l_endIndex l <> (-1)%Z ->
  exists l',
    locate (mkRegExp (messageStartTree name) false) (rawSourceOf T l) = Some l'
    /\ l_endIndex l' <> (-1)%Z
    /\ l_commentPart l' = l_commentPart l
    /\ bodyContentOf (rawSourceOf T l) l' = bodyContentOf T l
    /\ rawSourceOf (rawSourceOf T l) l' = rawSourceOf T l.
Proof.
  intros Hloc HE.
  pose proof (@located_end_range _ _ _ Hloc HE) as Hrange.
  destruct (locate_inv _ _ Hloc) as [m [Hexec [Hstart [Hob [Hend Hcp]]]]].
  destruct (exec_found _ _ Hexec) as [i [tl [Hi [Hidx Hms]]]].
  simpl re_tree in Hms; simpl re_ignoreCase in Hms.
  assert (Hin : In (m_end m) (ms false (messageStartTree name) (startAt [] T i)))
    by (rewrite Hms; now left).
  destruct (messageStartTree_ends_with_brace _ _ _ Hin) as [u Hu].
  assert (Hmatched : matched m = u ++ ["{"%char]).
  { destruct m as [mi me]; simpl in *; subst mi.
    exact (@matched_reads T i me _ Hi Hu). }
  rewrite Hmatched, lastIndexOf_last, Hstart, Hidx in Hob.
  remember (l_openBraceIndex l) as ob eqn:Eob.
  remember (l_endIndex l) as E eqn:EE.
  assert (HobZ : Z.max 0 ob = ob) by lia.
  rewrite HobZ in Hend, Hrange.
  remember (Z.to_nat E + 1 - i) as n eqn:En.
  assert (HR : rawSourceOf T l = firstn n (skipn i T)).
  { unfold rawSourceOf; rewrite <- EE, Hstart, Hidx.
    rewrite substring_firstn_skipn by lia.
    rewrite Nat2Z.id; f_equal; lia. }
  assert (HRlen : length (rawSourceOf T l) = n).
  { rewrite HR, length_firstn, length_skipn; lia. }
  (* the match on the span *)
  assert (Hsim : sim (rev (firstn i T) ++ []) [] n (startAt [] T i)
                     (MState [] (rawSourceOf T l) [])).
  { exists []; simpl; repeat split; auto; [lia|].
    now rewrite Nat.sub_0_r, HR. }
  pose proof (@ms_sim _ _ n false _ (messageStartTree_local name) _ _ Hsim) as Hspan.
  rewrite Hms in Hspan.
  assert (Hbefore : length (before (m_end m)) = length u + 1 + i).
  { destruct Hu as [Hb _]; rewrite Hb, length_app, length_rev, length_app.
    rewrite startAt_before_length by assumption; simpl; lia. }
  assert (Hfits : fits (rev (firstn i T) ++ []) n (m_end m) = true).
  { unfold fits; rewrite Hbefore, app_nil_r, length_rev, length_firstn.
    apply Nat.leb_le; lia. }
  simpl filter in Hspan; rewrite Hfits in Hspan.
  destruct (ms false (messageStartTree name) (MState [] (rawSourceOf T l) []))
    as [|e' tl'] eqn:Heq2; [inversion Hspan|].
  apply Forall2_cons_iff in Hspan as [He' _].
  pose proof (@exec_head (mkRegExp (messageStartTree name) false) _ _ _ Heq2) as Hexec'.
  destruct He' as [w [W1 [W2 [W3 [W4 W5]]]]].
  assert (Hw : w = rev (u ++ ["{"%char])).
  { destruct Hu as [Hb _]; unfold startAt in Hb; simpl in Hb.
    rewrite W1 in Hb; now apply app_inv_tail in Hb. }
  assert (Hmatched' : matched (MatchResult 0 e') = u ++ ["{"%char]).
  { unfold matched; simpl; rewrite Nat.sub_0_r, firstn_all, W2, app_nil_r, Hw.
    apply rev_involutive. }
  (* the closing brace on the span *)
  assert (Hskip : skipn (length u) (rawSourceOf T l)
                  = firstn (n - length u) (skipn (Z.to_nat ob) T)).
  { rewrite HR, skipn_firstn_span, skipn_skipn; do 2 f_equal; lia. }
  assert (Hclose : findClose (skipn (length u) (rawSourceOf T l))
                             (Z.of_nat (length u)) 0
                   = (E - Z.of_nat i)%Z).
  { rewrite Hskip.
    apply findClose_firstn; try lia.
    rewrite (@findClose_shift _ ob (Z.of_nat (length u)) 0 E (eq_sym Hend) HE); lia. }
  eexists; split.
  { unfold locate; rewrite Hexec'; reflexivity. }
  cbn [l_startIndex l_openBraceIndex l_endIndex l_commentPart m_index].
  rewrite Hmatched', lastIndexOf_last.
  replace (Z.max 0 (Z.of_nat 0 + Z.of_nat (length u)))
    with (Z.of_nat (length u)) by lia.
  rewrite Nat2Z.id, Hclose.
  split; [lia|]; split; [|split].
  - rewrite Hcp; unfold group; simpl; now rewrite W5.
  - unfold bodyContentOf; cbn [l_openBraceIndex l_endIndex]; rewrite <- Eob, <- EE.
    rewrite !substring_firstn_skipn by lia.
    rewrite HR, skipn_firstn_span, skipn_skipn, firstn_firstn.
    f_equal; [lia | f_equal; lia].
  - unfold rawSourceOf at 1; cbn [l_startIndex l_endIndex].
    rewrite substring_firstn_skipn by lia.
    simpl skipn; apply firstn_all2; lia.
Qed.

(** The parser used for nested messages with a given amount of fuel. *)
Definition nestedParser (fuel : nat) : text -> text -> outcome MessageInfo :=
  match fuel with
  | 0 => fun _ _ => Diverged
  | S f => Hover.parseMessageFuel f
  end.

Lemma parseMessageFuel_unfold (fuel : nat) (name content : text) :
  Hover.parseMessageFuel fuel name content
  = Hover.parseMessageBody (nestedParser fuel) name content.
Proof. destruct fuel; reflexivity. Qed.

Lemma messageLines_ext (rec1 rec2 : text -> text -> outcome MessageInfo)
      (bodyContent : text) (lines : list text) :
  (forall name, rec1 name bodyContent = rec2 name bodyContent) ->
  forall w, Hover.messageLines rec1 bodyContent w lines
            = Hover.messageLines rec2 bodyContent w lines.
Proof.
  intros Hrec; induction lines as [|line lines IH]; intros w; simpl; [reflexivity|].
  assert (Hline : Hover.messageLine rec1 bodyContent w line
                  = Hover.messageLine rec2 bodyContent w line).
  { unfold Hover.messageLine; cbv zeta.
    destruct (startsWith _ _ && _); [reflexivity|].
    destruct (isBlankOrBrace _); [reflexivity|].
    destruct (w_depth w =? 0)%Z; [|reflexivity].
    destruct (exec Hover.nestedMessageRe _); [now rewrite Hrec | reflexivity]. }
  rewrite Hline; destruct (Hover.messageLine rec2 bodyContent w line);
    cbn [bind]; auto.
Qed.

Lemma bind_ext {A B} (m : outcome A) (k1 k2 : A -> outcome B) :
  (forall a, m = Ret a -> k1 a = k2 a) -> bind m k1 = bind m k2.
Proof. destruct m; simpl; auto. Qed.

(* The hypothesis below mentions the pattern of a symbolic name; implicit
   arguments are not computed for this lemma. *)
Unset Implicit Arguments.

Lemma parseMessageBody_ext (rec1 rec2 : text -> text -> outcome MessageInfo)
      (name content : text) :
  (forall re l nested,
      newRegExp (messageStartPattern name) false = Ret re ->
      locate re content = Some l -> l_endIndex l <> (-1)%Z ->
      rec1 nested (bodyContentOf content l) = rec2 nested (bodyContentOf content l)) ->
  Hover.parseMessageBody rec1 name content = Hover.parseMessageBody rec2 name content.
Proof.
  intros Hrec; unfold Hover.parseMessageBody.
  apply bind_ext; intros re Ere.
  destruct (locate re content) as [l|] eqn:El; [|reflexivity].
  destruct (l_endIndex l =? -1)%Z eqn:Ee; [reflexivity|].
  apply Z.eqb_neq in Ee.
  destruct (l_commentPart l); [|reflexivity].
  rewrite (@messageLines_ext rec1 rec2 (bodyContentOf content l)
             (splitLines (bodyContentOf content l))
             (fun nested => Hrec re l nested Ere El Ee)).
  reflexivity.
Qed.

Set Implicit Arguments.

(** More fuel than the length of the text changes nothing. *)
Lemma parseMessageFuel_irrelevant (f : nat) :
  forall f' name content,
    length content <= f -> length content <= f' ->
    Hover.parseMessageFuel f name content = Hover.parseMessageFuel f' name content.
Proof.
  induction f as [|f IH]; intros f' name content Hf Hf';
    rewrite !parseMessageFuel_unfold; apply parseMessageBody_ext;
    intros re l nested Hre Hl He;
    pose proof (@bodyContent_shorter _ _ _ Hl He) as Hs; [lia|].
  destruct f' as [|f'']; [lia|]; simpl; apply IH; lia.
Qed.

(** [parseMessage] once the pattern of a word name is built. *)
Lemma parseMessageBody_word (rec : text -> text -> outcome MessageInfo)
      (name content : text) :
  wordText name = true ->
  Hover.parseMessageBody rec name content
  = match locate (mkRegExp (messageStartTree name) false) content with
    | None => Ret (mkMessage name [] [] [] None [])
    | Some l =>
        if (l_endIndex l =? -1)%Z then Ret (mkMessage name [] [] [] None [])
        else
          match l_commentPart l with
          | None => Throw TypeError
          | Some commentPart =>
              w <- Hover.messageLines rec (bodyContentOf content l)
                     (mkWalk [] [] [] [] 0) (splitLines (bodyContentOf content l)) ;;
              Ret (mkMessage name (w_fields w) (w_nestedMessages w)
                             (w_nestedEnums w) (leadingComment commentPart)
                             (rawSourceOf content l))
          end
    end.
Proof.
  intros Hw; unfold Hover.parseMessageBody.
  rewrite newRegExp_messageStart by assumption; reflexivity.
Qed.

Lemma flat_parseMessage_word (name content : text) :
  wordText name = true ->
  HoverFlat.parseMessage name content
  = match locate (mkRegExp (messageStartTree name) false) content with
    | None => Ret (mkMessage name [] [] [] None [])
    | Some l =>
        if (l_endIndex l =? -1)%Z then Ret (mkMessage name [] [] [] None [])
        else
          match l_commentPart l with
          | None => Throw TypeError
          | Some commentPart =>
              Ret (mkMessage name
                     (w_fields (fold_left HoverFlat.messageLine
                                  (splitLines (bodyContentOf content l))
                                  (mkWalk [] [] [] [] 0)))
                     [] [] (leadingComment commentPart) (rawSourceOf content l))
          end
    end.
Proof.
  intros Hw; unfold HoverFlat.parseMessage.
  rewrite newRegExp_messageStart by assumption; reflexivity.
Qed.

(** C7, amended. For a name made of word characters, when [parseMessage]
    finds the message and its closing brace (the extracted span is not
    empty), parsing the extracted span again for the same name returns the
    same record, hence the same fields in the same order; this holds for
    both revisions. *)
Theorem reparse_of_rawSource_is_identical :
  forall (name content : text) (m : MessageInfo),
    wordText name = true ->
    m_rawSource m <> [] ->
    (Hover.parseMessage name content = Ret m ->
     Hover.parseMessage name (m_rawSource m) = Ret m)
    /\ (HoverFlat.parseMessage name content = Ret m ->
        HoverFlat.parseMessage name (m_rawSource m) = Ret m).
Proof.
  intros name content m Hw Hraw; split; intros H.
  - unfold Hover.parseMessage in *.
    rewrite parseMessageFuel_unfold in *.
    rewrite (@parseMessageBody_word _ name content Hw) in H.
    destruct (locate _ content) as [l|] eqn:El;
      [|injection H as <-; cbn [m_rawSource] in Hraw; congruence].
    destruct (l_endIndex l =? -1)%Z eqn:Ee;
      [injection H as <-; cbn [m_rawSource] in Hraw; congruence|].
    apply Z.eqb_neq in Ee.
    destruct (l_commentPart l) as [commentPart|] eqn:Ec; [|discriminate].
    destruct (Hover.messageLines _ _ _ _) as [w| | |] eqn:Ew; try discriminate.
    cbn [bind] in H; injection H as <-; cbn [m_rawSource] in *.
    destruct (locate_span _ _ El Ee) as [l' [El' [Ee' [Ec' [Eb Er]]]]].
    rewrite (@parseMessageBody_word _ name (rawSourceOf content l) Hw), El'.
    apply Z.eqb_neq in Ee'; rewrite Ee'; apply Z.eqb_neq in Ee'.
    rewrite Ec', Ec, Eb, Er.
    rewrite (@messageLines_ext _ (nestedParser (length content))), Ew; [reflexivity|].
    intros nested.
    pose proof (@bodyContent_shorter _ _ _ El Ee) as Hs.
    pose proof (@bodyContent_shorter _ _ _ El' Ee') as Hs'.
    rewrite Eb in Hs'.
    destruct (length (rawSourceOf content l)) as [|a]; [lia|].
    destruct (length content) as [|b]; [lia|].
    cbn [nestedParser]; apply parseMessageFuel_irrelevant; lia.
  - rewrite (@flat_parseMessage_word name content Hw) in H.
    destruct (locate _ content) as [l|] eqn:El;
      [|injection H as <-; cbn [m_rawSource] in Hraw; congruence].
    destruct (l_endIndex l =? -1)%Z eqn:Ee;
      [injection H as <-; cbn [m_rawSource] in Hraw; congruence|].
    apply Z.eqb_neq in Ee.
    destruct (l_commentPart l) as [commentPart|] eqn:Ec; [|discriminate].
    injection H as <-; cbn [m_rawSource] in *.
    destruct (locate_span _ _ El Ee) as [l' [El' [Ee' [Ec' [Eb Er]]]]].
    rewrite (@flat_parseMessage_word name (rawSourceOf content l) Hw), El'.
    apply Z.eqb_neq in Ee'; rewrite Ee'.
    now rewrite Ec', Ec, Eb, Er.
Qed.

Definition nestedText : text :=
  str "// the outer message" ++ LF ::
  str "message Outer {" ++ LF ::
  str "  // kept with the field" ++ LF ::
  str "  repeated Inner items = 1; // a list" ++ LF ::
  str "  message Inner { int32 v = 1; }" ++ LF ::
  str "}" ++ LF ::
  str "message Other { }".

Lemma reparse_of_rawSource_is_identical_witness :
  exists m,
    Hover.parseMessage (str "Outer") nestedText = Ret m
    /\ length (m_fields m) = 1
    /\ length (m_nestedMessages m) = 1
    /\ Hover.parseMessage (str "Outer") (m_rawSource m) = Ret m.
Proof.
  assert (H : exists m, Hover.parseMessage (str "Outer") nestedText = Ret m
                        /\ length (m_fields m) = 1
                        /\ length (m_nestedMessages m) = 1
                        /\ m_rawSource m <> []).
  { eexists; split; [vm_compute; reflexivity|].
    repeat split; try reflexivity; simpl; discriminate. }
  destruct H as [m [Hm [Hf [Hn Hraw]]]].
  exists m; repeat split; auto.
  exact (proj1 (@reparse_of_rawSource_is_identical (str "Outer") nestedText m
                  eq_refl Hraw) Hm).
Defined.

(** ** [parseMessage] once the declaration is located *)

(* The hypotheses below mention the pattern of a symbolic name; implicit
   arguments are not computed for these lemmas. *)
Unset Implicit Arguments.

Lemma parseMessageBody_located (rec : text -> text -> outcome MessageInfo)
      (name content : text) (re : RegExp) (l : located) (c : text) :
  newRegExp (messageStartPattern name) false = Ret re ->
  locate re content = Some l ->
  l_endIndex l <> (-1)%Z ->
  l_commentPart l = Some c ->
  Hover.parseMessageBody rec name content
  = (w <- Hover.messageLines rec (bodyContentOf content l) (mkWalk [] [] [] [] 0)
                             (splitLines (bodyContentOf content l)) ;;
     Ret (mkMessage name (w_fields w) (w_nestedMessages w) (w_nestedEnums w)
                    (leadingComment c) (rawSourceOf content l))).
Proof.
  intros Hre Hl He Hc; unfold Hover.parseMessageBody.
  rewrite Hre; cbn [bind]; rewrite Hl.
  apply Z.eqb_neq in He; rewrite He, Hc; reflexivity.
Qed.

Lemma flat_parseMessage_located (name content : text) (re : RegExp)
      (l : located) (c : text) :
  newRegExp (messageStartPattern name) false = Ret re ->
  locate re content = Some l ->
  l_endIndex l <> (-1)%Z ->
  l_commentPart l = Some c ->
  HoverFlat.parseMessage name content
  = Ret (mkMessage name
           (w_fields (fold_left HoverFlat.messageLine
                        (splitLines (bodyContentOf content l))
                        (mkWalk [] [] [] [] 0)))
           [] [] (leadingComment c) (rawSourceOf content l)).
Proof.
  intros Hre Hl He Hc; unfold HoverFlat.parseMessage.
  rewrite Hre; cbn [bind]; rewrite Hl.
  apply Z.eqb_neq in He; rewrite He, Hc; reflexivity.
Qed.

Set Implicit Arguments.


(** A message whose first field has the tag [abc]. *)
Definition tagText : text :=
  str "message M {" ++ LF ::
  str "  string x = abc;" ++ LF ::
  str "  // kept with y" ++ LF ::
  str "  int32 y = 2;" ++ LF ::
  str "}".

Definition tagLocated : located := Eval vm_compute in
  match locate (literal "((?:\/\*[\s\S]*?\*\/\s*|\/\/[^\n]*\n\s*)*)message\s+M\s*\{") tagText with
  | Some l => l
  | None => mkLocated 0 0 0 None
  end.


(* ================================================================= *)
(** * Further properties *)

(* ================================================================= *)
(** ** The list of candidate files *)

Lemma uniqueFrom_In (files seen : list path) (f : path) :
  In f (uniqueFrom seen files) <-> In f files /\ ~ In f seen.
Proof.
  revert seen; induction files as [|g files IH]; intros seen; simpl.
  - tauto.
  - destruct (existsb (text_eqb g) seen) eqn:E.
    + apply existsb_text_eqb_In in E.
      rewrite IH; split.
      * intros [H1 H2]; auto.
      * intros [[<- | H1] H2]; [contradiction | auto].
    + assert (Hg : ~ In g seen).
      { intros Hin.
        assert (existsb (text_eqb g) seen = true); [|congruence].
        apply existsb_exists; exists g; split; [assumption | apply text_eqb_refl]. }
      simpl; rewrite IH; simpl; split.
      * intros [<- | [H1 H2]]; [auto | split; [auto | intros H; apply H2; auto]].
      * intros [[<- | H1] H2]; [auto|].
        destruct (list_eq_dec ascii_dec g f) as [<- | Hne]; [auto|].
        right; split; [assumption | intros [H | H]; [congruence | contradiction]].
Qed.

Lemma uniqueFrom_NoDup (files seen : list path) : NoDup (uniqueFrom seen files).
Proof.
  revert seen; induction files as [|g files IH]; intros seen; simpl.
  - constructor.
  - destruct (existsb (text_eqb g) seen); [apply IH|].
    constructor; [|apply IH].
    rewrite uniqueFrom_In; intros [_ H]; apply H; now left.
Qed.


(** X1: the candidate files are read in the order in which they were
    collected, each of them once: the document, then the files of the
    imports, then the files under the search roots. *)
Theorem candidates_are_examined_once :
  forall q : query,
    NoDup (uniqueFiles q)
    /\ (forall f, In f (uniqueFiles q) <-> In f (candidateFiles q))
    /\ hd_error (uniqueFiles q) = Some (q_document q)
    /\ (forall f g rest,
           uniqueFiles q = f :: rest -> In g (q_imported q) -> g <> f ->
           exists l1 l2, rest = l1 ++ g :: l2
                         /\ forall h, In h l1 -> In h (q_imported q)).
Proof.
  intros q; unfold uniqueFiles.
  split; [apply uniqueFrom_NoDup|].
  split; [intros f; rewrite uniqueFrom_In; simpl; tauto|].
  split; [reflexivity|].
  intros f g rest Hu Hg Hne.
  unfold candidateFiles in Hu; simpl in Hu; injection Hu as <- <-.
  assert (Hin : In g (uniqueFrom [q_document q] (q_imported q ++ concat (q_scanned q)))).
  { apply uniqueFrom_In; split; [apply in_or_app; now left|].
    intros [H | []]; congruence. }
  clear Hne.
  revert Hin Hg; generalize [q_document q] as seen.
  generalize (concat (q_scanned q)) as scanned.
  induction (q_imported q) as [|i imported IH]; intros scanned seen Hin Hg; [destruct Hg|].
  simpl in Hin |- *.
  destruct (existsb (text_eqb i) seen) eqn:E.
  - destruct Hg as [-> | Hg].
    + apply uniqueFrom_In in Hin as [_ Hn].
      apply existsb_text_eqb_In in E; contradiction.
    + destruct (IH scanned seen Hin Hg) as [l1 [l2 [-> Hl]]].
      exists l1, l2; split; [reflexivity | intros h Hh; right; auto].
  - destruct (list_eq_dec ascii_dec i g) as [-> | Hne].
    + exists [], (uniqueFrom (g :: seen) (imported ++ scanned)); split; [reflexivity|].
      intros h [].
    + destruct Hin as [Hin | Hin]; [congruence|].
      destruct Hg as [Hg | Hg]; [congruence|].
      destruct (IH scanned (i :: seen) Hin Hg) as [l1 [l2 [-> Hl]]].
      exists (i :: l1), l2; split; [reflexivity|].
      intros h [<- | Hh]; [now left | right; auto].
Qed.

(* ================================================================= *)
(** ** Qualified names *)

Definition infoName (i : Info) : text :=
  match i with
  | IMessage m => m_name m
  | IEnum e => e_name e
  end.

Lemma join_cons (sep x : text) (y : text) (l : list text) :
  join sep (x :: y :: l) = x ++ sep ++ join sep (y :: l).
Proof. reflexivity. Qed.

Lemma join_qualified (c : ascii) (a b : text) (l : list text) :
  join [c] ((a ++ c :: b) :: l) = a ++ c :: join [c] (b :: l).
Proof.
  destruct l as [|y l]; [reflexivity|].
  rewrite !join_cons, <- !app_assoc; reflexivity.
Qed.

Lemma findFirst_some {A} (p : A -> bool) (l : list A) (x : A) :
  findFirst p l = Some x -> In x l /\ p x = true.
Proof.
  induction l as [|y l IH]; simpl; [discriminate|].
  destruct (p y) eqn:E; [intros [= <-]; auto | intros H; destruct (IH H); auto].
Qed.

Lemma findFirst_none {A} (p : A -> bool) (l : list A) :
  findFirst p l = None -> forall x, In x l -> p x = false.
Proof.
  induction l as [|y l IH]; simpl; [intros _ x []|].
  destruct (p y) eqn:E; [discriminate|].
  intros H x [<- | Hx]; auto.
Qed.

Lemma descend_name :
  forall (names : list text) (info found : Info),
    HoverResolver.descend info names = Some found ->
    infoName found = join (str ".") (infoName info :: names).
Proof.
  induction names as [|nextName names IH]; intros info found H.
  - simpl in H; injection H as <-; reflexivity.
  - simpl in H; destruct info as [m|e]; [|discriminate].
    destruct (findFirst _ (m_nestedMessages m)) as [n|] eqn:En.
    + apply findFirst_some in En as [_ En]; apply text_eqb_eq in En.
      apply IH in H; rewrite H;
        cbn [infoName HoverResolver.qualify m_name e_name].
      change (str ".") with ["."%char]; rewrite join_qualified, En; reflexivity.
    + destruct (findFirst _ (m_nestedEnums m)) as [e|] eqn:Ee; [|discriminate].
      apply findFirst_some in Ee as [_ Ee]; apply text_eqb_eq in Ee.
      apply IH in H; rewrite H;
        cbn [infoName HoverResolver.qualify m_name e_name].
      change (str ".") with ["."%char]; rewrite join_qualified, Ee; reflexivity.
Qed.

(** X2: the walk of [getMessageOrEnumInfo] from a message down a path of
    nested names: what it returns is one of the nested descriptions, found
    by exact name at every step, and it carries the dotted path as its
    name; the walk never goes through an enum. *)
Theorem nested_description_carries_dotted_name :
  forall (names : list text) (info found : Info),
    HoverResolver.descend info names = Some found ->
    infoName found = join (str ".") (infoName info :: names)
    /\ (names <> [] -> exists m, info = IMessage m)
    /\ (forall m last, info = IMessage m -> names = [last] ->
          (exists n, In n (m_nestedMessages m) /\ m_name n = last
                     /\ found = HoverResolver.qualify (m_name m) (IMessage n))
          \/ (exists e, In e (m_nestedEnums m) /\ e_name e = last
                        /\ (forall n, In n (m_nestedMessages m) -> m_name n <> last)
                        /\ found = HoverResolver.qualify (m_name m) (IEnum e))).
Proof.
  intros names info found H.
  split; [exact (descend_name _ _ H)|].
  destruct names as [|nextName names].
  - split; [congruence | discriminate].
  - simpl in H; destruct info as [m|e]; [|discriminate].
    split; [intros _; eauto|].
    intros m' last [= <-] [= -> ->].
    destruct (findFirst _ (m_nestedMessages m)) as [n|] eqn:En.
    + apply findFirst_some in En as [Hin En]; apply text_eqb_eq in En.
      simpl in H; injection H as <-; left; exists n; auto.
    + destruct (findFirst _ (m_nestedEnums m)) as [e|] eqn:Ee; [|discriminate].
      apply findFirst_some in Ee as [Hin Ee]; apply text_eqb_eq in Ee.
      simpl in H; injection H as <-; right; exists e.
      repeat split; auto.
      intros n Hn Hname.
      pose proof (findFirst_none _ _ En n Hn) as Hf; simpl in Hf.
      rewrite Hname, text_eqb_refl in Hf; discriminate.
Qed.

Definition outerInfo : Info :=
  IMessage (mkMessage (str "Outer") []
              [mkMessage (str "Inner") [] [] [mkEnum (str "Kind") [] None []] None []]
              [] None []).

Lemma nested_description_carries_dotted_name_witness :
  exists found,
    HoverResolver.descend outerInfo [str "Inner"] = Some found
    /\ infoName found = str "Outer.Inner".
Proof.
  eexists; split; [reflexivity|].
  exact (proj1 (@nested_description_carries_dotted_name [str "Inner"] outerInfo _
                  eq_refl)).
Defined.

(* ================================================================= *)
(** ** The package prefix of a qualified reference *)

Lemma splitOn_nonempty (sep : ascii) (s : text) : splitOn sep s <> [].
Proof.
  destruct s as [|c t]; simpl; [discriminate|].
  destruct (Ascii.eqb c sep); [discriminate|].
  destruct (splitOn sep t); discriminate.
Qed.

Lemma splitOn_app (sep : ascii) (a b : text) :
  splitOn sep (a ++ sep :: b) = splitOn sep a ++ splitOn sep b.
Proof.
  induction a as [|c a IH]; simpl.
  - now rewrite Ascii.eqb_refl.
  - destruct (Ascii.eqb c sep); [now rewrite IH|].
    rewrite IH.
    pose proof (splitOn_nonempty sep a) as Hn.
    destruct (splitOn sep a) as [|l ls]; [congruence | reflexivity].
Qed.

Lemma startsWith_skipn (p s : text) :
  startsWith s p = true -> s = p ++ skipn (length p) s.
Proof.
  revert s; induction p as [|x p IH]; intros s; simpl; [now destruct s|].
  destruct s as [|y s]; [discriminate|].
  intros H; apply andb_true_iff in H as [Hxy Hs].
  apply Ascii.eqb_eq in Hxy; subst y; simpl; f_equal; auto.
Qed.

Lemma startsWith_app (p s : text) : startsWith (p ++ s) p = true.
Proof.
  induction p as [|x p IH]; simpl; [now destruct s|].
  now rewrite Ascii.eqb_refl.
Qed.

Lemma forallb_combine_refl (l : list text) :
  forallb (fun pq => text_eqb (fst pq) (snd pq)) (combine l l) = true.
Proof.
  induction l as [|x l IH]; simpl; [reflexivity|].
  now rewrite text_eqb_refl.
Qed.

Lemma relativeParts_prefixed (pkg rest : text) :
  pkg <> [] ->
  DefinitionProvider.relativeParts pkg (pkg ++ "."%char :: rest) = splitOn "." rest.
Proof.
  intros Hp; unfold DefinitionProvider.relativeParts; cbv zeta.
  assert (Hs : startsWith (pkg ++ "."%char :: rest) (pkg ++ str ".") = true).
  { change (pkg ++ "."%char :: rest) with (pkg ++ str "." ++ rest).
    rewrite app_assoc; apply startsWith_app. }
  rewrite Hs, splitOn_app.
  destruct pkg as [|c pkg']; [congruence|].
  generalize (splitOn "." (c :: pkg')) (splitOn "." rest); intros pp rp.
  rewrite firstn_app, Nat.sub_diag, firstn_all, firstn_O, app_nil_r.
  rewrite forallb_combine_refl, length_app.
  replace (length pp <=? length pp + length rp) with true
    by (symmetry; apply Nat.leb_le; lia).
  cbn [andb].
  rewrite skipn_app, Nat.sub_diag, skipn_all; reflexivity.
Qed.

Lemma matchParts_prefixed (target content rest : text) :
  HoverResolver.packageName content <> [] ->
  target = HoverResolver.packageName content ++ str "." ++ rest ->
  HoverResolver.matchParts target content = splitOn "." rest.
Proof.
  intros Hp ->.
  unfold HoverResolver.matchParts, HoverResolver.stripsPackage.
  destruct (HoverResolver.packageName content) as [|c pkg'] eqn:E; [congruence|].
  rewrite app_assoc, startsWith_app, <- app_assoc.
  unfold substringFrom.
  replace (length (c :: pkg') + 1) with (length ((c :: pkg') ++ str "."))
    by (rewrite length_app; reflexivity).
  rewrite app_assoc, skipn_app, Nat.sub_diag, skipn_all; reflexivity.
Qed.

Lemma matchParts_unprefixed (target content : text) :
  startsWith target (HoverResolver.packageName content ++ str ".") = false ->
  HoverResolver.matchParts target content = splitOn "." target.
Proof.
  intros Hs; unfold HoverResolver.matchParts, HoverResolver.stripsPackage.
  rewrite Hs; now destruct (HoverResolver.packageName content).
Qed.

(** X3: the hover resolver and the definition resolver take the package of the
    file off a qualified reference in the same way: for a file of package
    [P] the reference [P.rest] is looked up as [rest], and a reference that
    does not start with [P.] is looked up as it stands. The comparison of
    the leading parts in the definition resolver never fails after the test
    of the prefix. *)
Theorem resolvers_strip_the_package_alike :
  forall target content : text,
    HoverResolver.matchParts target content
    = DefinitionProvider.relativeParts (HoverResolver.packageName content) target
    /\ (forall rest,
          HoverResolver.packageName content <> [] ->
          target = HoverResolver.packageName content ++ str "." ++ rest ->
          HoverResolver.matchParts target content = splitOn "." rest)
    /\ (startsWith target (HoverResolver.packageName content ++ str ".") = false ->
        HoverResolver.matchParts target content = splitOn "." target).
Proof.
  intros target content.
  split; [|split; [intros rest; apply matchParts_prefixed
                  | apply matchParts_unprefixed]].
  destruct (HoverResolver.packageName content) as [|c pkg'] eqn:E.
  - unfold HoverResolver.matchParts, HoverResolver.stripsPackage; rewrite E; reflexivity.
  - destruct (startsWith target ((c :: pkg') ++ str ".")) eqn:Es.
    + pose proof (startsWith_skipn _ _ Es) as Ht.
      rewrite <- app_assoc in Ht.
      remember (skipn (length ((c :: pkg') ++ str ".")) target) as rest eqn:Er.
      clear Er Es.
      rewrite (@matchParts_prefixed target content rest); [|rewrite E; discriminate
                                                          |now rewrite E].
      rewrite Ht; symmetry; apply relativeParts_prefixed; discriminate.
    + rewrite matchParts_unprefixed by (now rewrite E).
      unfold DefinitionProvider.relativeParts; cbv zeta; now rewrite Es.
Qed.

(* ================================================================= *)
(** ** The end of a block *)

(** What one line adds to [braceCount] in [findBlockEnd]: the braces it
    opens less the braces it closes, comments left out. *)
Definition netBraces (line : text) : Z :=
  let cleanLine := removeFirst DefinitionProvider.blockCommentRe
                     (removeFirst DefinitionProvider.lineCommentRe line) in
  (countChar "{" cleanLine - countChar "}" cleanLine)%Z.

Definition openBraces (lines : list text) : Z :=
  fold_right (fun line acc => (netBraces line + acc)%Z) 0%Z lines.

Lemma blockEndLoop_spec (lines : list text) :
  forall (i braceCount : Z),
  exists k : nat,
    DefinitionProvider.blockEndLoop lines i braceCount (i + Z.of_nat (length lines))%Z
    = (i + Z.of_nat k)%Z
    /\ k <= length lines
    /\ (forall j, j < k -> (0 < braceCount + openBraces (firstn (S j) lines))%Z)
    /\ (k < length lines -> (braceCount + openBraces (firstn (S k) lines) <= 0)%Z).
Proof.
  induction lines as [|line lines IH]; intros i braceCount.
  - exists 0; simpl; repeat split; try lia.
  - cbn [DefinitionProvider.blockEndLoop]; cbv zeta.
    fold (netBraces line).
    destruct (braceCount + netBraces line <=? 0)%Z eqn:E.
    + apply Z.leb_le in E.
      exists 0; repeat split; try lia; cbn [length]; try lia.
      intros _; cbn [firstn openBraces fold_right]; lia.
    + apply Z.leb_gt in E.
      destruct (IH (i + 1)%Z (braceCount + netBraces line)%Z) as [k [Hk [Hle [Hopen Hclose]]]].
      exists (S k).
      replace (i + Z.of_nat (length (line :: lines)))%Z
        with (i + 1 + Z.of_nat (length lines))%Z by (cbn [length]; lia).
      rewrite Hk; repeat split.
      * lia.
      * cbn [length]; lia.
      * intros j Hj; destruct j as [|j].
        -- cbn [firstn openBraces fold_right]; lia.
        -- specialize (Hopen j ltac:(lia)).
           change (firstn (S (S j)) (line :: lines)) with (line :: firstn (S j) lines).
           cbn [openBraces fold_right]; fold (openBraces (firstn (S j) lines)); lia.
      * intros Hlt; cbn [length] in Hlt; specialize (Hclose ltac:(lia)).
        change (firstn (S (S k)) (line :: lines)) with (line :: firstn (S k) lines).
        cbn [openBraces fold_right]; fold (openBraces (firstn (S k) lines)); lia.
Qed.

(** X4: [findBlockEnd] returns the first line, from [startLine] on, after which
    the braces opened since [startLine] are all closed, and the number of
    lines when there is no such line; comments do not count. A start line
    that opens no more braces than it closes is its own end. *)
Theorem block_end_is_the_first_closing_line :
  forall (lines : list text) (startLine : nat),
    startLine <= length lines ->
    exists k : nat,
      DefinitionProvider.findBlockEnd lines (Z.of_nat startLine)
      = Z.of_nat (startLine + k)
      /\ startLine + k <= length lines
      /\ (forall j, j < k ->
            (0 < openBraces (firstn (S j) (skipn startLine lines)))%Z)
      /\ (startLine + k < length lines ->
          (openBraces (firstn (S k) (skipn startLine lines)) <= 0)%Z).
Proof.
  intros lines startLine Hs; unfold DefinitionProvider.findBlockEnd.
  rewrite Nat2Z.id.
  destruct (blockEndLoop_spec (skipn startLine lines) (Z.of_nat startLine) 0)
    as [k [Hk [Hle [Hopen Hclose]]]].
  rewrite length_skipn in *.
  replace (Z.of_nat startLine + Z.of_nat (length lines - startLine))%Z
    with (Z.of_nat (length lines)) in Hk by lia.
  exists k; rewrite Hk; repeat split; try lia; assumption.
Qed.

Lemma block_end_is_the_first_closing_line_witness :
  exists k : nat,
    DefinitionProvider.findBlockEnd
      [str "message M { // {"; str "  int32 x = 1;"; str "}"; str "message N {}"] 0
    = Z.of_nat (0 + k)
    /\ k = 2.
Proof.
  destruct (@block_end_is_the_first_closing_line
              [str "message M { // {"; str "  int32 x = 1;"; str "}"; str "message N {}"]
              0 ltac:(simpl; lia)) as [k [Hk _]].
  exists k; split; [exact Hk|].
  assert (He : DefinitionProvider.findBlockEnd
                 [str "message M { // {"; str "  int32 x = 1;"; str "}";
                  str "message N {}"] (Z.of_nat 0) = 2%Z) by (vm_compute; reflexivity).
  rewrite He in Hk; lia.
Defined.

(* ================================================================= *)
(** ** The range of a definition *)

Lemma indexOfFrom_found (p : text) :
  forall (s : text) (i : nat) (r : Z),
    indexOfFrom s p i = r -> r <> (-1)%Z ->
    exists k, r = Z.of_nat (i + k) /\ k <= length s
              /\ startsWith (skipn k s) p = true.
Proof.
  induction s as [|c s IH]; intros i r H Hr; cbn [indexOfFrom] in H.
  - destruct (startsWith [] p) eqn:E; [|symmetry in H; contradiction].
    exists 0; subst r; repeat split; [f_equal; lia | simpl; lia | exact E].
  - destruct (startsWith (c :: s) p) eqn:E.
    + exists 0; subst r; repeat split; [f_equal; lia | simpl; lia | exact E].
    + destruct (IH (S i) r H Hr) as [k [H1 [H2 H3]]].
      exists (S k); repeat split; [rewrite H1; f_equal; lia | simpl; lia | exact H3].
Qed.

Lemma indexOfFrom_occurs (p post : text) :
  forall (pre : text) (i : nat),
    indexOfFrom (pre ++ p ++ post) p i <> (-1)%Z.
Proof.
  induction pre as [|c pre IH]; intros i.
  - simpl app.
    destruct (p ++ post) as [|x t] eqn:E.
    + destruct p; [|discriminate]; simpl; lia.
    + cbn [indexOfFrom]; rewrite <- E, startsWith_app; lia.
  - simpl app; cbn [indexOfFrom].
    destruct (startsWith (c :: pre ++ p ++ post) p); [lia | apply IH].
Qed.

Lemma startsWith_firstn (p s : text) :
  startsWith s p = true -> firstn (length p) s = p.
Proof.
  intros H; rewrite (startsWith_skipn _ _ H) at 1.
  rewrite firstn_app, Nat.sub_diag, firstn_all, firstn_O, app_nil_r; reflexivity.
Qed.

Lemma substring_span (s : text) (a len : nat) :
  a + len <= length s ->
  substring s (Z.of_nat a) (Z.of_nat a + Z.of_nat (len)) = firstn len (skipn a s).
Proof.
  intros H; unfold substring; cbv zeta.
  replace (Z.max (Z.of_nat a) 0) with (Z.of_nat a) by lia.
  replace (Z.max (Z.of_nat a + Z.of_nat len) 0) with (Z.of_nat (a + len)) by lia.
  replace (Z.min (Z.of_nat a) (Z.of_nat (length s))) with (Z.of_nat a) by lia.
  replace (Z.min (Z.of_nat (a + len)) (Z.of_nat (length s)))
    with (Z.of_nat (a + len)) by lia.
  replace (Z.min (Z.of_nat a) (Z.of_nat (a + len))) with (Z.of_nat a) by lia.
  replace (Z.max (Z.of_nat a) (Z.of_nat (a + len))) with (Z.of_nat (a + len)) by lia.
  replace (Z.to_nat (Z.of_nat (a + len) - Z.of_nat a)) with len by lia.
  now rewrite Nat2Z.id.
Qed.

(** A match of [exec] is a piece of the text, at the index of the match. *)
Lemma exec_occurs (re : RegExp) (line : text) (m : matchResult) :
  exec re line = Some m ->
  line = firstn (m_index m) line ++ matched m ++ rest (m_end m)
  /\ m_index m <= length line.
Proof.
  intros H; destruct (exec_found _ _ H) as [k [tl [Hk [Hi Hms]]]].
  assert (Hin : In (m_end m) (ms (re_ignoreCase re) (re_tree re) (startAt [] line k)))
    by (rewrite Hms; now left).
  apply ms_extends in Hin as [w Hw].
  destruct m as [i e]; simpl in *; subst i.
  rewrite (@matched_reads line k e w Hk Hw).
  destruct Hw as [_ Hw]; unfold startAt in Hw; simpl in Hw.
  split; [|assumption].
  rewrite <- Hw; symmetry; apply firstn_skipn.
Qed.

(** Adding the first place of [target] in [mt] to the first place of [mt]
    in [line] gives a place of [target] in [line]. *)
Lemma indexOf_sum_spells (line mt target : text) :
  indexOf line mt <> (-1)%Z ->
  indexOf mt target <> (-1)%Z ->
  let index := (indexOf line mt + indexOf mt target)%Z in
  substring line index (index + Z.of_nat (length target)) = target
  /\ (0 <= index)%Z
  /\ (index + Z.of_nat (length target) <= Z.of_nat (length line))%Z.
Proof.
  intros Hocc Htarget index; subst index.
  destruct (indexOfFrom_found _ _ _ eq_refl Hocc) as [i [Hi [Hil Hsi]]].
  destruct (indexOfFrom_found _ _ _ eq_refl Htarget) as [j [Hj [Hjl Hsj]]].
  fold (indexOf line mt) in Hi.
  fold (indexOf mt target) in Hj.
  simpl in Hi, Hj.
  pose proof (startsWith_skipn _ _ Hsi) as Ei.
  pose proof (startsWith_skipn _ _ Hsj) as Ej.
  remember (skipn (length mt) (skipn i line)) as t1 eqn:Et1; clear Et1.
  remember (skipn (length target) (skipn j mt)) as t2 eqn:Et2; clear Et2.
  assert (Hskip : skipn (i + j) line = target ++ t2 ++ t1).
  { rewrite Nat.add_comm, <- skipn_skipn, Ei, skipn_app.
    replace (j - length mt) with 0 by lia.
    rewrite skipn_O, Ej, <- app_assoc; reflexivity. }
  assert (Hlen : i + j + length target <= length line).
  { pose proof (f_equal (@length ascii) Hskip) as Hl.
    rewrite length_skipn, !length_app in Hl.
    assert (i + j <= length line); [|lia].
    pose proof (f_equal (@length ascii) Ei) as Hl1.
    rewrite length_skipn, length_app in Hl1. lia. }
  rewrite Hi, Hj.
  repeat split; try lia.
  replace (Z.of_nat i + Z.of_nat j)%Z with (Z.of_nat (i + j)) by lia.
  rewrite substring_span by lia.
  rewrite Hskip, firstn_app, Nat.sub_diag, firstn_all, firstn_O, app_nil_r.
  reflexivity.
Qed.

(** X5: the range that the definition provider returns for a match on a line
    spells the target, when the text of the match holds the target: it
    starts where the target first stands in the text of the match, counted
    from the first place of that text in the line. *)
Theorem definition_range_spells_the_target :
  forall (re : RegExp) (filePath : path) (lineIndex : Z) (line target : text)
         (m : matchResult),
    exec re line = Some m ->
    indexOf (matched m) target <> (-1)%Z ->
    let location :=
      DefinitionProvider.getTargetLocationInline filePath lineIndex line target m in
    substring line (DefinitionProvider.loc_start location)
              (DefinitionProvider.loc_end location) = target
    /\ (0 <= DefinitionProvider.loc_start location)%Z
    /\ (DefinitionProvider.loc_end location <= Z.of_nat (length line))%Z
    /\ DefinitionProvider.loc_line location = lineIndex
    /\ DefinitionProvider.loc_file location = filePath.
Proof.
  intros re filePath lineIndex line target m Hexec Htarget location; subst location.
  destruct (exec_occurs _ _ Hexec) as [Hline _].
  assert (Hocc : indexOf line (matched m) <> (-1)%Z).
  { rewrite Hline; apply indexOfFrom_occurs. }
  destruct (indexOf_sum_spells _ _ _ Hocc Htarget) as [H1 [H2 H3]].
  unfold DefinitionProvider.getTargetLocationInline; cbv zeta.
  cbn [DefinitionProvider.loc_start DefinitionProvider.loc_end
       DefinitionProvider.loc_line DefinitionProvider.loc_file].
  repeat split; assumption.
Qed.

Lemma definition_range_spells_the_target_witness :
  exists m,
    exec (literal "\s*(message|enum)\s*Status\s*{") (str "  message Status {") = Some m
    /\ substring (str "  message Status {")
         (DefinitionProvider.loc_start
            (DefinitionProvider.getTargetLocationInline [] 0 (str "  message Status {")
               (str "Status") m))
         (DefinitionProvider.loc_end
            (DefinitionProvider.getTargetLocationInline [] 0 (str "  message Status {")
               (str "Status") m))
       = str "Status"
    /\ DefinitionProvider.getTargetLocationInline [] 0 (str "  message Status {")
         (str "Status") m
       = DefinitionProvider.mkLocation [] 0 10 16.
Proof.
  eexists; split; [vm_compute; reflexivity|].
  split; [|vm_compute; reflexivity].
  refine (proj1 (@definition_range_spells_the_target
                   (literal "\s*(message|enum)\s*Status\s*{") [] 0 _ _ _ _ _));
    [vm_compute; reflexivity | vm_compute; discriminate].
Defined.

(* ================================================================= *)
(** ** The lookup of a reference without a dot *)

Definition simplePrefix : text := Eval vm_compute in str "\s*(message|enum)\s*".

(** The terms in front of the name in the pattern of the lookup. *)
Definition simplePrefixTerms : list regex := Eval vm_compute in
  match parsePattern simplePrefix with
  | POk r => (fix terms r := match r with Seq a b => a :: terms b | _ => [] end) r
  | _ => []
  end.

(** The tree of the pattern for a target of word characters. *)
Definition simpleTree (target : text) : regex :=
  seqOf (simplePrefixTerms ++ map Lit target
         ++ [Rep QStar true (Chr false [ISpace]); Lit "{"]).

Definition simplePrefixState : pstate := Eval vm_compute in
  match (fix go st l :=
           match l with
           | [] => POk st
           | c :: t => match step st c t with POk st' => go st' t | e => e end
           end) initialState simplePrefix with
  | POk st => st
  | _ => initialState
  end.

Lemma parsePattern_simple (target : text) :
  wordText target = true ->
  parsePattern (DefinitionProvider.simplePattern target) = POk (simpleTree target).
Proof.
  intros Hw; unfold parsePattern, DefinitionProvider.simplePattern.
  transitivity (parseLoop simplePrefixState (target ++ str "\s*{")); [reflexivity|].
  rewrite parseLoop_word by auto.
  lazy -[rev map app mkSeq seqOf simpleTree].
  rewrite !mkSeq_seqOf; simpl rev.
  rewrite !rev_app_distr, rev_involutive; simpl rev.
  rewrite <- !app_assoc; reflexivity.
Qed.

Lemma newRegExp_simple (target : text) :
  wordText target = true ->
  newRegExp (DefinitionProvider.simplePattern target) false
  = Ret (mkRegExp (simpleTree target) false).
Proof. intros H; unfold newRegExp; now rewrite parsePattern_simple. Qed.

(** A run of literals reads its characters. *)
Lemma ms_lits_inv (name : text) :
  forall s s', In s' (ms false (seqOf (map Lit name)) s) -> reads s name s'.
Proof.
  induction name as [|c name IH]; intros s s' H.
  - destruct H as [<- | []]; apply reads_refl.
  - change (seqOf (map Lit (c :: name))) with (Seq (Lit c) (seqOf (map Lit name))) in H.
    apply ms_seq_inv in H as [s1 [H1 H2]].
    apply ms_lit_inv in H1; apply IH in H2.
    exact (reads_trans H1 H2).
Qed.

(** A match of a sequence that holds the literals of [name] reads a text
    that holds [name]. *)
Lemma ms_holds_name (pre post : list regex) (name : text) (s s' : mstate) :
  In s' (ms false (seqOf (pre ++ map Lit name ++ post)) s) ->
  exists u v, reads s (u ++ name ++ v) s'.
Proof.
  intros H.
  apply ms_seqOf_app_inv in H as [s1 [H1 H]].
  apply ms_seqOf_app_inv in H as [s2 [H2 H3]].
  apply ms_extends in H1 as [u Hu].
  apply ms_lits_inv in H2.
  apply ms_extends in H3 as [v Hv].
  exists u, v; exact (reads_trans Hu (reads_trans H2 Hv)).
Qed.

Lemma exec_holds_name (pre post : list regex) (name line : text) (m : matchResult) :
  exec (mkRegExp (seqOf (pre ++ map Lit name ++ post)) false) line = Some m ->
  indexOf (matched m) name <> (-1)%Z.
Proof.
  intros H; destruct (exec_found _ _ H) as [k [tl [Hk [Hi Hms]]]].
  simpl in Hms.
  assert (Hin : In (m_end m) (ms false (seqOf (pre ++ map Lit name ++ post))
                                 (startAt [] line k)))
    by (rewrite Hms; now left).
  apply ms_holds_name in Hin as [u [v Hr]].
  destruct m as [i e]; simpl in *; subst i.
  rewrite (@matched_reads line k e _ Hk Hr).
  apply indexOfFrom_occurs.
Qed.

Lemma simpleLoop_word (filePath : path) (target : text) (lines : list text) :
  wordText target = true ->
  forall lineIndex,
    (DefinitionProvider.simpleLoop filePath target lines lineIndex = Ret None
     /\ forall line, In line lines ->
                     exec (mkRegExp (simpleTree target) false) line = None)
    \/ exists before line after m,
         lines = before ++ line :: after
         /\ (forall l, In l before ->
                       exec (mkRegExp (simpleTree target) false) l = None)
         /\ exec (mkRegExp (simpleTree target) false) line = Some m
         /\ DefinitionProvider.simpleLoop filePath target lines lineIndex
            = Ret (Some (DefinitionProvider.getTargetLocationInline
                           filePath (lineIndex + Z.of_nat (length before)) line
                           target m)).
Proof.
  intros Hw; induction lines as [|line lines IH]; intros lineIndex.
  - left; split; [reflexivity | intros line []].
  - cbn [DefinitionProvider.simpleLoop].
    rewrite newRegExp_simple by assumption; cbn [bind].
    destruct (exec (mkRegExp (simpleTree target) false) line) as [m|] eqn:E.
    + right; exists [], line, lines, m; repeat split; auto.
      * intros l [].
      * simpl; now rewrite Z.add_0_r.
    + destruct (IH (lineIndex + 1)%Z) as [[H1 H2] | [before [l [after [m [H1 [H2 [H3 H4]]]]]]]].
      * left; split; [assumption|]; intros l [<- | Hl]; auto.
      * right; exists (line :: before), l, after, m; repeat split; auto.
        -- now rewrite H1.
        -- intros x [<- | Hx]; auto.
        -- replace (lineIndex + Z.of_nat (length (line :: before)))%Z
             with (lineIndex + 1 + Z.of_nat (length before))%Z by (cbn [length]; lia).
           exact H4.
Qed.

(** X6: go to definition for a reference without a dot, made of word
    characters: the lookup in a file never throws; the location it returns
    lies on the first line of the file that the pattern of the lookup
    matches, in the file that was given, and its range spells the
    reference. *)
Theorem simple_reference_location_spells_the_target :
  forall (filePath : path) (target : text) (lines : list text),
    wordText target = true ->
    (exists r, DefinitionProvider.simpleLoop filePath target lines 0 = Ret r)
    /\ (forall location,
          DefinitionProvider.simpleLoop filePath target lines 0 = Ret (Some location) ->
          exists (before : list text) (line : text) (after : list text) (re : RegExp),
            lines = before ++ line :: after
            /\ newRegExp (DefinitionProvider.simplePattern target) false = Ret re
            /\ (forall l, In l before -> test re l = false)
            /\ test re line = true
            /\ DefinitionProvider.loc_file location = filePath
            /\ DefinitionProvider.loc_line location = Z.of_nat (length before)
            /\ substring line (DefinitionProvider.loc_start location)
                         (DefinitionProvider.loc_end location) = target).
Proof.
  intros filePath target lines Hw.
  destruct (@simpleLoop_word filePath target lines Hw 0%Z)
    as [[H1 H2] | [before [line [after [m [H1 [H2 [H3 H4]]]]]]]].
  - split; [eauto|]; intros location H; congruence.
  - split; [eauto|]; intros location H.
    rewrite H4 in H; injection H as <-.
    exists before, line, after, (mkRegExp (simpleTree target) false).
    split; [assumption|].
    split; [now apply newRegExp_simple|].
    split; [intros l Hl; unfold test; now rewrite (H2 l Hl)|].
    split; [unfold test; now rewrite H3|].
    pose proof (@exec_holds_name simplePrefixTerms
                  [Rep QStar true (Chr false [ISpace]); Lit "{"] target line m H3) as Ht.
    destruct (exec_occurs _ _ H3) as [Hline _].
    assert (Hocc : indexOf line (matched m) <> (-1)%Z).
    { rewrite Hline; apply indexOfFrom_occurs. }
    destruct (indexOf_sum_spells _ _ _ Hocc Ht) as [Hs _].
    unfold DefinitionProvider.getTargetLocationInline; cbv zeta.
    cbn [DefinitionProvider.loc_start DefinitionProvider.loc_end
         DefinitionProvider.loc_line DefinitionProvider.loc_file].
    split; [reflexivity|]; split; [lia | exact Hs].
Qed.

Lemma simple_reference_location_spells_the_target_witness :
  exists location,
    DefinitionProvider.simpleLoop (str "/ws/a.proto") (str "Status")
      [str "package a;"; str "  message Status {"; str "}"] 0
    = Ret (Some location)
    /\ location = DefinitionProvider.mkLocation (str "/ws/a.proto") 1 10 16
    /\ exists before line after,
         [str "package a;"; str "  message Status {"; str "}"] = before ++ line :: after
         /\ DefinitionProvider.loc_line location = Z.of_nat (length before)
         /\ substring line (DefinitionProvider.loc_start location)
                      (DefinitionProvider.loc_end location) = str "Status".
Proof.
  eexists; split; [vm_compute; reflexivity|].
  split; [reflexivity|].
  destruct (proj2 (@simple_reference_location_spells_the_target
                     (str "/ws/a.proto") (str "Status")
                     [str "package a;"; str "  message Status {"; str "}"] eq_refl)
                  (DefinitionProvider.mkLocation (str "/ws/a.proto") 1 10 16))
    as [before [line [after [re [H1 [_ [_ [_ [_ [H2 H3]]]]]]]]]].
  - vm_compute; reflexivity.
  - exists before, line, after; auto.
Defined.

(* ================================================================= *)
(** ** The message and the enum around a line *)

Lemma messageOpenerRe_name_is_word (line : text) (m : matchResult) :
  exec messageOpenerRe line = Some m ->
  wordText (orEmpty (group m 1)) = true.
Proof.
  apply captured_name_is_word.
  cbv [groupReads re_tree re_ignoreCase messageOpenerRe].
  repeat split; intros _; apply word_group_reads.
Qed.

Lemma enumNameRe_name_is_word (line : text) (m : matchResult) :
  exec enumNameRe line = Some m ->
  wordText (orEmpty (group m 1)) = true.
Proof.
  apply captured_name_is_word.
  cbv [groupReads re_tree re_ignoreCase enumNameRe].
  repeat split; intros _; apply word_group_reads.
Qed.

(** The names on the stack are words. *)
Definition wordNames (messageStack : list openMessage) : Prop :=
  Forall (fun o => wordText (o_name o) = true) messageStack.

Lemma popClosed_sublist (currentDepth : Z) (fromTop : list openMessage) :
  exists popped, fromTop = popped ++ popClosed currentDepth fromTop.
Proof.
  induction fromTop as [|top below IH]; [exists []; reflexivity|].
  cbn [popClosed]; destruct (currentDepth <=? o_depth top)%Z.
  - destruct IH as [popped IH]; exists (top :: popped); simpl; now rewrite <- IH.
  - exists []; reflexivity.
Qed.

Lemma closeMessages_prefix (currentDepth : Z) (messageStack : list openMessage) :
  exists popped, messageStack = closeMessages currentDepth messageStack ++ popped.
Proof.
  unfold closeMessages.
  destruct (popClosed_sublist currentDepth (rev messageStack)) as [popped H].
  exists (rev popped).
  rewrite <- rev_app_distr, <- H, rev_involutive; reflexivity.
Qed.

Lemma stackStep_wordNames (messageStack : list openMessage) (currentDepth : Z)
      (lineText : text) :
  wordNames messageStack ->
  wordNames (fst (stackStep messageStack currentDepth lineText)).
Proof.
  intros H; unfold stackStep; cbv zeta; cbn [fst].
  match goal with |- wordNames (closeMessages ?d ?p) =>
    destruct (closeMessages_prefix d p) as [popped Hp];
    assert (Hw : wordNames p) end.
  { destruct (exec messageOpenerRe (codeLineOf lineText)) as [m|] eqn:E; [|exact H].
    apply Forall_app; split; [exact H|].
    constructor; [|constructor]; cbn [o_name].
    exact (messageOpenerRe_name_is_word _ E). }
  rewrite Hp in Hw; apply Forall_app in Hw as [Hw _]; exact Hw.
Qed.

Lemma messageStackLoop_returns (lines : list text) :
  forall n messageStack currentDepth,
    wordNames messageStack ->
    (n <= length lines ->
     exists r, messageStackLoop lines n messageStack currentDepth = Ret r
               /\ wordNames r)
    /\ (length lines < n ->
        messageStackLoop lines n messageStack currentDepth = Throw TypeError).
Proof.
  induction lines as [|l lines IH]; intros n messageStack currentDepth Hw.
  - destruct n as [|n]; simpl; split; intros H; try lia; eauto.
  - destruct n as [|n]; [split; intros H; [simpl; eauto | simpl in H; lia]|].
    cbn [messageStackLoop].
    pose proof (stackStep_wordNames currentDepth l Hw) as Hs.
    destruct (stackStep messageStack currentDepth l) as [messageStack' currentDepth'].
    cbn [fst] in Hs.
    destruct (IH n messageStack' currentDepth' Hs) as [H1 H2].
    split; intros H; cbn [length] in H; [apply H1 | apply H2]; lia.
Qed.

Lemma containingLoop_returns (valueRe : RegExp) (content : text) (lines : list text) :
  forall n currentEnum inEnum,
    (n <= length lines ->
     exists r, containingLoop (parseEnum valueRe) content lines n currentEnum inEnum
               = Ret r)
    /\ (length lines < n ->
        containingLoop (parseEnum valueRe) content lines n currentEnum inEnum
        = Throw TypeError).
Proof.
  induction lines as [|l lines IH]; intros n currentEnum inEnum.
  - destruct n as [|n]; simpl; split; intros H; try lia; eauto.
  - destruct n as [|n]; [split; intros H; [simpl; eauto | simpl in H; lia]|].
    cbn [containingLoop]; cbv zeta.
    assert (Hn : forall P : Prop, (S n <= length (l :: lines) -> n <= length lines)
                                  /\ (length (l :: lines) < S n -> length lines < n))
      by (intros _; cbn [length]; split; lia).
    destruct (Hn True) as [Hn1 Hn2].
    destruct (startsWith (trim l) (str "enum ")).
    + destruct (exec enumNameRe (trim l)) as [m|] eqn:E.
      * destruct (@parseEnum_returns valueRe (orEmpty (group m 1)) content
                    (enumNameRe_name_is_word _ E)) as [e ->].
        cbn [bind].
        destruct (IH n (Some e) true) as [H1 H2]; split; auto.
      * destruct (IH n currentEnum inEnum) as [H1 H2]; split; auto.
    + destruct (inEnum && text_eqb (trim l) (str "}")).
      * destruct (IH n None false) as [H1 H2]; split; auto.
      * destruct (IH n currentEnum inEnum) as [H1 H2]; split; auto.
Qed.

Lemma hover_parseMessage_returns (name content : text) :
  wordText name = true -> exists m, Hover.parseMessage name content = Ret m.
Proof. intros Hw; apply parseMessageFuel_returns; auto. Qed.

Lemma getContainingMessage_returns (parseMessageOf : text -> text -> outcome MessageInfo)
      (content : text) (line : nat) :
  (forall name, wordText name = true -> exists m, parseMessageOf name content = Ret m) ->
  line < length (splitLines content) ->
  exists r, getContainingMessage parseMessageOf content line = Ret r.
Proof.
  intros Hparse H.
  destruct (@messageStackLoop_returns (splitLines content) (S line) [] 0%Z
              ltac:(constructor)) as [M1 _].
  destruct (M1 ltac:(lia)) as [stack [Hs Hw]].
  unfold getContainingMessage; rewrite Hs; cbn [bind].
  destruct (rev stack) as [|top below] eqn:Er; [eauto|].
  assert (Ht : wordText (o_name top) = true).
  { assert (Hin : In top stack) by (apply in_rev; rewrite Er; now left).
    unfold wordNames in Hw; rewrite Forall_forall in Hw; auto. }
  destruct (Hparse (o_name top) Ht) as [m ->].
  cbn [bind]; eauto.
Qed.

Lemma getContainingMessage_out_of_range
      (parseMessageOf : text -> text -> outcome MessageInfo)
      (content : text) (line : nat) :
  length (splitLines content) <= line ->
  getContainingMessage parseMessageOf content line = Throw TypeError.
Proof.
  intros H.
  destruct (@messageStackLoop_returns (splitLines content) (S line) [] 0%Z
              ltac:(constructor)) as [_ M2].
  unfold getContainingMessage; rewrite M2 by lia; reflexivity.
Qed.

Lemma getContainingEnum_returns (valueRe : RegExp) (content : text) (line : nat) :
  line < length (splitLines content) ->
  exists r, getContainingEnum (parseEnum valueRe) content line = Ret r.
Proof.
  intros H; apply containingLoop_returns; lia.
Qed.

Lemma getContainingEnum_out_of_range (valueRe : RegExp) (content : text) (line : nat) :
  length (splitLines content) <= line ->
  getContainingEnum (parseEnum valueRe) content line = Throw TypeError.
Proof.
  intros H; apply containingLoop_returns; lia.
Qed.

(** X7: the lookups of the message and of the enum around a line return for
    every line of the document, in both revisions: the names they pass to
    [parseMessage] and [parseEnum] are words. For a line past the last
    line of the document they throw a [TypeError]. *)
Theorem containing_lookups_return_within_the_document :
  forall (content : text) (line : nat),
    (line < length (splitLines content) ->
     (exists r, getContainingMessage Hover.parseMessage content line = Ret r)
     /\ (exists r, getContainingMessage HoverFlat.parseMessage content line = Ret r)
     /\ (exists r, getContainingEnum Hover.parseEnum content line = Ret r)
     /\ (exists r, getContainingEnum HoverFlat.parseEnum content line = Ret r))
    /\ (length (splitLines content) <= line ->
        getContainingMessage Hover.parseMessage content line = Throw TypeError
        /\ getContainingMessage HoverFlat.parseMessage content line = Throw TypeError
        /\ getContainingEnum Hover.parseEnum content line = Throw TypeError
        /\ getContainingEnum HoverFlat.parseEnum content line = Throw TypeError).
Proof.
  intros content line; split; intros H.
  - split; [|split; [|split]].
    + apply getContainingMessage_returns; [|exact H].
      intros name Hw; now apply hover_parseMessage_returns.
    + apply getContainingMessage_returns; [|exact H].
      intros name Hw; now apply flat_parseMessage_returns.
    + exact (getContainingEnum_returns Hover.valueRe content H).
    + exact (getContainingEnum_returns HoverFlat.valueRe content H).
  - split; [|split; [|split]].
    + now apply getContainingMessage_out_of_range.
    + now apply getContainingMessage_out_of_range.
    + exact (getContainingEnum_out_of_range Hover.valueRe content H).
    + exact (getContainingEnum_out_of_range HoverFlat.valueRe content H).
Qed.

Definition smallDocument : text :=
  str "message M {" ++ LF :: str "  int32 x = 1;" ++ LF :: str "}".

Lemma containing_lookups_return_within_the_document_witness :
  (exists r, getContainingMessage Hover.parseMessage smallDocument 1 = Ret r)
  /\ getContainingMessage Hover.parseMessage smallDocument 3 = Throw TypeError.
Proof.
  assert (H1 : 1 < length (splitLines smallDocument)) by (vm_compute; lia).
  assert (H3 : length (splitLines smallDocument) <= 3) by (vm_compute; lia).
  split.
  - exact (proj1 (proj1 (@containing_lookups_return_within_the_document
                           smallDocument 1) H1)).
  - exact (proj1 (proj2 (@containing_lookups_return_within_the_document
                           smallDocument 3) H3)).
Defined.

(* ================================================================= *)
(** ** The messages that are open at a line *)

(** The depth after each of [lines], from the depth [d] in front of them. *)
Fixpoint depthsAfter (d : Z) (lines : list text) : list Z :=
  match lines with
  | [] => []
  | l :: lines' =>
      let d' := (d + braceDelta (codeLineOf l))%Z in
      d' :: depthsAfter d' lines'
  end.

(** A message that was opened at depth [d] is open after [lines] when the
    depth stayed above [d] after every one of them. *)
Definition staysAbove (d : Z) (depths : list Z) : bool :=
  forallb (fun x => (d <? x)%Z) depths.

(** The messages opened in [lines] that are open after the last of them,
    outermost first. *)
Fixpoint openAfter (d : Z) (lines : list text) : list openMessage :=
  match lines with
  | [] => []
  | l :: lines' =>
      let d' := (d + braceDelta (codeLineOf l))%Z in
      match exec messageOpenerRe (codeLineOf l) with
      | Some m =>
          if staysAbove d (d' :: depthsAfter d' lines')
          then mkOpenMessage (orEmpty (group m 1)) d :: openAfter d' lines'
          else openAfter d' lines'
      | None => openAfter d' lines'
      end
  end.

(** The depths on the stack grow from its bottom to its top and are below
    the current depth. *)
Fixpoint nested (fromTop : list openMessage) (currentDepth : Z) : Prop :=
  match fromTop with
  | [] => True
  | top :: below => (o_depth top < currentDepth)%Z /\ nested below (o_depth top)
  end.

Lemma nested_weaken (fromTop : list openMessage) :
  forall d d', nested fromTop d -> (d <= d')%Z -> nested fromTop d'.
Proof.
  destruct fromTop as [|top below]; intros d d' H Hd; [exact I|].
  destruct H as [H1 H2]; split; [lia | exact H2].
Qed.

Lemma nested_filter (fromTop : list openMessage) :
  forall d, nested fromTop d -> filter (fun o => (o_depth o <? d)%Z) fromTop = fromTop.
Proof.
  induction fromTop as [|top below IH]; intros d H; [reflexivity|].
  destruct H as [H1 H2]; cbn [filter].
  replace (o_depth top <? d)%Z with true by (symmetry; apply Z.ltb_lt; lia).
  f_equal; apply IH; eapply nested_weaken; [exact H2 | lia].
Qed.

Lemma popClosed_filter (currentDepth : Z) (fromTop : list openMessage) :
  forall d, nested fromTop d ->
    popClosed currentDepth fromTop
    = filter (fun o => (o_depth o <? currentDepth)%Z) fromTop
    /\ nested (popClosed currentDepth fromTop) currentDepth.
Proof.
  induction fromTop as [|top below IH]; intros d H; [split; [reflexivity | exact I]|].
  destruct H as [H1 H2]; cbn [popClosed filter].
  destruct (currentDepth <=? o_depth top)%Z eqn:E.
  - apply Z.leb_le in E.
    replace (o_depth top <? currentDepth)%Z with false by (symmetry; apply Z.ltb_ge; lia).
    exact (IH (o_depth top) H2).
  - apply Z.leb_gt in E.
    replace (o_depth top <? currentDepth)%Z with true by (symmetry; apply Z.ltb_lt; lia).
    split; [|split; assumption].
    f_equal; symmetry; apply nested_filter.
    eapply nested_weaken; [exact H2 | lia].
Qed.

Lemma closeMessages_filter (currentDepth d : Z) (messageStack : list openMessage) :
  nested (rev messageStack) d ->
  closeMessages currentDepth messageStack
  = filter (fun o => (o_depth o <? currentDepth)%Z) messageStack
  /\ nested (rev (closeMessages currentDepth messageStack)) currentDepth.
Proof.
  intros H; unfold closeMessages.
  destruct (@popClosed_filter currentDepth (rev messageStack) d H) as [H1 H2].
  rewrite rev_involutive; split; [|exact H2].
  rewrite H1, <- filter_rev, rev_involutive; reflexivity.
Qed.

Lemma filter_filter {A} (p q : A -> bool) (l : list A) :
  filter p (filter q l) = filter (fun x => q x && p x) l.
Proof.
  induction l as [|x l IH]; [reflexivity|].
  cbn [filter]; destruct (q x); cbn [filter andb]; [destruct (p x)|]; now rewrite IH.
Qed.

Lemma messageStackLoop_open (lines : list text) :
  forall n messageStack d,
    n <= length lines ->
    nested (rev messageStack) d ->
    messageStackLoop lines n messageStack d
    = Ret (filter (fun o => staysAbove (o_depth o) (depthsAfter d (firstn n lines)))
                  messageStack
           ++ openAfter d (firstn n lines)).
Proof.
  induction lines as [|l lines IH]; intros n messageStack d Hn Hnest.
  - destruct n; [|simpl in Hn; lia].
    cbn [messageStackLoop firstn depthsAfter openAfter]; unfold staysAbove; cbn [forallb].
    rewrite filter_all by reflexivity; now rewrite app_nil_r.
  - destruct n as [|n].
    + cbn [messageStackLoop firstn depthsAfter openAfter]; unfold staysAbove; cbn [forallb].
      rewrite filter_all by reflexivity; now rewrite app_nil_r.
    + cbn [messageStackLoop firstn depthsAfter openAfter length] in *.
      unfold stackStep; cbv zeta.
      set (d' := (d + braceDelta (codeLineOf l))%Z).
      set (pushed := match exec messageOpenerRe (codeLineOf l) with
                     | Some m => messageStack ++ [mkOpenMessage (orEmpty (group m 1)) d]
                     | None => messageStack
                     end).
      assert (Hp : nested (rev pushed) (d + 1)).
      { unfold pushed; destruct (exec messageOpenerRe (codeLineOf l)).
        - rewrite rev_app_distr; cbn [rev app nested o_depth]; split; [lia | exact Hnest].
        - eapply nested_weaken; [exact Hnest | lia]. }
      destruct (@closeMessages_filter d' (d + 1)%Z pushed Hp) as [Hc Hn'].
      rewrite (IH n _ d' ltac:(lia) Hn'), Hc, filter_filter.
      f_equal.
      unfold pushed; destruct (exec messageOpenerRe (codeLineOf l)) as [m|].
      * rewrite filter_app, <- app_assoc; f_equal.
        cbn [filter o_depth staysAbove forallb].
        unfold staysAbove; cbn [forallb].
        destruct (d <? d')%Z; cbn [andb]; [|reflexivity].
        destruct (forallb (fun x => (d <? x)%Z) (depthsAfter d' (firstn n lines)));
          reflexivity.
      * reflexivity.
Qed.


Definition nestedDocument : text :=
  str "message Outer {" ++ LF ::
  str "  message Inner {" ++ LF ::
  str "    int32 x = 1;" ++ LF ::
  str "  }" ++ LF ::
  str "  int32 y = 2;" ++ LF ::
  str "}".


(* ================================================================= *)
(** ** The extracted source of a message *)

(** Braces opened less braces closed. *)
Definition netOpen (s : text) : Z := (countChar "{" s - countChar "}" s)%Z.

Lemma netOpen_cons (c : ascii) (s : text) :
  netOpen (c :: s)
  = ((if Ascii.eqb c "{" then 1 else if Ascii.eqb c "}" then -1 else 0) + netOpen s)%Z.
Proof.
  unfold netOpen, countChar; cbn [filter].
  rewrite (Ascii.eqb_sym "{" c), (Ascii.eqb_sym "}" c).
  destruct (Ascii.eqb c "{") eqn:E1.
  - apply Ascii.eqb_eq in E1; subst c; cbn [Ascii.eqb Bool.eqb andb length]; lia.
  - destruct (Ascii.eqb c "}"); cbn [length]; lia.
Qed.

(** The brace counter stops at the first closing brace that brings the
    count to zero: the text in front of it leaves one brace open. *)
Lemma findClose_balanced (s : text) :
  forall i c E,
    findClose s i c = E -> E <> (-1)%Z ->
    exists body after,
      s = body ++ "}"%char :: after
      /\ E = (i + Z.of_nat (length body))%Z
      /\ (c + netOpen body = 1)%Z.
Proof.
  induction s as [|x t IH]; intros i c E H HE; cbn [findClose] in H; [congruence|].
  assert (Hrec : forall c' d,
             findClose t (i + 1) c' = E -> (c' = c + d)%Z ->
             (d = if Ascii.eqb x "{" then 1 else if Ascii.eqb x "}" then -1 else 0)%Z ->
             exists body after,
               x :: t = body ++ "}"%char :: after
               /\ E = (i + Z.of_nat (length body))%Z
               /\ (c + netOpen body = 1)%Z).
  { intros c' d H' Hc Hd.
    destruct (IH (i + 1)%Z c' E H' HE) as [body [after [Ht [He Hn]]]].
    exists (x :: body), after; rewrite Ht; split; [reflexivity|].
    split; [cbn [length]; lia|].
    rewrite netOpen_cons, <- Hd; lia. }
  destruct (Ascii.eqb x "{") eqn:E1; [apply (Hrec _ 1%Z H); [lia | reflexivity]|].
  destruct (Ascii.eqb x "}") eqn:E2; [|apply (Hrec _ 0%Z H); [lia | reflexivity]].
  destruct (c - 1 =? 0)%Z eqn:E0; [|apply (Hrec _ (-1)%Z H); [lia | reflexivity]].
  apply Z.eqb_eq in E0; apply Ascii.eqb_eq in E2; subst x.
  exists [], t; repeat split; [cbn [length]; lia | unfold netOpen; simpl; lia].
Qed.

Lemma substring_middle (before x after : text) :
  substring (before ++ x ++ after) (Z.of_nat (length before))
            (Z.of_nat (length before) + Z.of_nat (length x)) = x.
Proof.
  rewrite substring_span by (rewrite !length_app; lia).
  rewrite skipn_app, Nat.sub_diag, skipn_all, skipn_O; cbn [app].
  rewrite firstn_app, Nat.sub_diag, firstn_all, firstn_O, app_nil_r; reflexivity.
Qed.

(** The span that [parseMessage] extracts for a located declaration: the
    text of the opener, which ends with the brace, a body, and the closing
    brace. *)
Lemma located_span (name content : text) (l : located) :
  locate (mkRegExp (messageStartTree name) false) content = Some l ->
  l_endIndex l <> (-1)%Z ->
  exists before opener body after,
    content = before ++ (opener ++ "{"%char :: body ++ ["}"%char]) ++ after
    /\ rawSourceOf content l = opener ++ "{"%char :: body ++ ["}"%char]
    /\ bodyContentOf content l = body
    /\ netOpen body = 0%Z
    /\ l_startIndex l = Z.of_nat (length before).
Proof.
  intros Hl He.
  destruct (locate_inv _ _ Hl) as [sm [Hexec [Hs [Hob [Hend _]]]]].
  destruct (exec_occurs _ _ Hexec) as [Hcontent Hidx].
  destruct (exec_found _ _ Hexec) as [k [tl [Hk [Hi Hms]]]]; cbn [re_tree re_ignoreCase] in Hms.
  assert (Hin : In (m_end sm) (ms false (messageStartTree name) (startAt [] content k)))
    by (rewrite Hms; now left).
  apply messageStartTree_ends_with_brace in Hin as [u Hu].
  assert (Hm : matched sm = u ++ ["{"%char]).
  { destruct sm as [i e]; cbn [m_index m_end] in *; subst i.
    exact (@matched_reads content k e _ Hk Hu). }
  rewrite Hm in Hcontent, Hob.
  rewrite lastIndexOf_last in Hob.
  set (before := firstn (m_index sm) content) in *.
  set (tail := rest (m_end sm)) in *.
  assert (Hb : length before = m_index sm)
    by (unfold before; rewrite length_firstn; lia).
  assert (Hopen : l_openBraceIndex l = Z.of_nat (length before + length u)) by lia.
  rewrite Hopen in Hend.
  replace (Z.max 0 (Z.of_nat (length before + length u)))
    with (Z.of_nat (length before + length u)) in Hend by lia.
  rewrite Nat2Z.id in Hend.
  assert (Hskip : skipn (length before + length u) content = "{"%char :: tail).
  { rewrite Hcontent at 1.
    rewrite (Nat.add_comm (length before)), <- skipn_skipn.
    rewrite skipn_app, Nat.sub_diag, skipn_all, skipn_O; cbn [app].
    rewrite <- app_assoc, skipn_app, Nat.sub_diag, skipn_all, skipn_O; reflexivity. }
  rewrite Hskip in Hend; cbn [findClose] in Hend.
  change (Ascii.eqb "{" "{") with true in Hend; cbv iota in Hend.
  destruct (@findClose_balanced tail _ _ _ (eq_sym Hend) He) as [body [after [Ht [HE Hn]]]].
  exists before, u, body, after.
  assert (Hc : content = before ++ (u ++ "{"%char :: body ++ ["}"%char]) ++ after).
  { rewrite Hcontent at 1; rewrite Ht.
    repeat (rewrite <- app_assoc; cbn [app]); reflexivity. }
  split; [exact Hc|].
  assert (Hlen : length (u ++ "{"%char :: body ++ ["}"%char])
                 = length u + length body + 2)
    by (rewrite length_app; cbn [length]; rewrite length_app; cbn [length]; lia).
  split; [|split; [|split; [lia | lia]]].
  - unfold rawSourceOf; rewrite Hs, HE, <- Hb.
    replace (Z.of_nat (length before + length u) + 1 + Z.of_nat (length body) + 1)%Z
      with (Z.of_nat (length before)
            + Z.of_nat (length (u ++ "{"%char :: body ++ ["}"%char])))%Z
      by (rewrite Hlen; lia).
    rewrite Hc at 1; apply substring_middle.
  - unfold bodyContentOf; rewrite Hopen, HE.
    replace (Z.of_nat (length before + length u) + 1)%Z
      with (Z.of_nat (length (before ++ u ++ ["{"%char])))
      by (rewrite !length_app; cbn [length]; lia).
    replace (Z.of_nat (length (before ++ u ++ ["{"%char])) + Z.of_nat (length body))%Z
      with (Z.of_nat (length (before ++ u ++ ["{"%char])) + Z.of_nat (length body))%Z
      by lia.
    replace content with ((before ++ u ++ ["{"%char]) ++ body ++ ("}"%char :: after))
      by (rewrite Hc; repeat (rewrite <- app_assoc; cbn [app]); reflexivity).
    apply substring_middle.
Qed.

Lemma hover_parse_located (name content : text) (m : MessageInfo) :
  wordText name = true -> m_rawSource m <> [] ->
  Hover.parseMessage name content = Ret m ->
  exists l,
    locate (mkRegExp (messageStartTree name) false) content = Some l
    /\ l_endIndex l <> (-1)%Z
    /\ m_rawSource m = rawSourceOf content l
    /\ m_name m = name.
Proof.
  intros Hw Hraw H.
  unfold Hover.parseMessage in H.
  rewrite parseMessageFuel_unfold in H.
  rewrite (@parseMessageBody_word _ name content Hw) in H.
  destruct (locate _ content) as [l|] eqn:El;
    [|injection H as <-; cbn [m_rawSource] in Hraw; congruence].
  destruct (l_endIndex l =? -1)%Z eqn:Ee;
    [injection H as <-; cbn [m_rawSource] in Hraw; congruence|].
  apply Z.eqb_neq in Ee.
  destruct (l_commentPart l) as [commentPart|]; [|discriminate].
  destruct (Hover.messageLines _ _ _ _) as [w| | |]; try discriminate.
  cbn [bind] in H; injection H as <-; cbn [m_rawSource m_name].
  exists l; auto.
Qed.

(* The hypotheses below hold calls on a symbolic name; implicit arguments
   are not computed for these statements. *)
Unset Implicit Arguments.

Lemma flat_parse_located (name content : text) (m : MessageInfo) :
  wordText name = true -> m_rawSource m <> [] ->
  HoverFlat.parseMessage name content = Ret m ->
  exists l,
    locate (mkRegExp (messageStartTree name) false) content = Some l
    /\ l_endIndex l <> (-1)%Z
    /\ m_rawSource m = rawSourceOf content l
    /\ m_name m = name
    /\ m_fields m = w_fields (fold_left HoverFlat.messageLine
                                (splitLines (bodyContentOf content l))
                                (mkWalk [] [] [] [] 0)).
Proof.
  intros Hw Hraw H.
  rewrite (@flat_parseMessage_word name content Hw) in H.
  destruct (locate _ content) as [l|] eqn:El;
    [|injection H as <-; cbn [m_rawSource] in Hraw; congruence].
  destruct (l_endIndex l =? -1)%Z eqn:Ee;
    [injection H as <-; cbn [m_rawSource] in Hraw; congruence|].
  apply Z.eqb_neq in Ee.
  destruct (l_commentPart l) as [commentPart|]; [|discriminate].
  injection H as <-; cbn [m_rawSource m_name m_fields].
  exists l; auto.
Qed.

(** X9: the source that [parseMessage] extracts for a name of word characters
    is a piece of the text that was given: the opener of the declaration
    up to its brace, a body in which as many braces are opened as are
    closed, and the closing brace. The revision without nested types
    reads the fields from the lines of this body. *)
Theorem rawSource_is_the_declaration_up_to_its_closing_brace :
  forall (name content : text) (m : MessageInfo),
    wordText name = true ->
    m_rawSource m <> [] ->
    Hover.parseMessage name content = Ret m
    \/ HoverFlat.parseMessage name content = Ret m ->
    exists before opener body after,
      content = before ++ m_rawSource m ++ after
      /\ m_rawSource m = opener ++ "{"%char :: body ++ ["}"%char]
      /\ netOpen body = 0%Z
      /\ m_name m = name
      /\ (HoverFlat.parseMessage name content = Ret m ->
          m_fields m = w_fields (fold_left HoverFlat.messageLine (splitLines body)
                                           (mkWalk [] [] [] [] 0))).
Proof.
  intros name content m Hw Hraw [H | H].
  - destruct (@hover_parse_located name content m Hw Hraw H) as (l & Hl & He & Hr & Hn).
    destruct (@located_span name content l Hl He) as (before & opener & body & after & Hc & Hs & Hb & Hbal & _).
    exists before, opener, body, after.
    rewrite Hr, Hs; repeat split; auto.
    intros Hf.
    destruct (flat_parse_located name content m Hw Hraw Hf) as (l' & Hl' & _ & _ & _ & Hfields).
    rewrite Hl in Hl'; injection Hl' as <-.
    now rewrite Hfields, Hb.
  - destruct (flat_parse_located name content m Hw Hraw H) as (l & Hl & He & Hr & Hn & Hfields).
    destruct (@located_span name content l Hl He) as (before & opener & body & after & Hc & Hs & Hb & Hbal & _).
    exists before, opener, body, after.
    rewrite Hr, Hs; repeat split; auto.
    intros _; now rewrite Hfields, Hb.
Qed.

Set Implicit Arguments.

Lemma rawSource_is_the_declaration_up_to_its_closing_brace_witness :
  exists m before opener body after,
    Hover.parseMessage (str "Outer") nestedDocument = Ret m
    /\ nestedDocument = before ++ m_rawSource m ++ after
    /\ m_rawSource m = opener ++ "{"%char :: body ++ ["}"%char]
    /\ netOpen body = 0%Z.
Proof.
  assert (H : exists m, Hover.parseMessage (str "Outer") nestedDocument = Ret m
                        /\ m_rawSource m <> []).
  { eexists; split; [vm_compute; reflexivity | vm_compute; discriminate]. }
  destruct H as [m [Hm Hraw]].
  destruct (@rawSource_is_the_declaration_up_to_its_closing_brace
              (str "Outer") nestedDocument m eq_refl Hraw (or_introl Hm))
    as (before & opener & body & after & H1 & H2 & H3 & _).
  exists m, before, opener, body, after; auto.
Defined.

(* ================================================================= *)
(** ** The lookup of a dotted reference *)

Definition definitionPrefix : text := Eval vm_compute in
  str "\s*(message|enum|service)\s+".

(** The terms in front of the name in the pattern of one part. *)
Definition definitionPrefixTerms : list regex := Eval vm_compute in
  match parsePattern definitionPrefix with
  | POk r => (fix terms r := match r with Seq a b => a :: terms b | _ => [] end) r
  | _ => []
  end.

Definition definitionTree (part : text) : regex :=
  seqOf (definitionPrefixTerms ++ map Lit part
         ++ [Rep QStar true (Chr false [ISpace]); Lit "{"]).

Definition definitionPrefixState : pstate := Eval vm_compute in
  match (fix go st l :=
           match l with
           | [] => POk st
           | c :: t => match step st c t with POk st' => go st' t | e => e end
           end) initialState definitionPrefix with
  | POk st => st
  | _ => initialState
  end.

Lemma parsePattern_definition (part : text) :
  wordText part = true ->
  parsePattern (DefinitionProvider.definitionPattern part) = POk (definitionTree part).
Proof.
  intros Hw; unfold parsePattern, DefinitionProvider.definitionPattern.
  transitivity (parseLoop definitionPrefixState (part ++ str "\s*\{")); [reflexivity|].
  rewrite parseLoop_word by auto.
  lazy -[rev map app mkSeq seqOf definitionTree].
  rewrite !mkSeq_seqOf; simpl rev.
  rewrite !rev_app_distr, rev_involutive; simpl rev.
  rewrite <- !app_assoc; reflexivity.
Qed.

Lemma newRegExp_definition (part : text) :
  wordText part = true ->
  newRegExp (DefinitionProvider.definitionPattern part) false
  = Ret (mkRegExp (definitionTree part) false).
Proof. intros H; unfold newRegExp; now rewrite parsePattern_definition. Qed.

(** The location lies in [file] on a line of [lines], at or after [lo],
    that is not a comment line when [code] is set, and its range spells
    [name]. *)
Definition pointsAt (lines : list text) (file : path) (name : text) (code : bool)
           (lo : Z) (location : DefinitionProvider.Location) : Prop :=
  DefinitionProvider.loc_file location = file
  /\ (lo <= DefinitionProvider.loc_line location)%Z
  /\ exists line,
       nth_error lines (Z.to_nat (DefinitionProvider.loc_line location)) = Some line
       /\ (code = true -> startsWith (trim line) (str "//") = false)
       /\ substring line (DefinitionProvider.loc_start location)
                    (DefinitionProvider.loc_end location) = name.

Lemma pointsAt_from (lines : list text) (file : path) (name : text) (code : bool)
      (lo lo' : Z) (location : DefinitionProvider.Location) :
  pointsAt lines file name code lo' location -> (lo <= lo')%Z ->
  pointsAt lines file name code lo location.
Proof. intros (H1 & H2 & H3) H; repeat split; auto; lia. Qed.

Lemma lineAtIndex_some (lines : list text) (i : Z) (line : text) :
  DefinitionProvider.lineAtIndex lines i = Ret line ->
  (0 <= i)%Z /\ nth_error lines (Z.to_nat i) = Some line.
Proof.
  unfold DefinitionProvider.lineAtIndex.
  destruct (i <? 0)%Z eqn:E; cbv iota; [discriminate|].
  apply Z.ltb_ge in E.
  destruct (nth_error lines (Z.to_nat i)); cbv iota; [|discriminate].
  intros H; injection H as ->; auto.
Qed.

(** The range computed for a match of a pattern that holds the literals of
    the name spells the name. *)
Lemma target_location_spells (pre post : list regex) (file : path) (i : Z)
      (line name : text) (m : matchResult) :
  exec (mkRegExp (seqOf (pre ++ map Lit name ++ post)) false) line = Some m ->
  let location := DefinitionProvider.getTargetLocationInline file i line name m in
  DefinitionProvider.loc_file location = file
  /\ DefinitionProvider.loc_line location = i
  /\ substring line (DefinitionProvider.loc_start location)
               (DefinitionProvider.loc_end location) = name.
Proof.
  intros H location; subst location.
  pose proof (@exec_holds_name pre post name line m H) as Ht.
  destruct (exec_occurs _ _ H) as [Hline _].
  assert (Hocc : indexOf line (matched m) <> (-1)%Z).
  { rewrite Hline; apply indexOfFrom_occurs. }
  destruct (indexOf_sum_spells _ _ _ Hocc Ht) as [Hs _].
  unfold DefinitionProvider.getTargetLocationInline; cbv zeta.
  cbn [DefinitionProvider.loc_start DefinitionProvider.loc_end
       DefinitionProvider.loc_line DefinitionProvider.loc_file].
  auto.
Qed.

Lemma findBlockEnd_ge (lines : list text) (i : Z) (line : text) :
  (0 <= i)%Z -> nth_error lines (Z.to_nat i) = Some line ->
  (i <= DefinitionProvider.findBlockEnd lines i)%Z.
Proof.
  intros Hi Hn.
  assert (Hlt : Z.to_nat i < length lines) by (apply nth_error_Some; congruence).
  unfold DefinitionProvider.findBlockEnd.
  destruct (blockEndLoop_spec (skipn (Z.to_nat i) lines) i 0) as [k [Hk _]].
  rewrite length_skipn in Hk.
  replace (i + Z.of_nat (length lines - Z.to_nat i))%Z
    with (Z.of_nat (length lines)) in Hk by lia.
  rewrite Hk; lia.
Qed.

(** The loop of [findNestedDefinition] over the lines for one part, with
    the lookup of the remaining parts as [inner]. *)
Definition nestedLoop (lines : list text) (currentPart : text) (isLast : bool)
           (filePath : path) (endLine : Z)
           (inner : Z -> Z -> outcome (option DefinitionProvider.Location))
  : nat -> Z -> outcome (option DefinitionProvider.Location) :=
  fix loop (fuel : nat) (i : Z) {struct fuel} :=
    match fuel with
    | 0 => Diverged
    | S fuel' =>
        if (i <? endLine)%Z then
          line <- DefinitionProvider.lineAtIndex lines i ;;
          if startsWith (trim line) (str "//") then loop fuel' (i + 1)%Z
          else
            definitionRegex <-
              newRegExp (DefinitionProvider.definitionPattern currentPart) false ;;
            match exec definitionRegex line with
            | Some m =>
                if isLast then
                  Ret (Some (DefinitionProvider.getTargetLocationInline
                               filePath i line currentPart m))
                else
                  let blockEnd := DefinitionProvider.findBlockEnd lines i in
                  let actualEnd := Z.min blockEnd endLine in
                  innerLocation <- inner (i + 1)%Z actualEnd ;;
                  match innerLocation with
                  | Some l => Ret (Some l)
                  | None => loop fuel' (blockEnd + 1)%Z
                  end
            | None => loop fuel' (i + 1)%Z
            end
        else Ret None
    end.

Lemma nestedLoop_S (lines : list text) (currentPart : text) (isLast : bool)
      (filePath : path) (endLine : Z)
      (inner : Z -> Z -> outcome (option DefinitionProvider.Location))
      (fuel : nat) (i : Z) :
  nestedLoop lines currentPart isLast filePath endLine inner (S fuel) i
  = if (i <? endLine)%Z then
      line <- DefinitionProvider.lineAtIndex lines i ;;
      if startsWith (trim line) (str "//")
      then nestedLoop lines currentPart isLast filePath endLine inner fuel (i + 1)%Z
      else
        definitionRegex <-
          newRegExp (DefinitionProvider.definitionPattern currentPart) false ;;
        match exec definitionRegex line with
        | Some m =>
            if isLast then
              Ret (Some (DefinitionProvider.getTargetLocationInline
                           filePath i line currentPart m))
            else
              innerLocation <-
                inner (i + 1)%Z (Z.min (DefinitionProvider.findBlockEnd lines i) endLine) ;;
              match innerLocation with
              | Some l => Ret (Some l)
              | None => nestedLoop lines currentPart isLast filePath endLine inner fuel
                                   (DefinitionProvider.findBlockEnd lines i + 1)%Z
              end
        | None => nestedLoop lines currentPart isLast filePath endLine inner fuel
                             (i + 1)%Z
        end
    else Ret None.
Proof. reflexivity. Qed.

Lemma findNestedDefinition_loop (lines : list text) (currentPart : text)
      (remainingParts : list text) (filePath : path) (startLine endLine : Z) :
  DefinitionProvider.findNestedDefinition lines (currentPart :: remainingParts)
    filePath startLine endLine
  = let endLine' := if (endLine =? -1)%Z then Z.of_nat (length lines) else endLine in
    nestedLoop lines currentPart
      (match remainingParts with [] => true | _ => false end) filePath endLine'
      (DefinitionProvider.findNestedDefinition lines remainingParts filePath)
      (S (Z.to_nat (endLine' - startLine))) startLine.
Proof. destruct remainingParts; reflexivity. Qed.

Lemma nestedLoop_points (lines : list text) (file : path) (currentPart name : text)
      (isLast : bool) (endLine lo : Z)
      (inner : Z -> Z -> outcome (option DefinitionProvider.Location)) :
  wordText currentPart = true ->
  (isLast = true -> name = currentPart) ->
  (forall a b location, (lo <= a)%Z -> inner a b = Ret (Some location) ->
                        pointsAt lines file name true a location) ->
  forall fuel i location,
    (lo <= i)%Z -> (0 <= lo)%Z ->
    nestedLoop lines currentPart isLast file endLine inner fuel i = Ret (Some location) ->
    pointsAt lines file name true lo location.
Proof.
  intros Hc Hname Hinner.
  induction fuel as [|fuel IHf]; intros i location Hi Hlo H; [discriminate|].
  rewrite nestedLoop_S in H.
  destruct (i <? endLine)%Z; [|discriminate].
  destruct (DefinitionProvider.lineAtIndex lines i) as [line| | |] eqn:El; try discriminate.
  cbn [bind] in H.
  destruct (lineAtIndex_some _ _ El) as [Hi0 Hnth].
  destruct (startsWith (trim line) (str "//")) eqn:Ec.
  { apply IHf in H; [exact H | lia | lia]. }
  rewrite newRegExp_definition in H by assumption; cbn [bind] in H.
  destruct (exec (mkRegExp (definitionTree currentPart) false) line) as [m|] eqn:Em.
  - destruct isLast.
    + injection H as <-.
      destruct (@target_location_spells definitionPrefixTerms
                  [Rep QStar true (Chr false [ISpace]); Lit "{"] file i line
                  currentPart m Em) as (H1 & H2 & H3).
      rewrite (Hname eq_refl).
      split; [exact H1|]; split; [rewrite H2; lia|].
      exists line; rewrite H2; auto.
    + cbv zeta in H.
      destruct (inner (i + 1)%Z (Z.min (DefinitionProvider.findBlockEnd lines i) endLine))
        as [[found|]| | |] eqn:En; try discriminate; cbn [bind] in H.
      * injection H as <-.
        eapply pointsAt_from; [exact (Hinner (i + 1)%Z _ _ ltac:(lia) En) | lia].
      * apply IHf in H; [exact H | | lia].
        pose proof (@findBlockEnd_ge lines i line Hi0 Hnth); lia.
  - apply IHf in H; [exact H | lia | lia].
Qed.

Lemma findNestedDefinition_points (lines : list text) (file : path) :
  forall parts,
    Forall (fun p => wordText p = true) parts ->
    forall startLine endLine location,
      (0 <= startLine)%Z ->
      DefinitionProvider.findNestedDefinition lines parts file startLine endLine
      = Ret (Some location) ->
      pointsAt lines file (last parts []) true startLine location.
Proof.
  induction parts as [|currentPart remainingParts IH];
    intros Hw startLine endLine location Hs H; [discriminate|].
  inversion Hw as [|x xs Hc Hr]; subst.
  rewrite findNestedDefinition_loop in H; cbv zeta in H.
  refine (@nestedLoop_points lines file currentPart _ _ _ startLine _ Hc _ _ _ _ _
            (Z.le_refl _) Hs H).
  - destruct remainingParts; [reflexivity | discriminate].
  - intros a b loc Ha Hin.
    destruct remainingParts as [|r rs]; [discriminate|].
    change (last (currentPart :: r :: rs) []) with (last (r :: rs) []).
    exact (IH Hr a b loc ltac:(lia) Hin).
Qed.

(* ================================================================= *)
(** ** Where go to definition points *)

Lemma indexOfFrom_absent (s : text) (c : ascii) :
  forall i, indexOfFrom s [c] i = (-1)%Z -> ~ In c s.
Proof.
  induction s as [|x s IH]; intros i H; [intros []|].
  cbn [indexOfFrom startsWith] in H.
  rewrite Ascii.eqb_sym in H.
  destruct (Ascii.eqb x c) eqn:E.
  - destruct s; cbn [andb startsWith] in H; lia.
  - cbn [andb] in H; apply IH in H.
    intros [-> | Hin]; [now rewrite Ascii.eqb_refl in E | contradiction].
Qed.

Lemma splitOn_absent (sep : ascii) (s : text) : ~ In sep s -> splitOn sep s = [s].
Proof.
  induction s as [|x s IH]; intros H; [reflexivity|].
  cbn [splitOn].
  destruct (Ascii.eqb x sep) eqn:E.
  - apply Ascii.eqb_eq in E; subst; exfalso; apply H; now left.
  - rewrite IH; [reflexivity | intros Hin; apply H; now right].
Qed.

Lemma last_skipn {A} (l : list A) (n : nat) (d : A) :
  skipn n l <> [] -> last (skipn n l) d = last l d.
Proof.
  revert l; induction n as [|n IH]; intros l H; [reflexivity|].
  destruct l as [|x l]; [reflexivity|].
  cbn [skipn] in *; rewrite IH by assumption.
  destruct l; [destruct n; simpl in H; congruence | reflexivity].
Qed.

Lemma Forall_skipn {A} (P : A -> Prop) (l : list A) (n : nat) :
  Forall P l -> Forall P (skipn n l).
Proof.
  intros H; rewrite <- (firstn_skipn n l) in H; now apply Forall_app in H.
Qed.

Lemma relativeParts_suffix (packageName target : text) :
  exists n, DefinitionProvider.relativeParts packageName target
            = skipn n (splitOn "." target).
Proof.
  unfold DefinitionProvider.relativeParts; cbv zeta.
  destruct packageName as [|c p]; [now exists 0|].
  destruct (startsWith target ((c :: p) ++ str ".")); [|now exists 0].
  destruct (forallb _ _ && _); [eauto | now exists 0].
Qed.

Lemma simpleLoop_points (file : path) (target : text) (lines : list text)
      (location : DefinitionProvider.Location) :
  wordText target = true ->
  DefinitionProvider.simpleLoop file target lines 0 = Ret (Some location) ->
  pointsAt lines file target false 0 location.
Proof.
  intros Hw H.
  destruct (@simpleLoop_word file target lines Hw 0%Z)
    as [[H1 _] | [before [line [after [m [H1 [_ [H3 H4]]]]]]]]; [congruence|].
  rewrite H4 in H.
  assert (E : location = DefinitionProvider.getTargetLocationInline
                           file (0 + Z.of_nat (length before))%Z line target m)
    by congruence.
  clear H H4; subst location.
  destruct (@target_location_spells simplePrefixTerms
              [Rep QStar true (Chr false [ISpace]); Lit "{"] file
              (0 + Z.of_nat (length before))%Z line target m H3) as (Hf & Hl & Hs).
  split; [exact Hf|]; split; [rewrite Hl; lia|].
  exists line; rewrite Hl; split; [|split; [discriminate | exact Hs]].
  replace (Z.to_nat (0 + Z.of_nat (length before))) with (length before) by lia.
  rewrite H1, nth_error_app2, Nat.sub_diag by lia; reflexivity.
Qed.

Lemma definitionInFile_points (file : path) (data target : text)
      (location : DefinitionProvider.Location) :
  Forall (fun p => wordText p = true) (splitOn "." target) ->
  DefinitionProvider.definitionInFile file data target = Ret (Some location) ->
  pointsAt (splitLines data) file (last (splitOn "." target) [])
           (includes target (str ".")) 0 location.
Proof.
  intros Hw H; unfold DefinitionProvider.definitionInFile in H; cbv zeta in H.
  destruct (includes target (str ".")) eqn:Ei.
  - destruct (relativeParts_suffix (DefinitionProvider.packageOfLines (splitLines data))
                                   target) as [n Hn].
    rewrite Hn in H.
    pose proof (@findNestedDefinition_points (splitLines data) file _
                  (Forall_skipn n Hw) 0%Z (-1)%Z location ltac:(lia) H) as Hp.
    rewrite last_skipn in Hp; [exact Hp|].
    intros E; rewrite E in H; discriminate.
  - assert (Hs : splitOn "." target = [target]).
    { apply splitOn_absent.
      unfold includes, indexOf in Ei; apply Z.leb_gt in Ei.
      destruct (Z.eq_dec (indexOfFrom target (str ".") 0) (-1)) as [E | E].
      - exact (@indexOfFrom_absent target "." 0 E).
      - destruct (@indexOfFrom_found (str ".") target 0 _ eq_refl E) as [k [Hk _]]; lia. }
    rewrite Hs in *; cbn [last].
    inversion Hw as [|x xs Hx _]; subst.
    destruct (@simpleLoop_points file target (splitLines data) location Hx H)
      as (H1 & H2 & line & H3 & _ & H4).
    split; [exact H1|]; split; [exact H2|].
    exists line; split; [exact H3|]; split; [discriminate | exact H4].
Qed.

Lemma definitionLoop_source (fs : fileSystem) (target : text)
      (location : DefinitionProvider.Location) :
  forall files,
    DefinitionProvider.definitionLoop fs target files = Ret (Some location) ->
    exists file data,
      In file files /\ fs file = Some data
      /\ DefinitionProvider.definitionInFile file data target = Ret (Some location).
Proof.
  induction files as [|f files IH]; intros H; [discriminate|].
  cbn [DefinitionProvider.definitionLoop] in H.
  destruct (fs f) as [data|] eqn:Ef; [|discriminate].
  destruct (DefinitionProvider.definitionInFile f data target) as [[found|]| | |] eqn:Ed;
    try discriminate; cbn [bind] in H.
  - injection H as <-; exists f, data; repeat split; auto; now left.
  - destruct (IH H) as (file & d & Hin & Hfs & Hd).
    exists file, d; repeat split; auto; now right.
Qed.

(** X10: go to definition for a reference made of words and dots: the location
    that is returned lies in one of the candidate files, which was read,
    on one of its lines, and its range spells the last word of the
    reference. For a reference with a dot that line is not a comment
    line. *)
Theorem definition_points_at_the_name :
  forall (fs : fileSystem) (q : query) (target : text)
         (location : DefinitionProvider.Location),
    Forall (fun p => wordText p = true) (splitOn "." target) ->
    DefinitionProvider.findEnumOrMessageDefinition fs q target = Ret (Some location) ->
    exists data line,
      In (DefinitionProvider.loc_file location) (candidateFiles q)
      /\ fs (DefinitionProvider.loc_file location) = Some data
      /\ (0 <= DefinitionProvider.loc_line location)%Z
      /\ nth_error (splitLines data)
                   (Z.to_nat (DefinitionProvider.loc_line location)) = Some line
      /\ substring line (DefinitionProvider.loc_start location)
                   (DefinitionProvider.loc_end location)
         = last (splitOn "." target) []
      /\ (includes target (str ".") = true ->
          startsWith (trim line) (str "//") = false).
Proof.
  intros fs q target location Hw H.
  unfold DefinitionProvider.findEnumOrMessageDefinition in H.
  destruct (definitionLoop_source _ _ _ H) as (file & data & Hin & Hfs & Hd).
  destruct (@definitionInFile_points file data target location Hw Hd)
    as (H1 & H2 & line & H3 & H4 & H5).
  exists data, line; rewrite H1.
  split; [|auto].
  unfold uniqueFiles in Hin; apply uniqueFrom_In in Hin as [Hin _]; exact Hin.
Qed.

Lemma definition_points_at_the_name_witness :
  exists data line,
    PackageWorkspace.fs PackageWorkspace.filePath = Some data
    /\ nth_error (splitLines data) 2 = Some line
    /\ substring line 10 11 = str "N".
Proof.
  destruct (@definition_points_at_the_name PackageWorkspace.fs PackageWorkspace.mainQuery
              (str "a.b.M.N")
              (DefinitionProvider.mkLocation PackageWorkspace.filePath 2 10 11))
    as (data & line & _ & H1 & _ & H2 & H3 & _).
  - repeat constructor.
  - vm_compute; reflexivity.
  - exists data, line; auto.
Defined.

(* ================================================================= *)
(** ** The lookups of the definition provider return *)

Lemma lineAtIndex_in_range (lines : list text) (i : Z) :
  (0 <= i < Z.of_nat (length lines))%Z ->
  exists line, DefinitionProvider.lineAtIndex lines i = Ret line
               /\ nth_error lines (Z.to_nat i) = Some line.
Proof.
  intros H; unfold DefinitionProvider.lineAtIndex.
  replace (i <? 0)%Z with false by (symmetry; apply Z.ltb_ge; lia).
  destruct (nth_error lines (Z.to_nat i)) as [line|] eqn:E; [eauto|].
  apply nth_error_None in E; lia.
Qed.

Lemma nestedLoop_returns (lines : list text) (file : path) (currentPart : text)
      (isLast : bool) (endLine : Z)
      (inner : Z -> Z -> outcome (option DefinitionProvider.Location)) :
  wordText currentPart = true ->
  (endLine <= Z.of_nat (length lines))%Z ->
  (forall a b, (0 <= a)%Z -> (0 <= b <= Z.of_nat (length lines))%Z ->
               exists r, inner a b = Ret r) ->
  forall fuel i,
    (0 <= i)%Z -> Z.to_nat (endLine - i) < fuel ->
    exists r, nestedLoop lines currentPart isLast file endLine inner fuel i = Ret r.
Proof.
  intros Hc He Hinner.
  induction fuel as [|fuel IHf]; intros i Hi Hf; [lia|].
  rewrite nestedLoop_S.
  destruct (i <? endLine)%Z eqn:Elt; [|eauto].
  apply Z.ltb_lt in Elt.
  destruct (@lineAtIndex_in_range lines i ltac:(lia)) as [line [-> Hnth]].
  cbn [bind].
  destruct (startsWith (trim line) (str "//")); [apply IHf; lia|].
  rewrite newRegExp_definition by assumption; cbn [bind].
  destruct (exec (mkRegExp (definitionTree currentPart) false) line) as [m|];
    [|apply IHf; lia].
  destruct isLast; [eauto|].
  pose proof (@findBlockEnd_ge lines i line Hi Hnth) as Hge.
  destruct (Hinner (i + 1)%Z (Z.min (DefinitionProvider.findBlockEnd lines i) endLine)
                   ltac:(lia) ltac:(lia)) as [[found|] ->]; cbn [bind]; [eauto|].
  apply IHf; lia.
Qed.

Lemma findNestedDefinition_returns (lines : list text) (file : path) :
  forall parts,
    Forall (fun p => wordText p = true) parts ->
    forall startLine endLine,
      (0 <= startLine)%Z ->
      (endLine = -1 \/ 0 <= endLine <= Z.of_nat (length lines))%Z ->
      exists r,
        DefinitionProvider.findNestedDefinition lines parts file startLine endLine
        = Ret r.
Proof.
  induction parts as [|currentPart remainingParts IH];
    intros Hw startLine endLine Hs He; [simpl; eauto|].
  inversion Hw as [|x xs Hc Hr]; subst.
  rewrite findNestedDefinition_loop; cbv zeta.
  apply nestedLoop_returns;
    [exact Hc
    | destruct (endLine =? -1)%Z eqn:E; [lia | apply Z.eqb_neq in E; lia]
    | intros a b Ha Hb; apply IH; auto; right; lia
    | exact Hs
    | lia].
Qed.

Lemma simpleLoop_returns (file : path) (target : text) (lines : list text) :
  wordText target = true ->
  exists r, DefinitionProvider.simpleLoop file target lines 0 = Ret r.
Proof.
  intros Hw.
  destruct (@simpleLoop_word file target lines Hw 0%Z)
    as [[H1 _] | [before [line [after [m [_ [_ [_ H4]]]]]]]]; eauto.
Qed.

Lemma definitionInFile_returns (file : path) (data target : text) :
  Forall (fun p => wordText p = true) (splitOn "." target) ->
  exists r, DefinitionProvider.definitionInFile file data target = Ret r.
Proof.
  intros Hw; unfold DefinitionProvider.definitionInFile; cbv zeta.
  destruct (includes target (str ".")) eqn:Ei.
  - destruct (relativeParts_suffix (DefinitionProvider.packageOfLines (splitLines data))
                                   target) as [n ->].
    apply findNestedDefinition_returns; [now apply Forall_skipn | lia | now left].
  - apply simpleLoop_returns.
    assert (Hs : splitOn "." target = [target]).
    { apply splitOn_absent.
      unfold includes, indexOf in Ei; apply Z.leb_gt in Ei.
      destruct (Z.eq_dec (indexOfFrom target (str ".") 0) (-1)) as [E | E].
      - exact (@indexOfFrom_absent target "." 0 E).
      - destruct (@indexOfFrom_found (str ".") target 0 _ eq_refl E) as [k [Hk _]]; lia. }
    rewrite Hs in Hw; now inversion Hw.
Qed.

(** X11: go to definition for a reference made of words and dots ends, and it
    ends without an exception when every candidate file that it reads can
    be read: the patterns built from the words are well formed, the lines
    it reads exist, and the walk over the lines of a file advances. The
    only exception is the one of a failed read. *)
Theorem definition_lookup_ends :
  forall (fs : fileSystem) (q : query) (target : text),
    Forall (fun p => wordText p = true) (splitOn "." target) ->
    (exists r, DefinitionProvider.findEnumOrMessageDefinition fs q target = Ret r)
    \/ (DefinitionProvider.findEnumOrMessageDefinition fs q target = Throw IOError
        /\ exists file, In file (candidateFiles q) /\ fs file = None).
Proof.
  intros fs q target Hw; unfold DefinitionProvider.findEnumOrMessageDefinition.
  assert (Hsub : forall f, In f (uniqueFiles q) -> In f (candidateFiles q))
    by (intros f Hf; unfold uniqueFiles in Hf; now apply uniqueFrom_In in Hf).
  revert Hsub; generalize (uniqueFiles q) as files.
  induction files as [|f files IH]; intros Hsub; [left; simpl; eauto|].
  cbn [DefinitionProvider.definitionLoop].
  destruct (fs f) as [data|] eqn:Ef.
  - destruct (@definitionInFile_returns f data target Hw) as [[found|] ->]; cbn [bind].
    + left; eauto.
    + apply IH; intros x Hx; apply Hsub; now right.
  - right; split; [reflexivity|]; exists f; split; [apply Hsub; now left | exact Ef].
Qed.

Lemma definition_lookup_ends_witness :
  (exists r, DefinitionProvider.findEnumOrMessageDefinition PackageWorkspace.fs
               PackageWorkspace.mainQuery (str "a.b.M.N") = Ret r)
  \/ (DefinitionProvider.findEnumOrMessageDefinition PackageWorkspace.fs
        PackageWorkspace.mainQuery (str "a.b.M.N") = Throw IOError
      /\ exists file, In file (candidateFiles PackageWorkspace.mainQuery)
                      /\ PackageWorkspace.fs file = None).
Proof.
  apply (@definition_lookup_ends PackageWorkspace.fs PackageWorkspace.mainQuery
           (str "a.b.M.N")).
  repeat constructor.
Defined.

(* ================================================================= *)
(** ** The name of a description *)

Lemma messageNameRe_name_is_word (line : text) (m : matchResult) :
  exec messageNameRe line = Some m ->
  wordText (orEmpty (group m 1)) = true.
Proof.
  apply captured_name_is_word.
  cbv [groupReads re_tree re_ignoreCase messageNameRe].
  repeat split; intros _; apply word_group_reads.
Qed.

Lemma word_no_dot (w : text) : wordText w = true -> ~ In "."%char w.
Proof.
  intros Hw Hin; unfold wordText in Hw; rewrite forallb_forall in Hw.
  specialize (Hw _ Hin); vm_compute in Hw; discriminate.
Qed.

Lemma splitOn_no_sep (sep : ascii) (s : text) :
  forall p, In p (splitOn sep s) -> ~ In sep p.
Proof.
  induction s as [|c s IH]; intros p Hp; cbn [splitOn] in Hp.
  - destruct Hp as [<- | []]; intros [].
  - destruct (Ascii.eqb c sep) eqn:E.
    + destruct Hp as [<- | Hp]; [intros [] | auto].
    + pose proof (splitOn_nonempty sep s) as Hn.
      destruct (splitOn sep s) as [|l ls]; [congruence|].
      destruct Hp as [<- | Hp].
      * intros [-> | Hin]; [now rewrite Ascii.eqb_refl in E|].
        apply (IH l); [now left | exact Hin].
      * apply IH; now right.
Qed.

(** The record that [parseMessage] returns carries the name it was called
    with. *)
Lemma parseMessageBody_name (rec : text -> text -> outcome MessageInfo)
      (name content : text) :
  match Hover.parseMessageBody rec name content with
  | Ret m => m_name m = name
  | _ => True
  end.
Proof.
  unfold Hover.parseMessageBody.
  destruct (newRegExp (messageStartPattern name) false) as [re| | |]; cbn [bind]; auto.
  destruct (locate re content) as [l|]; [|reflexivity].
  destruct (l_endIndex l =? -1)%Z; [reflexivity|].
  destruct (l_commentPart l); [|exact I].
  destruct (Hover.messageLines _ _ _ _); cbn [bind]; auto.
Qed.

Lemma hover_parseMessage_name (name content : text) :
  match Hover.parseMessage name content with
  | Ret m => m_name m = name
  | _ => True
  end.
Proof.
  unfold Hover.parseMessage; rewrite parseMessageFuel_unfold.
  apply parseMessageBody_name.
Qed.

Lemma flat_parseMessage_name (name content : text) :
  match HoverFlat.parseMessage name content with
  | Ret m => m_name m = name
  | _ => True
  end.
Proof.
  unfold HoverFlat.parseMessage.
  destruct (newRegExp (messageStartPattern name) false) as [re| | |]; cbn [bind]; auto.
  destruct (locate re content) as [l|]; [|reflexivity].
  destruct (l_endIndex l =? -1)%Z; [reflexivity|].
  destruct (l_commentPart l); [reflexivity | exact I].
Qed.

Lemma parseEnum_name (valueRe : RegExp) (name content : text) :
  match parseEnum valueRe name content with
  | Ret e => e_name e = name
  | _ => True
  end.
Proof.
  unfold parseEnum.
  destruct (newRegExp (enumPattern name) false) as [re| | |]; cbn [bind]; auto.
  destruct (exec re content) as [m|]; [|reflexivity].
  destruct (group m 1); [|exact I].
  destruct (group m 2); [reflexivity | exact I].
Qed.

Lemma hover_parseEnum_name (name content : text) :
  match Hover.parseEnum name content with
  | Ret e => e_name e = name
  | _ => True
  end.
Proof. exact (parseEnum_name Hover.valueRe name content). Qed.

Lemma flat_parseEnum_name (name content : text) :
  match HoverFlat.parseEnum name content with
  | Ret e => e_name e = name
  | _ => True
  end.
Proof. exact (parseEnum_name HoverFlat.valueRe name content). Qed.

Section NameInFile.

Variable targetName content : text.

Let parts := HoverResolver.matchParts targetName content.
Let root := HoverResolver.matchRoot targetName content.

Lemma matchParts_root : parts = root :: tl parts.
Proof.
  unfold root, HoverResolver.matchRoot; fold parts.
  assert (H : parts <> []).
  { unfold parts, HoverResolver.matchParts.
    destruct (HoverResolver.stripsPackage targetName content); apply splitOn_nonempty. }
  destruct parts; [congruence | reflexivity].
Qed.

Lemma matchRoot_no_dot : ~ In "."%char root.
Proof.
  assert (H : In root parts) by (rewrite matchParts_root; now left).
  unfold parts, HoverResolver.matchParts in H.
  destruct (HoverResolver.stripsPackage targetName content);
    exact (splitOn_no_sep _ _ _ H).
Qed.

Lemma fullName_is_target (w : text) :
  wordText w = true ->
  HoverResolver.fullNameOf content w = targetName ->
  parts = [w].
Proof.
  intros Hw Hf; unfold parts, HoverResolver.fullNameOf in *.
  destruct (HoverResolver.packageName content) as [|c p] eqn:E.
  - subst targetName.
    rewrite matchParts_unprefixed.
    + apply splitOn_absent, word_no_dot, Hw.
    + rewrite E; cbn [app].
      destruct w as [|x w']; [reflexivity|].
      cbn [startsWith str list_ascii_of_string].
      destruct (Ascii.eqb "." x) eqn:Ex; [|reflexivity].
      apply Ascii.eqb_eq in Ex; subst x.
      exfalso; apply (word_no_dot _ Hw); now left.
  - rewrite (@matchParts_prefixed targetName content w).
    + apply splitOn_absent, word_no_dot, Hw.
    + rewrite E; discriminate.
    + now rewrite E.
Qed.

Lemma fullName_is_root (w : text) :
  wordText w = true ->
  HoverResolver.fullNameOf content w = root ->
  w = root.
Proof.
  intros Hw Hf; unfold HoverResolver.fullNameOf in Hf.
  destruct (HoverResolver.packageName content) as [|c p]; [exact Hf|].
  exfalso; apply matchRoot_no_dot; rewrite <- Hf.
  apply in_or_app; right; now left.
Qed.

Lemma single_part : (length parts =? 1) = true -> join (str ".") parts = root.
Proof.
  intros H; apply Nat.eqb_eq in H.
  rewrite matchParts_root in *.
  destruct (tl parts); [reflexivity | simpl in H; lia].
Qed.

Lemma messageCandidates_name (matches : list text) (info : Info) :
  HoverResolver.messageCandidates targetName content matches = Ret (Some info) ->
  infoName info = join (str ".") parts.
Proof.
  induction matches as [|mt matches IH]; intros H; [discriminate|].
  cbn [HoverResolver.messageCandidates] in H; cbv zeta in H.
  fold parts in H; fold root in H.
  destruct (exec messageNameRe mt) as [name|] eqn:En; [|auto].
  pose proof (messageNameRe_name_is_word _ En) as Hw.
  destruct (truthy (group name 1)); [|auto].
  set (messageName := orEmpty (group name 1)) in *.
  destruct (text_eqb messageName root
            || text_eqb (HoverResolver.fullNameOf content messageName) targetName
            || text_eqb (HoverResolver.fullNameOf content messageName) root); [|auto].
  pose proof (hover_parseMessage_name messageName content) as Hn.
  destruct (Hover.parseMessage messageName content) as [m| | |]; try discriminate.
  cbn [bind] in H.
  destruct (text_eqb (HoverResolver.fullNameOf content messageName) targetName) eqn:Ef.
  - injection H as <-; cbn [infoName].
    apply text_eqb_eq in Ef.
    rewrite (@fullName_is_target messageName Hw Ef), Hn; reflexivity.
  - destruct ((1 <? length parts) && text_eqb messageName root) eqn:E1.
    + apply andb_true_iff in E1 as [_ Er]; apply text_eqb_eq in Er.
      destruct (HoverResolver.descend (IMessage m) (tl parts)) as [found|] eqn:Ed;
        [|auto].
      injection H as <-.
      rewrite (@descend_name _ _ _ Ed); cbn [infoName].
      rewrite Hn, Er, <- matchParts_root; reflexivity.
    + destruct (text_eqb messageName root && (length parts =? 1)) eqn:E2; [|auto].
      apply andb_true_iff in E2 as [Er E2]; apply text_eqb_eq in Er.
      injection H as <-; cbn [infoName].
      rewrite (@single_part E2), Hn; exact Er.
Qed.

Lemma enumCandidates_name (matches : list text) (info : Info) :
  HoverResolver.enumCandidates targetName content matches = Ret (Some info) ->
  infoName info = join (str ".") parts.
Proof.
  induction matches as [|mt matches IH]; intros H; [discriminate|].
  cbn [HoverResolver.enumCandidates] in H; cbv zeta in H.
  fold parts in H; fold root in H.
  destruct (exec enumNameRe mt) as [name|] eqn:En; [|auto].
  pose proof (enumNameRe_name_is_word _ En) as Hw.
  destruct (truthy (group name 1)); [|auto].
  set (enumName := orEmpty (group name 1)) in *.
  destruct ((text_eqb enumName root
             || text_eqb (HoverResolver.fullNameOf content enumName) targetName
             || text_eqb (HoverResolver.fullNameOf content enumName) root)
            && (length parts =? 1)) eqn:Ec; [|auto].
  apply andb_true_iff in Ec as [Ec E1].
  pose proof (hover_parseEnum_name enumName content) as Hn.
  destruct (Hover.parseEnum enumName content) as [e| | |]; try discriminate.
  cbn [bind] in H; injection H as <-; cbn [infoName].
  rewrite Hn.
  apply orb_true_iff in Ec as [Ec | Ec]; [apply orb_true_iff in Ec as [Ec | Ec]|];
    apply text_eqb_eq in Ec.
  - now rewrite (@single_part E1).
  - now rewrite (@fullName_is_target enumName Hw Ec).
  - rewrite (@single_part E1); exact (@fullName_is_root enumName Hw Ec).
Qed.

Lemma infoInFile_name (info : Info) :
  HoverResolver.infoInFile targetName content = Ret (Some info) ->
  infoName info = join (str ".") parts.
Proof.
  unfold HoverResolver.infoInFile; intros H.
  destruct (matchAll messageOpenersRe content) as [ms|].
  - destruct (HoverResolver.messageCandidates targetName content ms)
      as [[found|]| | |] eqn:Em; try discriminate; cbn [bind] in H.
    + injection H as <-; exact (@messageCandidates_name _ _ Em).
    + destruct (matchAll enumOpenersRe content) as [es|]; [|discriminate].
      exact (@enumCandidates_name _ _ H).
  - cbn [bind] in H.
    destruct (matchAll enumOpenersRe content) as [es|]; [|discriminate].
    exact (@enumCandidates_name _ _ H).
Qed.

End NameInFile.

Section FlatNameInFile.

Variable targetName content : text.

Lemma flat_messageCandidates_name (matches : list text) (info : Info) :
  HoverFlatResolver.messageCandidates targetName content matches = Ret (Some info) ->
  wordText targetName = true /\ infoName info = targetName.
Proof.
  induction matches as [|mt matches IH]; intros H; [discriminate|].
  cbn [HoverFlatResolver.messageCandidates] in H.
  destruct (exec messageNameRe mt) as [name|] eqn:En; [|auto].
  pose proof (messageNameRe_name_is_word _ En) as Hw.
  destruct (group name 1) as [n|]; [|auto].
  destruct (text_eqb n targetName) eqn:E; [|auto].
  apply text_eqb_eq in E; cbn [orEmpty] in Hw; subst n.
  pose proof (flat_parseMessage_name targetName content) as Hn.
  destruct (HoverFlat.parseMessage targetName content) as [m| | |]; try discriminate.
  cbn [bind] in H; injection H as <-; auto.
Qed.

Lemma flat_enumCandidates_name (matches : list text) (info : Info) :
  HoverFlatResolver.enumCandidates targetName content matches = Ret (Some info) ->
  wordText targetName = true /\ infoName info = targetName.
Proof.
  induction matches as [|mt matches IH]; intros H; [discriminate|].
  cbn [HoverFlatResolver.enumCandidates] in H.
  destruct (exec enumNameRe mt) as [name|] eqn:En; [|auto].
  pose proof (enumNameRe_name_is_word _ En) as Hw.
  destruct (group name 1) as [n|]; [|auto].
  destruct (text_eqb n targetName) eqn:E; [|auto].
  apply text_eqb_eq in E; cbn [orEmpty] in Hw; subst n.
  pose proof (flat_parseEnum_name targetName content) as Hn.
  destruct (HoverFlat.parseEnum targetName content) as [e| | |]; try discriminate.
  cbn [bind] in H; injection H as <-; auto.
Qed.

Lemma flat_infoInFile_name (info : Info) :
  HoverFlatResolver.infoInFile targetName content = Ret (Some info) ->
  wordText targetName = true /\ infoName info = targetName.
Proof.
  unfold HoverFlatResolver.infoInFile; intros H.
  destruct (matchAll messageOpenersRe content) as [ms|].
  - destruct (HoverFlatResolver.messageCandidates targetName content ms)
      as [[found|]| | |] eqn:Em; try discriminate; cbn [bind] in H.
    + injection H as <-; exact (@flat_messageCandidates_name _ _ Em).
    + destruct (matchAll enumOpenersRe content) as [es|]; [|discriminate].
      exact (@flat_enumCandidates_name _ _ H).
  - cbn [bind] in H.
    destruct (matchAll enumOpenersRe content) as [es|]; [|discriminate].
    exact (@flat_enumCandidates_name _ _ H).
Qed.

End FlatNameInFile.

Lemma hoverLoop_source (fs : fileSystem) (inFile : text -> outcome (option Info))
      (files : list path) (info : Info) :
  hoverLoop fs inFile files = Ret (Some info) ->
  exists file content,
    In file files /\ fs file = Some content /\ inFile content = Ret (Some info).
Proof.
  induction files as [|f files IH]; intros H; [discriminate|].
  cbn [hoverLoop] in H.
  assert (Hrest : hoverLoop fs inFile files = Ret (Some info) ->
                  exists file content,
                    In file (f :: files) /\ fs file = Some content
                    /\ inFile content = Ret (Some info)).
  { intros H'; destruct (IH H') as (file & c & Hin & Hfs & Hc).
    exists file, c; repeat split; auto; now right. }
  destruct (fs f) as [content|] eqn:Ef; [|auto].
  destruct (inFile content) as [[found|]|e| |] eqn:Ei; try discriminate; auto.
  exists f, content; repeat split; auto; [now left | congruence].
Qed.

Unset Implicit Arguments.

(** X12: the description that the hover lookup of the revision with nested
    types returns lies in a candidate file that was read, and its name is
    the reference with the package of that file taken off the front: the
    dotted path from the top-level declaration down to the nested one. *)
Theorem hover_description_is_named_by_the_reference :
  forall (fs : fileSystem) (q : query) (target : text) (info : Info),
    HoverResolver.getMessageOrEnumInfo fs q target = Ret (Some info) ->
    exists file content,
      In file (candidateFiles q) /\ fs file = Some content
      /\ HoverResolver.infoInFile target content = Ret (Some info)
      /\ infoName info = join (str ".") (HoverResolver.matchParts target content).
Proof.
  intros fs q target info H.
  destruct (@hoverLoop_source fs _ _ info H) as (file & content & Hin & Hfs & Hc).
  exists file, content; repeat split; auto.
  - unfold uniqueFiles in Hin; apply uniqueFrom_In in Hin as [Hin _]; exact Hin.
  - exact (@infoInFile_name target content info Hc).
Qed.

(** X13: the hover lookup of the revision without nested types resolves single
    words only: whenever it returns a description, the reference is made
    of word characters (it holds no dot, so a package-qualified or nested
    reference is never resolved), and the description carries exactly the
    reference as its name. *)
Theorem flat_hover_resolves_single_words_only :
  forall (fs : fileSystem) (q : query) (target : text) (info : Info),
    HoverFlatResolver.getMessageOrEnumInfo fs q target = Ret (Some info) ->
    wordText target = true /\ ~ In "."%char target /\ infoName info = target.
Proof.
  intros fs q target info H.
  destruct (@hoverLoop_source fs _ _ info H) as (file & content & _ & _ & Hc).
  destruct (@flat_infoInFile_name target content info Hc) as [Hw Hn].
  split; [exact Hw|]; split; [exact (@word_no_dot target Hw) | exact Hn].
Qed.

Set Implicit Arguments.

Lemma hover_description_is_named_by_the_reference_witness :
  exists file content,
    PackageWorkspace.fs file = Some content
    /\ infoName (PackageWorkspace.nestedInfo (LF :: str "  message N {}"))
       = join (str ".") (HoverResolver.matchParts (str "a.b.M.N") content).
Proof.
  destruct (hover_description_is_named_by_the_reference
              PackageWorkspace.fs PackageWorkspace.mainQuery (str "a.b.M.N")
              (PackageWorkspace.nestedInfo (LF :: str "  message N {}")))
    as (file & content & _ & H1 & _ & H2).
  - vm_compute; reflexivity.
  - exists file, content; auto.
Defined.

(** The description of [M] in the example workspace, as the revision
    without nested types gives it. *)
Definition flatOuterInfo : Info :=
  IMessage (mkMessage (str "M") [] [] [] None
                      (LF :: str "message M {" ++ LF :: str "  message N {}"
                          ++ LF :: str "}")).

Lemma flat_hover_resolves_single_words_only_witness :
  wordText (str "M") = true /\ ~ In "."%char (str "M")
  /\ infoName flatOuterInfo = str "M".
Proof.
  apply (flat_hover_resolves_single_words_only
           PackageWorkspace.fs PackageWorkspace.mainQuery (str "M") flatOuterInfo).
  vm_compute; reflexivity.
Defined.

(* ================================================================= *)
(** ** The merged protoc options *)

Import Configuration.

(** The path that a proto path option of the merged list names. *)
Definition pathValues (options : list text) : list text :=
  flat_map (fun o => match extractProtoPathValue o with
                     | Some v => [v]
                     | None => []
                     end) options.

Lemma has_false (set : list text) (x : text) : has set x = false <-> ~ In x set.
Proof.
  unfold has; split.
  - intros H Hin.
    assert (existsb (text_eqb x) set = true); [|congruence].
    apply existsb_exists; exists x; split; [assumption | apply text_eqb_refl].
  - intros H; destruct (existsb (text_eqb x) set) eqn:E; [|reflexivity].
    apply existsb_text_eqb_In in E; contradiction.
Qed.

Lemma has_true (set : list text) (x : text) : has set x = true <-> In x set.
Proof.
  split.
  - apply existsb_text_eqb_In.
  - intros H; destruct (has set x) eqn:E; [reflexivity|].
    apply has_false in E; contradiction.
Qed.

Lemma NoDup_snoc {A} (l : list A) (x : A) : NoDup l -> ~ In x l -> NoDup (l ++ [x]).
Proof.
  intros Hl Hx; induction Hl as [|y l Hy Hl IH]; simpl.
  - constructor; [intros [] | constructor].
  - constructor.
    + intros H; apply in_app_or in H as [H | [<- | []]]; [auto | apply Hx; now left].
    + apply IH; intros H; apply Hx; now right.
Qed.

(** What [processOptions] keeps true of its accumulators. *)
Definition coherent (acc : merge) : Prop :=
  seenOtherOptions acc
  = filter (fun o => negb (isProtoPathOption o)) (mergedOptions acc)
  /\ seenProtoPaths acc = pathValues (filter isProtoPathOption (mergedOptions acc))
  /\ (forall o, In o (mergedOptions acc) -> isProtoPathOption o = true ->
                exists v, extractProtoPathValue o = Some v /\ v <> [])
  /\ NoDup (seenOtherOptions acc)
  /\ NoDup (seenProtoPaths acc).

Lemma processOption_cases (acc : merge) (opt : text) :
  processOption acc opt = acc
  \/ (isProtoPathOption opt = false /\ ~ In opt (seenOtherOptions acc)
      /\ processOption acc opt
         = mkMerge (mergedOptions acc ++ [opt]) (seenProtoPaths acc)
                   (seenOtherOptions acc ++ [opt]))
  \/ (exists v, isProtoPathOption opt = true /\ extractProtoPathValue opt = Some v
                /\ v <> [] /\ ~ In v (seenProtoPaths acc)
                /\ processOption acc opt
                   = mkMerge (mergedOptions acc ++ [opt]) (seenProtoPaths acc ++ [v])
                             (seenOtherOptions acc)).
Proof.
  unfold processOption.
  destruct (isProtoPathOption opt) eqn:Ep.
  - destruct (extractProtoPathValue opt) as [v|] eqn:Ev; [|now left].
    destruct v as [|c v]; [now left|].
    cbn [truthy andb].
    destruct (has (seenProtoPaths acc) (c :: v)) eqn:Eh; [now left|].
    right; right; exists (c :: v); repeat split; auto; try discriminate.
    now apply has_false.
  - destruct (has (seenOtherOptions acc) opt) eqn:Eh; [now left|].
    right; left; repeat split; auto; now apply has_false.
Qed.

Lemma processOption_coherent (acc : merge) (opt : text) :
  coherent acc -> coherent (processOption acc opt).
Proof.
  intros (H1 & H2 & H3 & H4 & H5).
  destruct (processOption_cases acc opt)
    as [-> | [(Ep & Hn & ->) | (v & Ep & Ev & Hv & Hn & ->)]].
  - repeat split; assumption.
  - unfold coherent; cbn [mergedOptions seenProtoPaths seenOtherOptions].
    rewrite !filter_app; cbn [filter]; rewrite Ep; cbn [negb].
    rewrite <- H1, app_nil_r; repeat split; auto.
    + intros o Ho Hp; apply in_app_or in Ho as [Ho | [<- | []]]; [auto | congruence].
    + now apply NoDup_snoc.
  - unfold coherent; cbn [mergedOptions seenProtoPaths seenOtherOptions].
    rewrite !filter_app; cbn [filter]; rewrite Ep; cbn [negb].
    unfold pathValues in *; rewrite flat_map_app; cbn [flat_map]; rewrite Ev.
    rewrite <- H1, <- H2, !app_nil_r; repeat split; auto.
    + intros o Ho Hp; apply in_app_or in Ho as [Ho | [<- | []]]; eauto.
    + now apply NoDup_snoc.
Qed.

Lemma processOptions_coherent (options : list text) :
  forall acc, coherent acc -> coherent (processOptions options acc).
Proof.
  unfold processOptions; induction options as [|o options IH]; intros acc H;
    [exact H | simpl; apply IH; now apply processOption_coherent].
Qed.

Lemma empty_coherent : coherent (mkMerge [] [] []).
Proof. repeat split; try constructor; intros o []. Qed.

(** The merged list grows at its end, by options of the list that is
    processed. *)
Lemma processOptions_extends (options : list text) :
  forall acc,
    exists added,
      mergedOptions (processOptions options acc) = mergedOptions acc ++ added
      /\ (forall o, In o added -> In o options)
      /\ (forall x, In x (seenOtherOptions acc) ->
                    In x (seenOtherOptions (processOptions options acc)))
      /\ (forall x, In x (seenProtoPaths acc) ->
                    In x (seenProtoPaths (processOptions options acc))).
Proof.
  unfold processOptions; induction options as [|o options IH]; intros acc.
  - exists []; rewrite app_nil_r; repeat split; auto; intros x [].
  - cbn [fold_left].
    destruct (IH (processOption acc o)) as (added & Ha & Hin & Ho & Hp).
    destruct (processOption_cases acc o)
      as [E | [(_ & _ & E) | (v & _ & _ & _ & _ & E)]]; rewrite E in *;
      cbn [mergedOptions seenProtoPaths seenOtherOptions] in *.
    + exists added; repeat split; auto; intros x Hx; right; auto.
    + exists (o :: added); rewrite Ha, <- app_assoc; repeat split; auto.
      * intros x [<- | Hx]; [now left | right; auto].
      * intros x Hx; apply Ho, in_or_app; now left.
    + exists (o :: added); rewrite Ha, <- app_assoc; repeat split; auto.
      * intros x [<- | Hx]; [now left | right; auto].
      * intros x Hx; apply Hp, in_or_app; now left.
Qed.

(** Every option that is processed is accounted for afterwards. *)
Lemma processOptions_covers (options : list text) :
  forall acc o,
    In o options ->
    (isProtoPathOption o = false ->
     In o (seenOtherOptions (processOptions options acc)))
    /\ (forall v, isProtoPathOption o = true -> extractProtoPathValue o = Some v ->
                  v <> [] -> In v (seenProtoPaths (processOptions options acc))).
Proof.
  unfold processOptions; induction options as [|x options IH]; intros acc o Hin;
    [destruct Hin|].
  cbn [fold_left]; destruct Hin as [<- | Hin]; [|now apply IH].
  destruct (processOptions_extends options (processOption acc x))
    as (_ & _ & _ & Ho & Hp).
  unfold processOptions in Ho, Hp.
  split.
  - intros Ep; apply Ho.
    unfold processOption; rewrite Ep.
    destruct (has (seenOtherOptions acc) x) eqn:Eh; cbn [negb seenOtherOptions].
    + now apply has_true.
    + apply in_or_app; right; now left.
  - intros v Ep Ev Hv; apply Hp.
    unfold processOption; rewrite Ep, Ev.
    destruct v as [|c v]; [congruence|]; cbn [truthy andb].
    destruct (has (seenProtoPaths acc) (c :: v)) eqn:Eh; cbn [negb seenProtoPaths].
    + now apply has_true.
    + apply in_or_app; right; now left.
Qed.

(** An option that is accounted for is left out when it comes again. *)
Lemma processOptions_again (options : list text) :
  forall acc,
    coherent acc ->
    (forall o, In o options -> isProtoPathOption o = false ->
               In o (seenOtherOptions acc)) ->
    (forall o v, In o options -> isProtoPathOption o = true ->
                 extractProtoPathValue o = Some v -> v <> [] ->
                 In v (seenProtoPaths acc)) ->
    processOptions options acc = acc.
Proof.
  unfold processOptions; induction options as [|o options IH]; intros acc Hc Ho Hp;
    [reflexivity|].
  cbn [fold_left].
  assert (E : processOption acc o = acc).
  { destruct (processOption_cases acc o)
      as [E | [(Ep & Hn & _) | (v & Ep & Ev & Hv & Hn & _)]]; [exact E | |].
    - exfalso; apply Hn, Ho; [now left | assumption].
    - exfalso; apply Hn; apply (Hp o v); auto; now left. }
  rewrite E; apply IH; auto.
  - intros x Hx; apply Ho; now right.
  - intros x v Hx; apply Hp; now right.
Qed.


Lemma getMerged_coherent (currentOptions workspaceOptions : list text) :
  coherent (processOptions currentOptions
              (processOptions workspaceOptions (mkMerge [] [] []))).
Proof. apply processOptions_coherent, processOptions_coherent, empty_coherent. Qed.

Lemma getProtoPathOptions_filter (currentOptions workspaceOptions : list text) :
  getProtoPathOptions currentOptions workspaceOptions
  = filter isProtoPathOption (getMergedProtocOptions currentOptions workspaceOptions).
Proof. reflexivity. Qed.

Lemma NoDup_pathValues (l : list text) :
  (forall o, In o l -> exists v, extractProtoPathValue o = Some v) ->
  NoDup (pathValues l) -> NoDup l.
Proof.
  induction l as [|o l IH]; intros Hv Hn; [constructor|].
  destruct (Hv o ltac:(now left)) as [v Ev].
  unfold pathValues in Hn; cbn [flat_map] in Hn; rewrite Ev in Hn.
  cbn [app] in Hn; inversion Hn as [|x xs Hx Hxs]; subst.
  constructor.
  - intros Hin; apply Hx; unfold pathValues; apply in_flat_map.
    exists o; split; [assumption | rewrite Ev; now left].
  - apply IH; [intros x Hx'; apply Hv; now right | exact Hxs].
Qed.

Lemma NoDup_by_filter {A} (p : A -> bool) (l : list A) :
  NoDup (filter p l) -> NoDup (filter (fun x => negb (p x)) l) -> NoDup l.
Proof.
  induction l as [|x l IH]; intros H1 H2; [constructor|].
  cbn [filter] in H1, H2; destruct (p x) eqn:E; cbn [negb] in H2.
  - inversion H1 as [|y ys Hy Hys]; subst; constructor; [|auto].
    intros Hin; apply Hy, filter_In; auto.
  - inversion H2 as [|y ys Hy Hys]; subst; constructor; [|auto].
    intros Hin; apply Hy, filter_In; split; [assumption | now rewrite E].
Qed.

(** X14: the merged options hold no option twice and no two proto path options
    for the same path; every proto path option that is kept names a path
    that is not empty, so an option [-I] that stands alone, and
    [--proto_path] without a value, are dropped. *)
Theorem merged_options_are_distinct :
  forall currentOptions workspaceOptions : list text,
    NoDup (getMergedProtocOptions currentOptions workspaceOptions)
    /\ NoDup (pathValues (getProtoPathOptions currentOptions workspaceOptions))
    /\ (forall o, In o (getProtoPathOptions currentOptions workspaceOptions) ->
                  exists v, extractProtoPathValue o = Some v /\ v <> [])
    /\ ~ In (str "-I") (getMergedProtocOptions currentOptions workspaceOptions)
    /\ ~ In (str "--proto_path") (getMergedProtocOptions currentOptions workspaceOptions).
Proof.
  intros cur ws.
  destruct (getMerged_coherent cur ws) as (H1 & H2 & H3 & H4 & H5).
  fold (getMergedProtocOptions cur ws) in H1, H2, H3.
  rewrite getProtoPathOptions_filter.
  assert (Hv : forall o, In o (filter isProtoPathOption (getMergedProtocOptions cur ws)) ->
                         exists v, extractProtoPathValue o = Some v /\ v <> []).
  { intros o Ho; apply filter_In in Ho as [Ho Hp]; auto. }
  rewrite <- H2.
  split; [|split; [assumption | split; [assumption|]]].
  - apply (NoDup_by_filter isProtoPathOption).
    + apply NoDup_pathValues; [|now rewrite <- H2].
      intros o Ho; destruct (Hv o Ho) as [v [Ev _]]; eauto.
    + now rewrite <- H1.
  - split; intros Hin; destruct (H3 _ Hin eq_refl) as [v [Ev _]]; discriminate.
Qed.

(** X15: the options of the workspace stand first in the merged list, and the
    options of the workspace folder add to them only what is not there
    yet; every option of either list is kept, or stands for a path that is
    already named, or names no path. *)
Theorem workspace_options_stand_first :
  forall currentOptions workspaceOptions : list text,
    exists added,
      getMergedProtocOptions currentOptions workspaceOptions
      = getMergedProtocOptions [] workspaceOptions ++ added
      /\ (forall o, In o added -> In o currentOptions)
      /\ (forall o, In o (getMergedProtocOptions [] workspaceOptions) ->
                    In o workspaceOptions)
      /\ (forall o, In o workspaceOptions \/ In o currentOptions ->
                    isProtoPathOption o = false ->
                    In o (getMergedProtocOptions currentOptions workspaceOptions))
      /\ (forall o v, In o workspaceOptions \/ In o currentOptions ->
                      isProtoPathOption o = true ->
                      extractProtoPathValue o = Some v -> v <> [] ->
                      In v (pathValues
                              (getProtoPathOptions currentOptions workspaceOptions))).
Proof.
  intros cur ws.
  destruct (getMerged_coherent cur ws) as (H1 & H2 & _).
  fold (getMergedProtocOptions cur ws) in H1, H2.
  destruct (processOptions_extends cur (processOptions ws (mkMerge [] [] [])))
    as (added & Ha & Hin & Ho & Hp).
  destruct (processOptions_extends ws (mkMerge [] [] []))
    as (added0 & Ha0 & Hin0 & _).
  exists added; split; [exact Ha|]; split; [exact Hin|]; split.
  - unfold getMergedProtocOptions; cbn [processOptions fold_left].
    fold (processOptions ws (mkMerge [] [] [])); rewrite Ha0; exact Hin0.
  - split.
    + intros o [Hw | Hc] Hpo.
      * pose proof (proj1 (processOptions_covers ws (mkMerge [] [] []) o Hw) Hpo) as Hs.
        apply Ho in Hs; rewrite H1 in Hs.
        apply filter_In in Hs as [Hs _]; exact Hs.
      * pose proof (proj1 (processOptions_covers cur
                             (processOptions ws (mkMerge [] [] [])) o Hc) Hpo) as Hs.
        rewrite H1 in Hs; apply filter_In in Hs as [Hs _]; exact Hs.
    + intros o v [Hw | Hc] Hpo Ev Hv; rewrite getProtoPathOptions_filter, <- H2.
      * apply Hp.
        exact (proj2 (processOptions_covers ws (mkMerge [] [] []) o Hw) v Hpo Ev Hv).
      * exact (proj2 (processOptions_covers cur
                        (processOptions ws (mkMerge [] [] [])) o Hc) v Hpo Ev Hv).
Qed.

(** X16: when the options of the workspace folder are those of the workspace,
    as they are when the folder sets none of its own, merging adds
    nothing. *)
Theorem merging_the_same_options_adds_nothing :
  forall options : list text,
    getMergedProtocOptions options options = getMergedProtocOptions [] options.
Proof.
  intros options; unfold getMergedProtocOptions.
  cbn [processOptions fold_left]; fold (processOptions options (mkMerge [] [] [])).
  f_equal; apply processOptions_again.
  - apply processOptions_coherent, empty_coherent.
  - intros o Ho Hp.
    exact (proj1 (processOptions_covers options (mkMerge [] [] []) o Ho) Hp).
  - intros o v Ho Hp Ev Hv.
    exact (proj2 (processOptions_covers options (mkMerge [] [] []) o Ho) v Hp Ev Hv).
Qed.

(* ================================================================= *)
(** ** The search roots *)


Lemma pathsOfOptions_values (options : list text) :
  (forall o, In o options -> exists v, extractProtoPathValue o = Some v /\ v <> []) ->
  pathsOfOptions options = pathValues options.
Proof.
  induction options as [|o options IH]; intros Hv; [reflexivity|].
  destruct (Hv o ltac:(now left)) as [v [Ev Hne]].
  assert (IH' : pathsOfOptions options = pathValues options)
    by (apply IH; intros x Hx; apply Hv; now right).
  unfold pathValues; cbn [pathsOfOptions flat_map]; cbv zeta.
  fold (pathValues options); rewrite Ev.
  unfold extractProtoPathValue in Ev.
  set (a := substringFrom o (length (str "--proto_path="))) in *.
  set (b := substringFrom o 2) in *.
  clearbody a b.
  destruct (startsWith o (str "--proto_path=")).
  - assert (v = a) by congruence; subst v.
    destruct a; [congruence|]; cbn [truthy]; now rewrite IH'.
  - destruct (startsWith o (str "-I") && (2 <? length o)); [|discriminate].
    assert (v = b) by congruence; subst v.
    destruct b; [congruence|]; cbn [truthy]; now rewrite IH'.
Qed.

Lemma fold_add_NoDup (l : list text) :
  forall set, NoDup set -> NoDup (fold_left add l set).
Proof.
  induction l as [|x l IH]; intros set H; [exact H|].
  cbn [fold_left]; apply IH; unfold add.
  destruct (has set x) eqn:E; [exact H|].
  apply NoDup_snoc; [exact H | now apply has_false].
Qed.

Lemma fold_add_In (l : list text) :
  forall set x, In x (fold_left add l set) <-> In x set \/ In x l.
Proof.
  induction l as [|y l IH]; intros set x; cbn [fold_left]; [simpl; tauto|].
  rewrite IH; unfold add; destruct (has set y) eqn:E.
  - apply has_true in E; simpl; split; [tauto|].
    intros [H | [<- | H]]; auto.
  - rewrite in_app_iff; simpl; tauto.
Qed.

Lemma fold_add_prefix (l : list text) :
  forall set, exists more, fold_left add l set = set ++ more.
Proof.
  induction l as [|y l IH]; intros set; cbn [fold_left].
  - exists []; now rewrite app_nil_r.
  - destruct (IH (add set y)) as [more Hm]; rewrite Hm; unfold add.
    destruct (has set y); [eauto|].
    exists (y :: more); now rewrite <- app_assoc.
Qed.

Lemma fold_add_map (f : text -> text) (l : list text) :
  forall set,
    fold_left (fun uniquePaths searchPath => add uniquePaths (f searchPath)) l set
    = fold_left add (map f l) set.
Proof. induction l as [|x l IH]; intros set; [reflexivity | apply IH]. Qed.

(** X17: the search roots of the resolvers are the workspace root, when there is
    one, and the paths of the proto path options that the merge keeps, each
    resolved, in this order and each of them once. The branch for an
    option [-I] that stands alone never runs on the options that
    [getProtoPathOptions] gives: a pair [-I], [dir] in the settings names
    no search root. *)
Theorem search_roots_are_the_named_paths :
  forall (workspaceRoot : option text) (cwd : text) (isAbsolute : text -> bool)
         (resolve : text -> text) (resolveFrom : text -> text -> text)
         (currentOptions workspaceOptions : list text),
    let searchPath :=
      resolveSearchPath workspaceRoot cwd isAbsolute resolve resolveFrom in
    let searchRoots :=
      getAllProtoPathsForImport workspaceRoot cwd isAbsolute resolve resolveFrom
        currentOptions workspaceOptions in
    pathsOfOptions (getProtoPathOptions currentOptions workspaceOptions)
    = pathValues (getProtoPathOptions currentOptions workspaceOptions)
    /\ NoDup searchRoots
    /\ (forall r,
          In r searchRoots <->
          (truthy workspaceRoot = true /\ r = searchPath (orEmpty workspaceRoot))
          \/ exists p,
               In p (pathValues (getProtoPathOptions currentOptions workspaceOptions))
               /\ r = searchPath p)
    /\ (truthy workspaceRoot = true ->
        hd_error searchRoots = Some (searchPath (orEmpty workspaceRoot))).
Proof.
  intros workspaceRoot cwd isAbsolute resolve resolveFrom cur ws searchPath searchRoots.
  assert (Hp : pathsOfOptions (getProtoPathOptions cur ws)
               = pathValues (getProtoPathOptions cur ws)).
  { apply pathsOfOptions_values.
    intros o Ho; rewrite getProtoPathOptions_filter in Ho.
    apply filter_In in Ho as [Ho Hpo].
    destruct (getMerged_coherent cur ws) as (_ & _ & H3 & _); auto. }
  split; [exact Hp|].
  unfold searchRoots, getAllProtoPathsForImport; cbv zeta.
  rewrite Hp, fold_add_map.
  fold searchPath.
  split; [apply fold_add_NoDup; constructor|].
  split.
  - intros r; rewrite fold_add_In, in_map_iff; split.
    + intros [[] | [p [<- Hin]]].
      apply in_app_or in Hin as [Hin | Hin]; [|right; eauto].
      destruct (truthy workspaceRoot); [|destruct Hin].
      destruct Hin as [<- | []]; left; auto.
    + intros [[Ht ->] | [p [Hin ->]]]; right.
      * exists (orEmpty workspaceRoot); split; [reflexivity|].
        apply in_or_app; left; rewrite Ht; now left.
      * exists p; split; [reflexivity | apply in_or_app; now right].
  - intros Ht; rewrite Ht; cbn [app map fold_left].
    unfold add at 2; cbn [has existsb app].
    destruct (fold_add_prefix
                (map searchPath (pathValues (getProtoPathOptions cur ws)))
                [searchPath (orEmpty workspaceRoot)]) as [more ->].
    reflexivity.
Qed.

(** The settings [-I], [protos]: the pair names no search root, and
    [protos] stays in the options as an argument. *)
Lemma separated_include_option_is_lost :
  getMergedProtocOptions [] [str "-I"; str "protos"] = [str "protos"]
  /\ pathsOfOptions [str "-I"; str "protos"] = [str "protos"]
  /\ getAllProtoPathsForImport (Some (str "/ws")) (str "/") (fun _ => true)
       (fun p => p) (fun _ p => p) [] [str "-I"; str "protos"]
     = [str "/ws"].
Proof. repeat split. Qed.
